(** * meta-tags-preview: path tree, sitemap resolver, batch metadata fetch

    A shallow embedding of the TypeScript sources
    - [src/lib/path-tree.ts]      (module [PathTree]),
    - the route handler of [/api/parse-sitemap] (module [ParseSitemap]),
    - the route handler of [/api/fetch-meta]    (module [FetchMeta]),
    - [handleToggleSelect] of [src/app/page.tsx] (module [Selection]),
    together with the properties the specification states about them.

    JavaScript values are embedded as follows: strings as [string], array
    lengths and counters as [nat], the numeric limit handed to
    [Array.prototype.slice] as [Z] (so that the negative, from-the-end
    reading of [slice] is kept), a property that may be [undefined] as
    [option], a [Map] as an association list in insertion order (the
    limiting rule of the tree depends on that order), a [Set] of strings
    as [gset string]. *)

From Stdlib Require Import ZArith Lia Bool Ascii DecimalString Sorted.
From Stdlib Require OrdersEx.
From stdpp Require Import base option list gmap strings.

#[local] Set Warnings "-clear-no-such-hyp".

Open Scope string_scope.
Open Scope list_scope.

(** ** JavaScript library functions used by the sources *)

Module Js.

(** [Array.prototype.slice]: a negative index counts from the end, both
    indices are clamped to the array. *)
Definition rel_index (len i : Z) : Z :=
  if (i <? 0)%Z then Z.max (len + i) 0 else Z.min i len.

Definition slice {A} (start end_ : Z) (l : list A) : list A :=
  let len := Z.of_nat (length l) in
  let s := rel_index len start in
  let e := rel_index len end_ in
  firstn (Z.to_nat (e - s)) (skipn (Z.to_nat s) l).

(** [String.prototype.split] on a one-character separator. *)
Fixpoint split (sep : ascii) (s : string) : list string :=
  match s with
  | EmptyString => [EmptyString]
  | String c rest =>
      if Ascii.eqb c sep then EmptyString :: split sep rest
      else match split sep rest with
           | [] => [String c EmptyString]
           | w :: ws => String c w :: ws
           end
  end.

(** [Boolean(s)] on a string: the empty string is the only falsy one. *)
Definition truthy (s : string) : bool := negb (String.eqb s "").

(** [Array.prototype.join]. *)
Definition join (sep : string) (l : list string) : string :=
  String.concat sep l.

(** [String.prototype.includes]. *)
Fixpoint includes (needle s : string) : bool :=
  String.prefix needle s
  || match s with
     | EmptyString => false
     | String _ rest => includes needle rest
     end.

(** [String.prototype.endsWith]. *)
Fixpoint endsWith (suffix s : string) : bool :=
  String.eqb s suffix
  || match s with
     | EmptyString => false
     | String _ rest => endsWith suffix rest
     end.

(** [String(n)] for a non-negative integer. *)
Definition of_nat (n : nat) : string :=
  NilZero.string_of_uint (Nat.to_uint n).

(** [a || b] on values that are a string or [undefined]: the first
    operand when it is truthy, otherwise the second. *)
Definition or_else (a b : option string) : option string :=
  match a with
  | Some s => if truthy s then a else b
  | None => b
  end.

Definition is_truthy (a : option string) : bool :=
  match a with
  | Some s => truthy s
  | None => false
  end.

(** The index values of [for (let i = start; i < stop; i += step)]
    when the body assigns neither [i] nor [stop]. *)
Definition for_indices (start stop step : nat) : list nat :=
  map (fun j => start + j * step) (seq 0 ((stop - start + (step - 1)) / step)).

(** [String(v)] for a value that is a string or [undefined]. *)
Definition to_string (v : option string) : string :=
  match v with
  | Some s => s
  | None => "undefined"
  end.

End Js.

(** ** [src/types/index.ts] *)

(** [SitemapUrl].  The interface declares [loc: string]; the objects are
    built from parsed XML of type [any], so at run time [loc] is whatever
    the document held, possibly [undefined]. *)
Record SitemapUrl := mkSitemapUrl {
  loc : option string;
  lastmod : option string;
  changefreq : option string;
  priority : option string
}.

Inductive Status := success | error.

Record MetaTag := mkMetaTag {
  tag_name : string;
  tag_content : string;
  tag_property : option string
}.

Record PageMetaData := mkPageMetaData {
  url : string;
  title : string;
  description : string;
  canonical : string;
  ogTitle : string;
  ogDescription : string;
  ogImage : string;
  ogUrl : string;
  ogType : string;
  ogSiteName : string;
  twitterCard : string;
  twitterTitle : string;
  twitterDescription : string;
  twitterImage : string;
  twitterSite : string;
  favicon : string;
  allMetaTags : list MetaTag;
  status : Status;
  error_message : option string
}.

(** ** [src/lib/path-tree.ts] *)

Module PathTree.

(** [PathTreeNode].  [children] is a [Map<string, PathTreeNode>]: keys
    are unique and iteration follows insertion order. *)
#[local] Unset Elimination Schemes.
Inductive PathTreeNode : Type := mkNode {
  name : string;
  fullPath : string;
  urls : list SitemapUrl;
  isIncluded : bool;
  totalUrlCount : nat;
  limitedUrlCount : nat;
  children : list (string * PathTreeNode);
  isExpanded : bool;
  isSelected : bool
}.
#[local] Set Elimination Schemes.

Record TreeStats := mkStats {
  totalOriginalUrls : nat;
  totalLimitedUrls : nat
}.

Record BuildResult := mkBuild { tree : PathTreeNode; stats : TreeStats }.

(** Field updates ([node.f = v] in the source). *)
Definition set_urls (us : list SitemapUrl) (n : PathTreeNode) :=
  mkNode (name n) (fullPath n) us (isIncluded n) (totalUrlCount n)
         (limitedUrlCount n) (children n) (isExpanded n) (isSelected n).
Definition set_children (cs : list (string * PathTreeNode)) (n : PathTreeNode) :=
  mkNode (name n) (fullPath n) (urls n) (isIncluded n) (totalUrlCount n)
         (limitedUrlCount n) cs (isExpanded n) (isSelected n).
Definition set_isIncluded (b : bool) (n : PathTreeNode) :=
  mkNode (name n) (fullPath n) (urls n) b (totalUrlCount n)
         (limitedUrlCount n) (children n) (isExpanded n) (isSelected n).
Definition set_counts (t l : nat) (n : PathTreeNode) :=
  mkNode (name n) (fullPath n) (urls n) (isIncluded n) t l
         (children n) (isExpanded n) (isSelected n).

(** [Map.prototype.has] and the in-place update of the value stored
    under a key (the position of the key does not change). *)
Definition has (key : string) (m : list (string * PathTreeNode)) : bool :=
  existsb (fun kv => String.eqb (fst kv) key) m.

Definition alter_child (f : PathTreeNode -> PathTreeNode) (key : string) :=
  fix go (m : list (string * PathTreeNode)) : list (string * PathTreeNode) :=
    match m with
    | [] => []
    | (k, c) :: rest =>
        if String.eqb k key then (k, f c) :: rest else (k, c) :: go rest
    end.

Definition emptyRoot : PathTreeNode :=
  mkNode "root" "" [] true 0 0 [] true false.

Definition freshChild (segment fullPath : string) : PathTreeNode :=
  mkNode segment fullPath [] true 0 0 [] false false.

(** [parsed.pathname.split('/').filter(Boolean)] *)
Definition pathPartsOf (pathname : string) : list string :=
  List.filter Js.truthy (Js.split "/" pathname).

(** The traversal of one URL (the body of the first-pass loop once the
    URL parsed).  [seen] is [pathParts.slice(0, i)], [rest] is
    [pathParts.slice(i)]; the node reached when [rest] is exhausted
    receives the URL: the root for an empty path, otherwise the node of
    the last segment. *)
Fixpoint descend (u : SitemapUrl) (seen rest : list string)
         (currentNode : PathTreeNode) {struct rest} : PathTreeNode :=
  match rest with
  | [] => set_urls (urls currentNode ++ [u]) currentNode
  | segment :: rest' =>
      let fullPath := "/" +:+ Js.join "/" (seen ++ [segment]) in
      let cs :=
        if has segment (children currentNode) then children currentNode
        else children currentNode ++ [(segment, freshChild segment fullPath)] in
      set_children
        (alter_child (descend u (seen ++ [segment]) rest') segment cs)
        currentNode
  end.

(** Check if a node or any of its descendants has URLs. *)
Fixpoint hasAnyUrls (node : PathTreeNode) : bool :=
  (0 <? length (urls node))%nat
  || existsb (fun kv => hasAnyUrls (snd kv)) (children node).

(** Count all URLs in this branch (reads the children's stored count). *)
Definition countAllUrls (node : PathTreeNode) : nat :=
  fold_left (fun count kv => count + totalUrlCount (snd kv))
            (children node) (length (urls node)).

(** Count limited URLs in this branch (respecting isIncluded). *)
Definition countLimitedUrls (node : PathTreeNode) : nat :=
  if negb (isIncluded node) then 0
  else fold_left (fun count kv => count + limitedUrlCount (snd kv))
                 (children node) (length (urls node)).

(** Get all LIMITED URLs from a node and its descendants. *)
Fixpoint getAllUrlsFromNode (node : PathTreeNode) : list SitemapUrl :=
  if negb (isIncluded node) then []
  else urls node
       ++ List.flat_map (fun kv => getAllUrlsFromNode (snd kv)) (children node).

(** Get all ORIGINAL URLs from a node and its descendants. *)
Fixpoint getAllOriginalUrlsFromNode (node : PathTreeNode) : list SitemapUrl :=
  urls node
  ++ List.flat_map (fun kv => getAllOriginalUrlsFromNode (snd kv)) (children node).

(** The loop [for (const [key, child] of node.children.entries())] of
    the second pass: every child is replaced by what [body] makes of
    it, the shared [stats] object is threaded through. *)
Definition forEachChild
    (body : string -> PathTreeNode -> TreeStats -> PathTreeNode * TreeStats) :=
  fix go (cs : list (string * PathTreeNode)) (st : TreeStats)
      : list (string * PathTreeNode) * TreeStats :=
    match cs with
    | [] => ([], st)
    | (key, child) :: rest =>
        let (child', st1) := body key child st in
        let (rest', st2) := go rest st1 in
        ((key, child') :: rest', st2)
    end.

(** Keys of the children that have URLs, in iteration order. *)
Definition childrenWithUrls (node : PathTreeNode) : list string :=
  map fst (List.filter (fun kv => hasAnyUrls (snd kv)) (children node)).

(** Root node's direct children are always included; for all other
    nodes the [maxChildrenPerParent] limit applies. *)
Definition includedChildren (maxChildrenPerParent : Z) (node : PathTreeNode)
    : gset string :=
  let isRootNode := String.eqb (fullPath node) "" in
  if isRootNode then list_to_set (childrenWithUrls node)
  else list_to_set (Js.slice 0 maxChildrenPerParent (childrenWithUrls node)).

Definition addStats (node : PathTreeNode) (st : TreeStats) : TreeStats :=
  {| totalOriginalUrls := totalOriginalUrls st + length (urls node);
     totalLimitedUrls :=
       if isIncluded node then totalLimitedUrls st + length (urls node)
       else totalLimitedUrls st |}.

(** [markIncludedChildren].  The source writes [child.isIncluded] and
    then recurses into the child it has just written to; [markFrom self]
    is the function on a node whose [isIncluded] field currently holds
    [self], which keeps the recursion on the children of the argument.
    [markIncludedChildren_unfold] below gives the equation in the shape
    of the source. *)
Fixpoint markFrom (maxChildrenPerParent : Z) (self : bool)
         (node : PathTreeNode) (st : TreeStats) (parentIncluded : bool)
         {struct node} : PathTreeNode * TreeStats :=
  let included := includedChildren maxChildrenPerParent node in
  let (cs, st1) :=
    forEachChild
      (fun key child st' =>
         let childIncluded := parentIncluded && bool_decide (key ∈ included) in
         markFrom maxChildrenPerParent childIncluded child st' childIncluded)
      (children node) st in
  let node1 := set_children cs (set_isIncluded self node) in
  let node2 := set_counts (countAllUrls node1) (countLimitedUrls node1) node1 in
  (node2, addStats node2 st1).

Definition markIncludedChildren (node : PathTreeNode) (st : TreeStats)
           (parentIncluded : bool) (maxChildrenPerParent : Z)
    : PathTreeNode * TreeStats :=
  markFrom maxChildrenPerParent (isIncluded node) node st parentIncluded.

Section Build.

(** [new URL(s).pathname], or [None] when the constructor throws
    (the string is not a valid absolute URL). *)
Variable URL_pathname : string -> option string.

(** One iteration of the first pass; the [catch] skips the entry. *)
Definition addUrl (root : PathTreeNode) (u : SitemapUrl) : PathTreeNode :=
  match URL_pathname (Js.to_string (loc u)) with
  | Some pathname => descend u [] (pathPartsOf pathname) root
  | None => root
  end.

Definition firstPass (us : list SitemapUrl) : PathTreeNode :=
  fold_left addUrl us emptyRoot.

Definition buildPathTree (us : list SitemapUrl) (maxChildrenPerParent : Z)
    : BuildResult :=
  let root := firstPass us in
  let st := {| totalOriginalUrls := 0; totalLimitedUrls := 0 |} in
  let (root', st') := markIncludedChildren root st true maxChildrenPerParent in
  {| tree := root'; stats := st' |}.

(** The default value of the second parameter. *)
Definition buildPathTree_default (us : list SitemapUrl) : BuildResult :=
  buildPathTree us 20.

(** The entries the first pass keeps. *)
Definition parses (u : SitemapUrl) : bool :=
  match URL_pathname (Js.to_string (loc u)) with
  | Some _ => true
  | None => false
  end.

End Build.

(** All nodes of a tree, the node itself first. *)
Fixpoint allNodes (node : PathTreeNode) : list PathTreeNode :=
  node :: List.flat_map (fun kv => allNodes (snd kv)) (children node).

(** [Map.prototype.get], and the node reached from [node] along a path
    of child keys. *)
Definition get (key : string) (m : list (string * PathTreeNode))
    : option PathTreeNode :=
  snd <$> List.find (fun kv => String.eqb (fst kv) key) m.

Fixpoint nodeAt (path : list string) (node : PathTreeNode)
    : option PathTreeNode :=
  match path with
  | [] => Some node
  | key :: path' =>
      match get key (children node) with
      | Some child => nodeAt path' child
      | None => None
      end
  end.

(** The keys of a [Map] are distinct, at every node of the tree. *)
Inductive UniqueKeys : PathTreeNode -> Prop :=
| UniqueKeys_node node :
    NoDup (map fst (children node)) ->
    (forall key child, In (key, child) (children node) -> UniqueKeys child) ->
    UniqueKeys node.

(** The sum of a count over the direct children. *)
Definition childSum (f : PathTreeNode -> nat) (node : PathTreeNode) : nat :=
  sum_list (map (fun kv => f (snd kv)) (children node)).

(** The invariant of the data model, for one node. *)
Definition countsOk (node : PathTreeNode) : Prop :=
  limitedUrlCount node <= totalUrlCount node
  /\ totalUrlCount node = length (urls node) + childSum totalUrlCount node
  /\ limitedUrlCount node =
     if isIncluded node
     then length (urls node) + childSum limitedUrlCount node
     else 0.

(** Every node below (and including) [node], paired with whether the
    whole chain of nodes from [node]'s children down to it is marked
    included; [node] itself starts the chain with [chain]. *)
Fixpoint withChain (chain : bool) (node : PathTreeNode)
    : list (bool * PathTreeNode) :=
  (chain, node)
  :: List.flat_map
       (fun kv => withChain (chain && isIncluded (snd kv)) (snd kv))
       (children node).

(** [Reach node chain m]: [m] is [node] itself ([chain] empty) or is
    reached from [node] through the nodes of [chain], each a child of
    the one before, the last being [m]. *)
Inductive Reach : PathTreeNode -> list PathTreeNode -> PathTreeNode -> Prop :=
| Reach_here node : Reach node [] node
| Reach_child node key child chain m :
    In (key, child) (children node) ->
    Reach child chain m ->
    Reach node (child :: chain) m.

(** The URLs attached to the nodes whose chain below the root is
    entirely included, in tree order. *)
Definition chainIncludedUrls (root : PathTreeNode) : list SitemapUrl :=
  List.flat_map
    (fun bn : bool * PathTreeNode => if fst bn then urls (snd bn) else [])
    (withChain true root).

(** A toy URL parser for concrete runs: [scheme://host/path] with a
    non-empty host and neither query nor fragment; the pathname is what
    follows the host, ["/"] when nothing does. *)
Module Toy.

Fixpoint afterScheme (s : string) : option string :=
  if String.prefix "://" s then Some (String.substring 3 (String.length s - 3) s)
  else match s with
       | EmptyString => None
       | String _ rest => afterScheme rest
       end.

Fixpoint dropHost (s : string) : string :=
  match s with
  | EmptyString => "/"
  | String c rest => if Ascii.eqb c "/" then s else dropHost rest
  end.

Definition URL_pathname (s : string) : option string :=
  match afterScheme s with
  | Some (String c rest) =>
      if Ascii.eqb c "/" then None else Some (dropHost rest)
  | _ => None
  end.

Definition entry (s : string) : SitemapUrl :=
  {| loc := Some s; lastmod := None; changefreq := None; priority := None |}.

Definition docs : list SitemapUrl :=
  [entry "https://example.com/docs/a";
   entry "https://example.com/docs/b";
   entry "https://example.com/docs/c"].

End Toy.

End PathTree.

(** ** Effects: thrown values, the request log, the network *)

Module Eff.

(** What a [catch] clause can receive: an [Error] object with its
    message, or some other value. *)
Inductive Thrown := ErrorObject (message : string) | OtherValue.

Inductive Outcome (A : Type) := Returned (a : A) | Threw (e : Thrown).
Arguments Returned {A} a.
Arguments Threw {A} e.

(** The state is the log of the URLs handed to [fetch], oldest first. *)
Definition Log := list string.

Definition M (A : Type) : Type := Log -> Outcome A * Log.

Definition ret {A} (a : A) : M A := fun log => (Returned a, log).
Definition throw {A} (e : Thrown) : M A := fun log => (Threw e, log).
Definition bind {A B} (m : M A) (k : A -> M B) : M B :=
  fun log =>
    match m log with
    | (Returned a, log') => k a log'
    | (Threw e, log') => (Threw e, log')
    end.
Definition try_catch {A} (m : M A) (handler : Thrown -> M A) : M A :=
  fun log =>
    match m log with
    | (Returned a, log') => (Returned a, log')
    | (Threw e, log') => handler e log'
    end.
Definition lift {A} (o : Outcome A) : M A := fun log => (o, log).

Notation "'let*' x := m 'in' k" := (bind m (fun x => k))
  (at level 10, x name, m at level 100, k at level 200).

(** [Promise.allSettled(ms)]: every computation runs, in array order;
    the outcomes are collected. *)
Fixpoint allSettled {A} (ms : list (M A)) : M (list (Outcome A)) :=
  match ms with
  | [] => ret []
  | m :: rest =>
      fun log =>
        let (o, log1) := m log in
        (let* os := allSettled rest in ret (o :: os)) log1
  end.

(** [Promise.all(ms)]: every computation runs; the result is the array
    of values, or the first rejection. *)
Fixpoint firstThrown {A} (os : list (Outcome A)) : Outcome (list A) :=
  match os with
  | [] => Returned []
  | Threw e :: _ => Threw e
  | Returned a :: rest =>
      match firstThrown rest with
      | Returned l => Returned (a :: l)
      | Threw e => Threw e
      end
  end.

Definition all {A} (ms : list (M A)) : M (list A) :=
  let* os := allSettled ms in lift (firstThrown os).

(** [error instanceof Error ? error.message : fallback] *)
Definition messageOr (fallback : string) (e : Thrown) : string :=
  match e with
  | ErrorObject m => m
  | OtherValue => fallback
  end.

Record HttpResponse := mkResponse {
  resp_status : nat;
  resp_statusText : string;
  resp_text : Outcome string      (* [await response.text()] *)
}.

(** [response.ok] *)
Definition resp_ok (r : HttpResponse) : bool :=
  (200 <=? resp_status r)%nat && (resp_status r <=? 299)%nat.

(** How a request ends: the response headers arrive, or the request
    fails, after so many milliseconds. *)
Inductive Reply :=
| Responds (after_ms : nat) (r : HttpResponse)
| Fails (after_ms : nat) (e : Thrown).

(** The platform: what the [k]-th request (counting all requests made
    so far) to a URL meets, and the value an aborted [fetch] rejects
    with ([AbortController.abort()] without a reason). *)
Record Platform := mkPlatform {
  net : nat -> string -> Reply;
  abortReason : Thrown
}.

(** [fetch(url)] without a signal. *)
Definition fetch (pf : Platform) (u : string) : M HttpResponse :=
  fun log =>
    (match net pf (length log) u with
     | Responds _ r => Returned r
     | Fails _ e => Threw e
     end, log ++ [u]).

(** [fetch(url, { signal })] with [setTimeout(() => controller.abort(), timeout)]
    pending: a request still unanswered when the timer fires is aborted. *)
Definition fetch_with_timeout (pf : Platform) (timeout : nat) (u : string)
    : M HttpResponse :=
  fun log =>
    (match net pf (length log) u with
     | Responds t r => if (timeout <=? t)%nat then Threw (abortReason pf) else Returned r
     | Fails t e => if (timeout <=? t)%nat then Threw (abortReason pf) else Threw e
     end, log ++ [u]).

End Eff.

(** ** The route handler of [/api/parse-sitemap] *)

Module ParseSitemap.
Import Eff.

(** What [fast-xml-parser] hands back for one [<url>] or [<sitemap>]
    element: the text of the child elements that are present. *)
Record XmlEntry := mkEntry {
  e_loc : option string;
  e_lastmod : option string;
  e_changefreq : option string;
  e_priority : option string
}.

(** The value of [parsed.urlset?.url] (and of
    [parsed.sitemapindex?.sitemap]): falsy when there is none, one
    object for a single element, an array for several. *)
Inductive Occurrence :=
| Absent
| Single (entry : XmlEntry)
| Many (entries : list XmlEntry).

Record ParsedXml := mkParsed {
  urlset_url : Occurrence;
  sitemapindex_sitemap : Occurrence
}.

(** [Array.isArray(x) ? x : [x]] under the truthiness test. *)
Definition entriesOf (o : Occurrence) : list XmlEntry :=
  match o with
  | Absent => []
  | Single entry => [entry]
  | Many entries => entries
  end.

Definition parseParsed (parsed : ParsedXml) : list SitemapUrl :=
  let fromUrlset :=
    map (fun entry =>
           {| loc := e_loc entry;
              lastmod := e_lastmod entry;
              changefreq := e_changefreq entry;
              priority := e_priority entry |})
        (entriesOf (urlset_url parsed)) in
  let fromIndex :=
    map (fun entry =>
           {| loc := e_loc entry;
              lastmod := e_lastmod entry;
              changefreq := None;
              priority := None |})
        (entriesOf (sitemapindex_sitemap parsed)) in
  fromUrlset ++ fromIndex.

(** [u.loc.m(...)]: a [TypeError] when [loc] is [undefined]. *)
Definition onLoc (m : string) (f : string -> bool) (u : SitemapUrl)
    : Outcome bool :=
  match loc u with
  | Some s => Returned (f s)
  | None =>
      Threw (ErrorObject
               ("Cannot read properties of undefined (reading '" +:+ m +:+ "')"))
  end.

(** [Array.prototype.every] with a callback that may throw: stops at
    the first [false]. *)
Fixpoint every {A} (p : A -> Outcome bool) (l : list A) : Outcome bool :=
  match l with
  | [] => Returned true
  | x :: rest =>
      match p x with
      | Returned true => every p rest
      | Returned false => Returned false
      | Threw e => Threw e
      end
  end.

(** [u.loc.endsWith('.xml') || u.loc.includes('sitemap')] *)
Definition looksLikeSitemap (u : SitemapUrl) : Outcome bool :=
  match onLoc "endsWith" (Js.endsWith ".xml") u with
  | Returned true => Returned true
  | Returned false => onLoc "includes" (Js.includes "sitemap") u
  | Threw e => Threw e
  end.

(** The two nested tests of [POST]: whether the nested sitemaps are
    to be fetched. *)
Definition isIndex (us : list SitemapUrl) : Outcome bool :=
  match us with
  | [] => Returned false
  | first :: _ =>
      match onLoc "includes" (Js.includes "sitemap") first with
      | Returned true => every looksLikeSitemap us
      | Returned false => Returned false
      | Threw e => Threw e
      end
  end.

Inductive Request :=
| BadJson (e : Thrown)               (* [request.json()] rejects *)
| Body (url : option string).        (* the [url] property of the body *)

Inductive Response :=
| Json200 (urls : list SitemapUrl) (totalUrls : nat)
| Json400 (err : string)
| Json500 (err : string) (urls : list SitemapUrl) (totalUrls : nat).

Section Route.

Variable pf : Platform.
(** [parser.parse(xml)], which may throw. *)
Variable parser_parse : string -> Outcome ParsedXml.
(** Whether [new URL(s)] succeeds. *)
Variable URL_valid : string -> bool.

Definition fetchSitemap (u : string) : M string :=
  let* response := fetch pf u in
  if negb (resp_ok response) then
    throw (ErrorObject ("Failed to fetch sitemap: "
                        +:+ Js.of_nat (resp_status response) +:+ " "
                        +:+ resp_statusText response))
  else lift (resp_text response).

Definition parseSitemapXml (xml : string) : M (list SitemapUrl) :=
  let* parsed := lift (parser_parse xml) in
  ret (parseParsed parsed).

(** The callback mapped over [sitemapsToFetch]. *)
Definition nestedJob (sitemap : SitemapUrl) : M (list SitemapUrl) :=
  let* xml := fetchSitemap (Js.to_string (loc sitemap)) in
  parseSitemapXml xml.

Definition fetchNestedSitemaps (sitemapUrls : list SitemapUrl)
    : M (list SitemapUrl) :=
  (* Fetch up to 10 nested sitemaps to avoid timeout *)
  let sitemapsToFetch := Js.slice 0 10 sitemapUrls in
  let* results := allSettled (map nestedJob sitemapsToFetch) in
  ret (fold_left
         (fun allUrls result =>
            match result with
            | Returned value => allUrls ++ value
            | Threw _ => allUrls
            end)
         results []).

Definition resolve (u : string) : M Response :=
  let* xml := fetchSitemap u in
  let* us := parseSitemapXml xml in
  let* index := lift (isIndex us) in
  let* us' :=
    (if index then
       let* nestedUrls := fetchNestedSitemaps us in
       ret (if (0 <? length nestedUrls)%nat then nestedUrls else us)
     else ret us) in
  ret (Json200 us' (length us')).

Definition POST (request : Request) : M Response :=
  match request with
  | BadJson e =>
      ret (Json500 (messageOr "Failed to parse sitemap" e) [] 0)
  | Body url =>
      if negb (Js.is_truthy url) then ret (Json400 "Sitemap URL is required")
      else
        let u := Js.to_string url in
        if negb (URL_valid u) then ret (Json400 "Invalid URL format")
        else
          try_catch (resolve u)
            (fun e => ret (Json500 (messageOr "Failed to parse sitemap" e) [] 0))
  end.

End Route.

(** What one settled nested sitemap adds to the result. *)
Definition contribution (o : Outcome (list SitemapUrl)) : list SitemapUrl :=
  match o with
  | Returned value => value
  | Threw _ => []
  end.

(** The URL a nested reference is fetched from. *)
Definition target (sitemap : SitemapUrl) : string := Js.to_string (loc sitemap).

(** What the nested sitemap [sitemap], asked for in the [k]-th
    request, adds to the result, read off the platform and the parser:
    the entries of the document the request is answered with, and
    nothing when the request fails, is answered with a status outside
    200-299, the body cannot be read or the parser throws. *)
Definition nestedEntries (pf : Platform)
           (parser_parse : string -> Outcome ParsedXml)
           (k : nat) (sitemap : SitemapUrl) : list SitemapUrl :=
  match net pf k (target sitemap) with
  | Responds _ r =>
      if resp_ok r then
        match resp_text r with
        | Returned xml =>
            match parser_parse xml with
            | Returned parsed => parseParsed parsed
            | Threw _ => []
            end
        | Threw _ => []
        end
      else []
  | Fails _ _ => []
  end.

(** The same for a list of nested sitemaps asked for one after the
    other from the [k]-th request on. *)
Fixpoint nestedEntriesFrom (pf : Platform)
         (parser_parse : string -> Outcome ParsedXml)
         (k : nat) (sitemaps : list SitemapUrl) : list SitemapUrl :=
  match sitemaps with
  | [] => []
  | sitemap :: rest =>
      nestedEntries pf parser_parse k sitemap
      ++ nestedEntriesFrom pf parser_parse (S k) rest
  end.

(** The condition the specification gives for an index: every entry's
    [loc] ends in [.xml] or contains [sitemap]. *)
Definition everyLocLooksLikeSitemap (us : list SitemapUrl) : Prop :=
  forall u, In u us ->
    exists s, loc u = Some s
              /\ (Js.endsWith ".xml" s = true \/ Js.includes "sitemap" s = true).

(** The outer gate of the source: the first entry's [loc] contains
    [sitemap]. *)
Definition firstLocNamesSitemap (us : list SitemapUrl) : Prop :=
  exists first rest s,
    us = first :: rest /\ loc first = Some s /\ Js.includes "sitemap" s = true.

(** A small world for concrete runs: an index at [/sitemap.xml] naming
    two nested sitemaps, the second of which answers 404; an index at
    [/sitemap-old.xml] whose only nested sitemap answers 404; a plain
    sitemap at [/pages.xml] with one entry lacking [loc]; a plain
    sitemap at [/all.xml] whose only entry ends in [.xml]. *)
Module Sample.

Definition ok (body : string) : Reply :=
  Responds 20 {| resp_status := 200; resp_statusText := "OK";
                 resp_text := Returned body |}.

Definition notFound : Reply :=
  Responds 20 {| resp_status := 404; resp_statusText := "Not Found";
                 resp_text := Returned "" |}.

Definition pf : Platform :=
  {| net := fun _ u =>
       if String.eqb u "https://example.com/sitemap.xml" then ok "index"
       else if String.eqb u "https://example.com/sitemap-1.xml" then ok "first"
       else if String.eqb u "https://example.com/pages.xml" then ok "pages"
       else if String.eqb u "https://example.com/all.xml" then ok "plain"
       else if String.eqb u "https://example.com/sitemap-old.xml" then ok "old index"
       else notFound;
     abortReason := ErrorObject "This operation was aborted" |}.

Definition entry (l : option string) : XmlEntry :=
  {| e_loc := l; e_lastmod := None; e_changefreq := None; e_priority := None |}.

Definition parser_parse (xml : string) : Outcome ParsedXml :=
  if String.eqb xml "index" then
    Returned {| urlset_url := Absent;
                sitemapindex_sitemap :=
                  Many [entry (Some "https://example.com/sitemap-1.xml");
                        entry (Some "https://example.com/sitemap-2.xml")] |}
  else if String.eqb xml "old index" then
    Returned {| urlset_url := Absent;
                sitemapindex_sitemap :=
                  Single (entry (Some "https://example.com/sitemap-gone.xml")) |}
  else if String.eqb xml "first" then
    Returned {| urlset_url :=
                  Many [entry (Some "https://example.com/a");
                        entry (Some "https://example.com/b")];
                sitemapindex_sitemap := Absent |}
  else if String.eqb xml "pages" then
    Returned {| urlset_url :=
                  Many [entry (Some "https://example.com/a"); entry None];
                sitemapindex_sitemap := Absent |}
  else if String.eqb xml "plain" then
    Returned {| urlset_url := Single (entry (Some "https://example.com/archive.xml"));
                sitemapindex_sitemap := Absent |}
  else Threw (ErrorObject "Unexpected end of input").

Definition URL_valid (u : string) : bool := String.prefix "https://" u.

Definition POST := ParseSitemap.POST pf parser_parse URL_valid.

Definition plain (l : option string) : SitemapUrl :=
  {| loc := l; lastmod := None; changefreq := None; priority := None |}.

End Sample.

End ParseSitemap.

(** ** The route handler of [/api/fetch-meta] *)

Module FetchMeta.
Import Eff.

(** The part of the [cheerio] document the route looks at. *)
Record MetaElement := mkMeta {
  attr_name : option string;
  attr_property : option string;
  attr_http_equiv : option string;
  attr_content : option string
}.

Record Document := mkDocument {
  metas : list MetaElement;                      (* [$('meta')], document order *)
  attrOf : string -> string -> option string;    (* [$(selector).attr(a)] *)
  titleText : string                             (* [$('title').first().text()] *)
}.

(** The CSS selector [tag[attr="value"]]. *)
Definition sel (tag attr value : string) : string :=
  let quote := String (ascii_of_nat 34) EmptyString in
  tag +:+ "[" +:+ attr +:+ "=" +:+ quote +:+ value +:+ quote +:+ "]".

Definition errorRecord (u msg : string) : PageMetaData :=
  {| url := u; title := ""; description := ""; canonical := "";
     ogTitle := ""; ogDescription := ""; ogImage := ""; ogUrl := "";
     ogType := ""; ogSiteName := ""; twitterCard := ""; twitterTitle := "";
     twitterDescription := ""; twitterImage := ""; twitterSite := "";
     favicon := ""; allMetaTags := []; status := error;
     error_message := Some msg |}.

Inductive Request :=
| BadJson (e : Thrown)                    (* [request.json()] rejects *)
| NullBody (message : string)             (* the body is the JSON value [null]:
                                             the destructuring throws a
                                             [TypeError] with this message *)
| Body (urls : option (list string)).     (* [None]: missing or not an array *)

Record FetchMetaResponse := mkFetchMetaResponse {
  results : list PageMetaData;
  processedCount : nat;
  errorCount : nat
}.

Inductive Response :=
| Json200 (r : FetchMetaResponse)
| Json400 (err : string)
| Json500 (err : string) (r : FetchMetaResponse).

Definition isError (r : PageMetaData) : bool :=
  match status r with
  | error => true
  | success => false
  end.

Section Route.

Variable pf : Platform.
(** [cheerio.load(html)] *)
Variable cheerio_load : string -> Document.
(** [new URL(rel, base).href], which throws on an invalid URL. *)
Variable URL_href : string -> string -> Outcome string.

(** [setTimeout(() => controller.abort(), 10000)] *)
Definition timeout_ms : nat := Z.to_nat 10000.

Definition fetchPageContent (u : string) : M string :=
  let* response := fetch_with_timeout pf timeout_ms u in
  if negb (resp_ok response) then
    throw (ErrorObject ("HTTP " +:+ Js.of_nat (resp_status response) +:+ ": "
                        +:+ resp_statusText response))
  else lift (resp_text response).

Definition collectMetaTags (doc : Document) : list MetaTag :=
  omap (fun el =>
          let name := Js.or_else (attr_name el)
                        (Js.or_else (attr_property el) (attr_http_equiv el)) in
          let content := Js.to_string (Js.or_else (attr_content el) (Some "")) in
          match name with
          | Some n =>
              if Js.truthy n && Js.truthy content
              then Some {| tag_name := n; tag_content := content;
                           tag_property := attr_property el |}
              else None
          | None => None
          end)
       (metas doc).

(** [getMeta(selectors)]: the first non-empty [content]. *)
Fixpoint getMeta (doc : Document) (selectors : list string) : string :=
  match selectors with
  | [] => ""
  | selector :: rest =>
      match attrOf doc selector "content" with
      | Some c => if Js.truthy c then c else getMeta doc rest
      | None => getMeta doc rest
      end
  end.

(** The favicon loop: the first selector with a non-empty [href]. *)
Fixpoint findFavicon (doc : Document) (u : string) (selectors : list string)
    : Outcome string :=
  match selectors with
  | [] => Returned ""
  | selector :: rest =>
      match attrOf doc selector "href" with
      | Some href =>
          if Js.truthy href then
            if String.prefix "http" href then Returned href else URL_href href u
          else findFavicon doc u rest
      | None => findFavicon doc u rest
      end
  end.

Definition extractMetaTags (html u : string) : Outcome PageMetaData :=
  let doc := cheerio_load html in
  match findFavicon doc u
          [(sel "link" "rel" "icon"); (sel "link" "rel" "shortcut icon");
           (sel "link" "rel" "apple-touch-icon")] with
  | Threw e => Threw e
  | Returned found =>
      let favicon :=
        if Js.truthy found then found
        else match URL_href "/favicon.ico" u with
             | Returned h => h
             | Threw _ => ""
             end in
      Returned
        {| url := u;
           title := titleText doc;
           description := getMeta doc [(sel "meta" "name" "description");
                                       (sel "meta" "property" "og:description")];
           canonical := Js.to_string
                          (Js.or_else (attrOf doc (sel "link" "rel" "canonical") "href")
                                      (Some u));
           ogTitle := getMeta doc [(sel "meta" "property" "og:title")];
           ogDescription := getMeta doc [(sel "meta" "property" "og:description")];
           ogImage := getMeta doc [(sel "meta" "property" "og:image")];
           ogUrl := getMeta doc [(sel "meta" "property" "og:url")];
           ogType := getMeta doc [(sel "meta" "property" "og:type")];
           ogSiteName := getMeta doc [(sel "meta" "property" "og:site_name")];
           twitterCard := getMeta doc [(sel "meta" "name" "twitter:card")];
           twitterTitle := getMeta doc [(sel "meta" "name" "twitter:title")];
           twitterDescription := getMeta doc [(sel "meta" "name" "twitter:description")];
           twitterImage := getMeta doc [(sel "meta" "name" "twitter:image")];
           twitterSite := getMeta doc [(sel "meta" "name" "twitter:site")];
           favicon := favicon;
           allMetaTags := collectMetaTags doc;
           status := success;
           error_message := None |}
  end.

(** The [try] block of [processUrl]. *)
Definition attempt (u : string) : M PageMetaData :=
  let* html := fetchPageContent u in
  lift (extractMetaTags html u).

Definition processUrl (u : string) : M PageMetaData :=
  try_catch (attempt u)
    (fun e => ret (errorRecord u (messageOr "Unknown error" e))).

(** The batch loop of [POST]: [i] runs over [0, 5, 10, ...] below
    [urlsToProcess.length]. *)
Definition batchSize : nat := 5.

Fixpoint runBatches (urlsToProcess : list string) (starts : list nat)
         (results : list PageMetaData) : M (list PageMetaData) :=
  match starts with
  | [] => ret results
  | i :: starts' =>
      let batch := Js.slice (Z.of_nat i) (Z.of_nat (i + batchSize)) urlsToProcess in
      let* batchResults := all (map processUrl batch) in
      runBatches urlsToProcess starts' (results ++ batchResults)
  end.

Definition respond (urls : list string) : M Response :=
  (* Limit to 50 URLs per request to avoid timeout *)
  let urlsToProcess := Js.slice 0 50 urls in
  let* results :=
    runBatches urlsToProcess
               (Js.for_indices 0 (length urlsToProcess) batchSize) [] in
  ret (Json200 {| results := results;
                  processedCount := length results;
                  errorCount := length (List.filter isError results) |}).

Definition failure (e : Thrown) : Response :=
  Json500 (messageOr "Failed to fetch meta tags" e)
          {| results := []; processedCount := 0; errorCount := 0 |}.

Definition POST (request : Request) : M Response :=
  match request with
  | BadJson e => ret (failure e)
  | NullBody message => ret (failure (ErrorObject message))
  | Body None | Body (Some []) => ret (Json400 "URLs array is required")
  | Body (Some urls) => try_catch (respond urls) (fun e => ret (failure e))
  end.

End Route.

(** The platform raises no [Error] whose message is empty: neither the
    aborted or failed [fetch], nor [response.text()], nor the [URL]
    constructor. *)
Definition describesErrors (pf : Platform)
           (URL_href : string -> string -> Outcome string) : Prop :=
  abortReason pf <> ErrorObject ""
  /\ (forall k u,
        match net pf k u with
        | Fails _ e => e <> ErrorObject ""
        | Responds _ r => resp_text r <> Threw (ErrorObject "")
        end)
  /\ (forall rel base, URL_href rel base <> Threw (ErrorObject "")).

(** Why the page of [u], asked for in the [k]-th request, is not
    obtained, with the value that is thrown: the request is still open
    after 10 seconds, it fails earlier, it is answered with a status
    outside 200-299, the body cannot be read, or the extraction throws. *)
Inductive pageFails (pf : Platform) (cheerio_load : string -> Document)
          (URL_href : string -> string -> Outcome string)
          (k : nat) (u : string) : Thrown -> Prop :=
| timesOut :
    (match net pf k u with
     | Responds t _ | Fails t _ => 10000 <= Z.of_nat t
     end)%Z ->
    pageFails pf cheerio_load URL_href k u (abortReason pf)
| requestFails t e :
    net pf k u = Fails t e -> (Z.of_nat t < 10000)%Z ->
    pageFails pf cheerio_load URL_href k u e
| statusNotOk t r :
    net pf k u = Responds t r -> (Z.of_nat t < 10000)%Z ->
    resp_ok r = false ->
    pageFails pf cheerio_load URL_href k u
              (ErrorObject ("HTTP " +:+ Js.of_nat (resp_status r) +:+ ": "
                            +:+ resp_statusText r))
| bodyFails t r e :
    net pf k u = Responds t r -> (Z.of_nat t < 10000)%Z ->
    resp_ok r = true -> resp_text r = Threw e ->
    pageFails pf cheerio_load URL_href k u e
| extractionFails t r html e :
    net pf k u = Responds t r -> (Z.of_nat t < 10000)%Z ->
    resp_ok r = true -> resp_text r = Returned html ->
    extractMetaTags cheerio_load URL_href html u = Threw e ->
    pageFails pf cheerio_load URL_href k u e.

(** A small world for concrete runs: one page that answers, one that
    is missing, one that answers too late, and no other host. *)
Module Sample.

Definition page (after_ms status : nat) (statusText body : string) : Reply :=
  Responds after_ms {| resp_status := status; resp_statusText := statusText;
                       resp_text := Returned body |}.

Definition pf : Platform :=
  {| net := fun _ u =>
       if String.eqb u "https://example.com/" then page 120 200 "OK" "<html>"
       else if String.eqb u "https://example.com/missing"
            then page 80 404 "Not Found" ""
       else if String.eqb u "https://example.com/slow"
            then page (Z.to_nat 15000) 200 "OK" "<html>"
       else Fails 5 (ErrorObject "fetch failed");
     abortReason := ErrorObject "This operation was aborted" |}.

Definition cheerio_load (html : string) : Document :=
  {| metas := []; attrOf := fun _ _ => None; titleText := "" |}.

Definition URL_href (rel base : string) : Outcome string :=
  Returned (base +:+ rel).

(** A document with five [meta] elements: a description, an Open Graph
    title, a viewport with an empty [content], an element with a
    [content] and no name, and a refresh whose [name] is empty. *)
Definition describedPage (html : string) : Document :=
  {| metas :=
       [ {| attr_name := Some "description"; attr_property := None;
            attr_http_equiv := None; attr_content := Some "A page" |};
         {| attr_name := None; attr_property := Some "og:title";
            attr_http_equiv := None; attr_content := Some "Title" |};
         {| attr_name := Some "viewport"; attr_property := None;
            attr_http_equiv := None; attr_content := Some "" |};
         {| attr_name := None; attr_property := None;
            attr_http_equiv := None; attr_content := Some "orphan" |};
         {| attr_name := Some ""; attr_property := None;
            attr_http_equiv := Some "refresh"; attr_content := Some "30" |} ];
     attrOf := fun _ _ => None;
     titleText := "Sample" |}.

Definition processUrl := FetchMeta.processUrl pf cheerio_load URL_href.
Definition POST := FetchMeta.POST pf cheerio_load URL_href.

End Sample.

End FetchMeta.

(** ** [handleToggleSelect] of [src/app/page.tsx] *)

Module Selection.

(** The selection is a [Set] of [loc] values. *)
Definition handleToggleSelect (selectedUrls : gset (option string))
           (urlsToToggle : list SitemapUrl) : gset (option string) :=
  let newSelected := selectedUrls in
  let locs := map loc urlsToToggle in
  let allSelected := forallb (fun l => bool_decide (l ∈ newSelected)) locs in
  if allSelected
  then fold_left (fun s l => s ∖ {[ l ]}) locs newSelected
  else fold_left (fun s l => {[ l ]} ∪ s) locs newSelected.

End Selection.

(** ** The rest of [src/lib/path-tree.ts]: the flattened view *)

(** [FlatTreeNode] *)
Module Flat.

Record FlatTreeNode := mkFlatTreeNode {
  id : string;
  name : string;
  fullPath : string;
  depth : nat;
  urls : list SitemapUrl;
  urlCount : nat;
  limitedUrlCount : nat;
  totalUrlCount : nat;
  hasChildren : bool;
  isExpanded : bool;
  isSelected : bool;
  isPartiallySelected : bool;
  isLimited : bool;
  isIncluded : bool
}.

End Flat.

Module PathTreeView.
Import PathTree.

Section Flatten.

(** [a.localeCompare(b)]: negative, zero or positive. *)
Variable localeCompare : string -> string -> Z.

(** [entries.sort((a, b) => a[0].localeCompare(b[0]))]: the sort is
    stable; an entry goes before the first later entry it does not
    compare greater than. *)
Fixpoint insertEntry {V} (x : string * V) (l : list (string * V))
    : list (string * V) :=
  match l with
  | [] => [x]
  | y :: l' =>
      if (localeCompare (fst x) (fst y) <=? 0)%Z then x :: y :: l'
      else y :: insertEntry x l'
  end.

Definition sortEntries {V} (l : list (string * V)) : list (string * V) :=
  fold_right insertEntry [] l.

(** The object pushed for one child. *)
Definition rowOf (expandedPaths : gset string) (selectedUrls : gset (option string))
           (depth : nat) (child : PathTreeNode) : Flat.FlatTreeNode :=
  let allUrls := getAllOriginalUrlsFromNode child in
  let selectedCount :=
    length (List.filter (fun u => bool_decide (loc u ∈ selectedUrls)) allUrls) in
  let isExpanded := bool_decide (fullPath child ∈ expandedPaths) in
  let isLimited := (limitedUrlCount child <? totalUrlCount child)%nat in
  {| Flat.id := fullPath child;
     Flat.name := name child;
     Flat.fullPath := fullPath child;
     Flat.depth := depth;
     Flat.urls := urls child;
     Flat.urlCount := length (urls child);
     Flat.limitedUrlCount := limitedUrlCount child;
     Flat.totalUrlCount := totalUrlCount child;
     Flat.hasChildren := (0 <? length (children child))%nat;
     Flat.isExpanded := isExpanded;
     Flat.isSelected :=
       (selectedCount =? length allUrls)%nat && (0 <? length allUrls)%nat;
     Flat.isPartiallySelected :=
       (0 <? selectedCount)%nat && (selectedCount <? length allUrls)%nat;
     Flat.isLimited := isLimited;
     Flat.isIncluded := isIncluded child |}.

(** [flattenTree].  The source sorts the children and then walks the
    sorted array, recursing into each child; here the rows of every
    child are computed first, in stored order, and the blocks are then
    put in sorted order, which keeps the recursion on the children of
    the argument.  [flattenTree_unfold] below gives the equation in the
    shape of the source. *)
Fixpoint flattenTree (node : PathTreeNode) (expandedPaths : gset string)
         (selectedUrls : gset (option string)) (depth : nat) (parentPath : string)
         {struct node} : list Flat.FlatTreeNode :=
  let blocks :=
    map (fun kv : string * PathTreeNode =>
           let child := snd kv in
           (fst kv,
            rowOf expandedPaths selectedUrls depth child
            :: (if bool_decide (fullPath child ∈ expandedPaths)
                   && (0 <? length (children child))%nat
                then flattenTree child expandedPaths selectedUrls (depth + 1)
                                 (fullPath child)
                else [])))
        (children node) in
  concat (map snd (sortEntries blocks)).

(** Two entries are in order when the first key does not compare
    greater than the second. *)
Definition keysInOrder {V} (x y : string * V) : Prop :=
  (localeCompare (fst x) (fst y) <= 0)%Z.

End Flatten.

(** Every node of a chain is expanded. *)
Definition expandedAll (expandedPaths : gset string) (chain : list PathTreeNode)
    : bool :=
  forallb (fun c => bool_decide (fullPath c ∈ expandedPaths)) chain.

(** Get all paths that should be expanded to show a specific path. *)
Definition getPathsToExpand (fullPath : string) : list string :=
  let parts := pathPartsOf fullPath in
  map (fun i => "/" +:+ Js.join "/" (Js.slice 0 (Z.of_nat i) parts))
      (seq 1 (length parts)).

End PathTreeView.

(** ** The sidebar ([PathTreeSidebar]) and the page handlers *)

Module Sidebar.
Import PathTree Selection.

(** The addresses of the URLs of a subtree, excluded ones too, as a set. *)
Definition locsOf (node : PathTreeNode) : gset (option string) :=
  list_to_set (map loc (getAllOriginalUrlsFromNode node)).

(** [getNodeByPath]: [null] as soon as a segment has no child. *)
Definition getNodeByPath (root : PathTreeNode) (path : string)
    : option PathTreeNode :=
  nodeAt (pathPartsOf path) root.

(** [handleCheckboxClick], with [onToggleSelect] the page's
    [handleToggleSelect]. *)
Definition handleCheckboxClick (tree : PathTreeNode)
           (selectedUrls : gset (option string)) (node : Flat.FlatTreeNode)
    : gset (option string) :=
  match getNodeByPath tree (Flat.fullPath node) with
  | Some treeNode =>
      handleToggleSelect selectedUrls (getAllOriginalUrlsFromNode treeNode)
  | None => selectedUrls
  end.

(** The [onClick] of the "Select All" button. *)
Definition selectAllClick (tree : PathTreeNode)
           (selectedUrls : gset (option string)) : gset (option string) :=
  let allUrls := getAllOriginalUrlsFromNode tree in
  let urlsToAdd :=
    List.filter (fun u => negb (bool_decide (loc u ∈ selectedUrls))) allUrls in
  if (0 <? length urlsToAdd)%nat then handleToggleSelect selectedUrls urlsToAdd
  else selectedUrls.

(** The [onClick] of the "Deselect All" button. *)
Definition deselectAllClick (tree : PathTreeNode)
           (selectedUrls : gset (option string)) : gset (option string) :=
  let allUrls := getAllOriginalUrlsFromNode tree in
  let urlsToRemove :=
    List.filter (fun u => bool_decide (loc u ∈ selectedUrls)) allUrls in
  if (0 <? length urlsToRemove)%nat then handleToggleSelect selectedUrls urlsToRemove
  else selectedUrls.

End Sidebar.

Module Page.

(** [handleToggleExpand] *)
Definition handleToggleExpand (expandedPaths : gset string) (path : string)
    : gset string :=
  let newExpanded := expandedPaths in
  if bool_decide (path ∈ newExpanded) then newExpanded ∖ {[ path ]}
  else {[ path ]} ∪ newExpanded.

(** [toggleSelectAll]: the size of the selection is compared with the
    length of the limited list. *)
Definition toggleSelectAll (selectedUrls : gset (option string))
           (limitedUrls : list SitemapUrl) : gset (option string) :=
  if (size selectedUrls =? length limitedUrls)%nat then ∅
  else list_to_set (map loc limitedUrls).

End Page.

(** The tree of [Toy.docs] built with limit 3, node by node. *)
Module PathTreeSample.
Import PathTree.

Definition leaf (segment : string) : PathTreeNode :=
  mkNode segment ("/docs/" +:+ segment)
         [Toy.entry ("https://example.com/docs/" +:+ segment)]
         true 1 1 [] false false.

Definition docsA : PathTreeNode := leaf "a".

Definition docsDir : PathTreeNode :=
  mkNode "docs" "/docs" [] true 3 3
         [("a", leaf "a"); ("b", leaf "b"); ("c", leaf "c")] false false.

(** Three entries under three top-level paths, not in alphabetical
    order. *)
Definition site : list SitemapUrl :=
  [Toy.entry "https://example.com/pricing";
   Toy.entry "https://example.com/blog/post";
   Toy.entry "https://example.com/about"].

(** Comparison of strings by code units, as a stand-in for
    [localeCompare]. *)
Definition codeUnitCompare (a b : string) : Z :=
  match String.compare a b with
  | Lt => (-1)%Z
  | Eq => 0%Z
  | Gt => 1%Z
  end.

End PathTreeSample.

(** ** Shapes of trees the first pass builds *)

Module PathTreeShape.
Import PathTree.

(** Every node below [node] has a URL in its subtree. *)
Inductive Populated : PathTreeNode -> Prop :=
| Populated_node node :
    (forall key child, In (key, child) (children node) -> hasAnyUrls child = true) ->
    (forall key child, In (key, child) (children node) -> Populated child) ->
    Populated node.

(** A path segment: not empty and without a slash. *)
Definition isSegment (key : string) : Prop :=
  Js.truthy key = true /\ Js.split "/" key = [key].

(** [WellPlaced prefix node]: below [node], which sits at the path
    [prefix], every child is stored under a key that is a segment, is
    named by that key, and holds the path to it as its [fullPath]. *)
Inductive WellPlaced : list string -> PathTreeNode -> Prop :=
| WellPlaced_node prefix node :
    (forall key child,
        In (key, child) (children node) ->
        isSegment key /\ name child = key
        /\ fullPath child = "/" +:+ Js.join "/" (prefix ++ [key])) ->
    (forall key child,
        In (key, child) (children node) -> WellPlaced (prefix ++ [key]) child) ->
    WellPlaced prefix node.

(** The two counts of a node are the lengths of the two URL lists of
    its subtree. *)
Definition countsAreLengths (node : PathTreeNode) : Prop :=
  totalUrlCount node = length (getAllOriginalUrlsFromNode node)
  /\ limitedUrlCount node = length (getAllUrlsFromNode node).

End PathTreeShape.

(** ** The CSV export ([src/lib/export.ts]) *)

Module ExportCsv.

Definition comma : ascii := ","%char.
Definition quote : ascii := ascii_of_nat 34.
Definition lineFeed : ascii := ascii_of_nat 10.

(** The global [replace] of [escapeCSV]: every quote is written twice. *)
Fixpoint doubleQuotes (s : string) : string :=
  match s with
  | EmptyString => EmptyString
  | String c rest =>
      if Ascii.eqb c quote then String c (String c (doubleQuotes rest))
      else String c (doubleQuotes rest)
  end.

(** [escapeCSV]; [None] stands for [null] and [undefined]. *)
Definition escapeCSV (value : option string) : string :=
  match value with
  | None => String quote (String quote EmptyString)
  | Some stringValue =>
      if Js.includes (String comma EmptyString) stringValue
         || Js.includes (String quote EmptyString) stringValue
         || Js.includes (String lineFeed EmptyString) stringValue
      then String quote (doubleQuotes stringValue) +:+ String quote EmptyString
      else stringValue
  end.

Definition headers : list string :=
  ["URL"; "Title"; "Description"; "Canonical"; "OG Title"; "OG Description";
   "OG Image"; "OG URL"; "OG Type"; "OG Site Name"; "Twitter Card";
   "Twitter Title"; "Twitter Description"; "Twitter Image"; "Twitter Site";
   "Status"; "Error"].

(** The string a [status] is at run time. *)
Definition statusText (s : Status) : string :=
  match s with
  | success => "success"
  | error => "error"
  end.

(** The array built for one item. *)
Definition rowOf (item : PageMetaData) : list string :=
  [url item; title item; description item; canonical item; ogTitle item;
   ogDescription item; ogImage item; ogUrl item; ogType item; ogSiteName item;
   twitterCard item; twitterTitle item; twitterDescription item;
   twitterImage item; twitterSite item; statusText (status item);
   Js.to_string (Js.or_else (error_message item) (Some ""))].

Definition csvLine (row : list string) : string :=
  Js.join (String comma EmptyString) (map (fun value => escapeCSV (Some value)) row).

(** [csvContent], the text [exportToCSV] puts in the [Blob]. *)
Definition csvContent (data : list PageMetaData) : string :=
  let rows := map rowOf data in
  Js.join (String lineFeed EmptyString) (csvLine headers :: map csvLine rows).

(** A reader of comma-separated text, to read the export back: commas
    separate fields and line feeds separate records; a field that
    starts with a quote runs up to the next quote that is not doubled,
    and a doubled quote in it stands for one quote. *)
Inductive ReaderState := FieldStart | Unquoted | Quoted | QuoteSeen.

Definition snoc (s : string) (c : ascii) : string := s +:+ String c EmptyString.

Fixpoint readFrom (st : ReaderState) (text : string) (field : string)
         (record : list string) (records : list (list string))
    : list (list string) :=
  match text with
  | EmptyString => records ++ [record ++ [field]]
  | String c rest =>
      match st with
      | Quoted =>
          if Ascii.eqb c quote then readFrom QuoteSeen rest field record records
          else readFrom Quoted rest (snoc field c) record records
      | _ =>
          if Ascii.eqb c comma
          then readFrom FieldStart rest "" (record ++ [field]) records
          else if Ascii.eqb c lineFeed
          then readFrom FieldStart rest "" [] (records ++ [record ++ [field]])
          else if Ascii.eqb c quote
          then match st with
               | FieldStart => readFrom Quoted rest field record records
               | QuoteSeen => readFrom Quoted rest (snoc field c) record records
               | _ => readFrom Unquoted rest (snoc field c) record records
               end
          else readFrom Unquoted rest (snoc field c) record records
      end
  end.

Definition readCSV (text : string) : list (list string) :=
  readFrom FieldStart text "" [] [].

(** [c] occurs in [s]. *)
Fixpoint occurs (c : ascii) (s : string) : Prop :=
  match s with
  | EmptyString => False
  | String d rest => c = d \/ occurs c rest
  end.

(** The text is at the end of a field. *)
Definition atDelimiter (text : string) : Prop :=
  match text with
  | EmptyString => True
  | String c _ => c = comma \/ c = lineFeed
  end.

End ExportCsv.

(** ** Fetching the meta tags from the page ([handleFetchMetaTags]) *)

Module Client.
Import Eff FetchMeta.

(** The part of the page state that [handleFetchMetaTags] writes. *)
Record PageState := mkPageState {
  isFetchingMeta : bool;
  errorText : option string;          (* [error], [None] for [null] *)
  metaResults : list PageMetaData;
  progress : Z
}.

Section HandleFetchMetaTags.

(** The request to [/api/fetch-meta] with the body [{ urls: batch }],
    up to the parsed answer; a rejection is a failed transport. *)
Variable server : list string -> M Response.
(** [Math.round((a / n) * 100)] *)
Variable percent : nat -> nat -> Z.

Definition batchSize : nat := 10.

(** [data.error || 'Failed to fetch meta tags'] *)
Definition errorOr (err : string) : string :=
  if Js.truthy err then err else "Failed to fetch meta tags".

(** The [catch] clause: [setError]. *)
Definition caught (st : PageState) (e : Thrown) : PageState :=
  {| isFetchingMeta := isFetchingMeta st;
     errorText := Some (messageOr "Failed to fetch meta tags" e);
     metaResults := metaResults st;
     progress := progress st |}.

(** The loop inside [try].  Whatever is thrown in an iteration leaves
    the loop for the [catch] clause with the state reached so far, so
    the handler is put around each iteration. *)
Fixpoint fetchLoop (urlsToFetch : list string) (starts : list nat)
         (allResults : list PageMetaData) (st : PageState) : M PageState :=
  match starts with
  | [] => ret st
  | i :: starts' =>
      let batch := Js.slice (Z.of_nat i) (Z.of_nat (i + batchSize)) urlsToFetch in
      try_catch
        (let* response := server batch in
         match response with
         | Json200 data =>
             let allResults' := allResults ++ results data in
             fetchLoop urlsToFetch starts' allResults'
               {| isFetchingMeta := isFetchingMeta st;
                  errorText := errorText st;
                  metaResults := allResults';
                  progress := percent (length allResults') (length urlsToFetch) |}
         | Json400 err => throw (ErrorObject (errorOr err))
         | Json500 err _ => throw (ErrorObject (errorOr err))
         end)
        (fun e => ret (caught st e))
  end.

(** [handleFetchMetaTags], with [urlsToFetch] the array made from the
    selection. *)
Definition handleFetchMetaTags (urlsToFetch : list string) (st : PageState)
    : M PageState :=
  if (length urlsToFetch =? 0)%nat then ret st
  else
    let started :=
      {| isFetchingMeta := true; errorText := None;
         metaResults := []; progress := 0 |} in
    let* st' :=
      fetchLoop urlsToFetch
                (Js.for_indices 0 (length urlsToFetch) batchSize) [] started in
    ret {| isFetchingMeta := false;
           errorText := errorText st';
           metaResults := metaResults st';
           progress := 100 |}.

End HandleFetchMetaTags.

(** The meta route as the page reaches it: the answer to the body
    [{ urls: batch }]. *)
Definition route (pf : Platform) (cheerio_load : string -> Document)
           (URL_href : string -> string -> Outcome string)
           (batch : list string) : M Response :=
  POST pf cheerio_load URL_href (Body (Some batch)).

End Client.

(** * Properties *)

(** ** [Array.prototype.slice] on non-negative indices *)

Module JsFacts.

Example split_path : Js.split "/" "/a//b/" = [""; "a"; ""; "b"; ""].
Proof. reflexivity. Qed.

Example split_empty : Js.split "/" "" = [""].
Proof. reflexivity. Qed.

Example includes_sitemap : Js.includes "sitemap" "https://example.com/sitemap-1.xml" = true.
Proof. reflexivity. Qed.

Example includes_not : Js.includes "sitemap" "https://example.com/archive.xml" = false.
Proof. reflexivity. Qed.

Example endsWith_xml :
  Js.endsWith ".xml" "https://example.com/archive.xml" = true
  /\ Js.endsWith ".xml" "https://example.com/archive.xml.gz" = false.
Proof. split; reflexivity. Qed.

Example slice_from_the_end : Js.slice 0 (-1) [1; 2; 3] = [1; 2].
Proof. reflexivity. Qed.

Example slice_clamps : Js.slice 1 50 [1; 2; 3] = [2; 3].
Proof. reflexivity. Qed.

Example for_indices_12 : Js.for_indices 0 12 5 = [0; 5; 10].
Proof. reflexivity. Qed.

Example of_nat_404 : Js.of_nat 404 = "404".
Proof. reflexivity. Qed.

(** [for_indices] lists the values [i] takes in
    [for (let i = start; i < stop; i += step)]: the numbers
    [start + j * step] below [stop]. *)
Lemma for_indices_spec (start stop step i : nat) :
  0 < step ->
  In i (Js.for_indices start stop step)
  <-> exists j, i = start + j * step /\ i < stop.
Proof.
  intros Hstep. unfold Js.for_indices. rewrite in_map_iff.
  set (d := stop - start).
  assert (Hdiv : forall j, j < (d + (step - 1)) / step <-> j * step < d).
  { intros j.
    pose proof (Nat.div_mod_eq (d + (step - 1)) step) as D.
    pose proof (Nat.mod_upper_bound (d + (step - 1)) step) as U.
    split; intros H; nia. }
  split.
  - intros (j & <- & Hj). apply in_seq in Hj. exists j. split; [reflexivity|].
    assert (j * step < d) by (apply Hdiv; lia). lia.
  - intros (j & -> & Hj). exists j. split; [reflexivity|]. apply in_seq.
    assert (j < (d + (step - 1)) / step) by (apply Hdiv; lia). lia.
Qed.

Lemma slice_prefix {A} (k : Z) (l : list A) :
  (0 <= k)%Z -> Js.slice 0 k l = firstn (Z.to_nat k) l.
Proof.
  intros Hk. unfold Js.slice, Js.rel_index. simpl.
  destruct (k <? 0)%Z eqn:E; [apply Z.ltb_lt in E; lia|].
  rewrite (Z.min_l 0) by lia. rewrite Z.sub_0_r.
  change (skipn (Z.to_nat 0) l) with l.
  destruct (Z.le_gt_cases k (Z.of_nat (length l))) as [Hle|Hgt].
  - now rewrite Z.min_l by lia.
  - rewrite Z.min_r by lia. rewrite Nat2Z.id.
    rewrite firstn_all. symmetry. apply firstn_all2. lia.
Qed.

Lemma slice_nat {A} (a b : nat) (l : list A) :
  Js.slice (Z.of_nat a) (Z.of_nat b) l = firstn (b - a) (skipn a l).
Proof.
  unfold Js.slice, Js.rel_index.
  destruct (Z.of_nat a <? 0)%Z eqn:Ea; [apply Z.ltb_lt in Ea; lia|].
  destruct (Z.of_nat b <? 0)%Z eqn:Eb; [apply Z.ltb_lt in Eb; lia|].
  rewrite <- !Nat2Z.inj_min, Nat2Z.id.
  replace (Z.to_nat (Z.of_nat (Nat.min b (length l)) - Z.of_nat (Nat.min a (length l))))
    with (Nat.min b (length l) - Nat.min a (length l)) by lia.
  destruct (Nat.le_gt_cases a (length l)) as [Ha|Ha].
  - rewrite (Nat.min_l a) by lia.
    destruct (Nat.le_gt_cases b (length l)) as [Hb|Hb].
    + now rewrite (Nat.min_l b) by lia.
    + rewrite (Nat.min_r b) by lia.
      rewrite !firstn_all2; [reflexivity| |]; rewrite length_skipn; lia.
  - rewrite (Nat.min_r a) by lia.
    rewrite !(skipn_all2 l) by lia. now rewrite !firstn_nil.
Qed.

End JsFacts.

(** ** The path tree *)

Module PathTreeFacts.
Import PathTree.

(** Induction over a tree, with the hypothesis for every child. *)
Lemma PathTreeNode_ind (P : PathTreeNode -> Prop) :
  (forall n, Forall (fun kv => P (snd kv)) (children n) -> P n) ->
  forall n, P n.
Proof.
  intros step. fix IH 1. intros [nm fp us inc t l cs ex sl].
  apply step. simpl.
  refine ((fix go (m : list (string * PathTreeNode)) :
             Forall (fun kv => P (snd kv)) m :=
             match m with
             | [] => List.Forall_nil _
             | kv :: rest => List.Forall_cons _ kv rest (IH (snd kv)) (go rest)
             end) cs).
Qed.

Example pathPartsOf_trailing_slash : pathPartsOf "/a/c/" = ["a"; "c"].
Proof. reflexivity. Qed.

(** The scenario of the specification: entries [/a], [/a/b], [/c] and
    limit 20. *)
Example three_entries :
  let built := buildPathTree Toy.URL_pathname
                 [Toy.entry "https://example.com/a";
                  Toy.entry "https://example.com/a/b";
                  Toy.entry "https://example.com/c"] 20 in
  map fst (children (tree built)) = ["a"; "c"]
  /\ (urls <$> nodeAt ["a"] (tree built)) = Some [Toy.entry "https://example.com/a"]
  /\ (map fst <$> (children <$> nodeAt ["a"] (tree built))) = Some ["b"]
  /\ totalOriginalUrls (stats built) = 3.
Proof. vm_compute. repeat split. Qed.

(** *** The loop over the children *)

Lemma forEachChild_keys body cs st :
  map fst (fst (forEachChild body cs st)) = map fst cs.
Proof.
  revert st. induction cs as [|[k c] cs IH]; intros st; simpl; [reflexivity|].
  destruct (body k c st) as [c' st1]. specialize (IH st1).
  destruct (forEachChild body cs st1) as [rest' st2]. simpl in *. now f_equal.
Qed.

(** Every child of the result is [body] applied to the child stored
    under the same key, at the same position. *)
Lemma forEachChild_Forall2 body cs st :
  Forall2 (fun kv kv' =>
             fst kv' = fst kv /\ exists st', snd kv' = fst (body (fst kv) (snd kv) st'))
          cs (fst (forEachChild body cs st)).
Proof.
  revert st. induction cs as [|[k c] cs IH]; intros st; simpl; [constructor|].
  destruct (body k c st) as [c' st1] eqn:E. specialize (IH st1).
  destruct (forEachChild body cs st1) as [rest' st2]. simpl in *.
  constructor; [|exact IH]. simpl. split; [reflexivity|].
  exists st. now rewrite E.
Qed.

Lemma forEachChild_ext body1 body2 cs st :
  (forall k c s, body1 k c s = body2 k c s) ->
  forEachChild body1 cs st = forEachChild body2 cs st.
Proof.
  intros H. revert st. induction cs as [|[k c] cs IH]; intros st; simpl; [reflexivity|].
  rewrite H. destruct (body2 k c st) as [c' st1]. now rewrite IH.
Qed.

(** *** The second pass in the shape of the source *)

Lemma markFrom_set_isIncluded k b b' n st pi :
  markFrom k b (set_isIncluded b' n) st pi = markFrom k b n st pi.
Proof. destruct n. reflexivity. Qed.

Lemma markIncludedChildren_unfold node st parentIncluded k :
  markIncludedChildren node st parentIncluded k =
  let included := includedChildren k node in
  let (cs, st1) :=
    forEachChild
      (fun key child st' =>
         let childIncluded := parentIncluded && bool_decide (key ∈ included) in
         markIncludedChildren (set_isIncluded childIncluded child) st' childIncluded k)
      (children node) st in
  let node1 := set_children cs node in
  let node2 := set_counts (countAllUrls node1) (countLimitedUrls node1) node1 in
  (node2, addStats node2 st1).
Proof.
  unfold markIncludedChildren. destruct node as [nm fp us inc t l cs ex sl].
  cbn [markFrom]. cbv zeta.
  erewrite forEachChild_ext; [reflexivity|].
  intros key c s. cbn beta. now rewrite markFrom_set_isIncluded.
Qed.

(** *** Counts *)

Lemma fold_left_count (f : PathTreeNode -> nat) (cs : list (string * PathTreeNode)) a :
  fold_left (fun count kv => count + f (snd kv)) cs a
  = a + sum_list (map (fun kv => f (snd kv)) cs).
Proof.
  revert a. induction cs as [|kv cs IH]; intros a; simpl; [lia|].
  rewrite IH. lia.
Qed.

Lemma countAllUrls_sum node :
  countAllUrls node = length (urls node) + childSum totalUrlCount node.
Proof. apply fold_left_count. Qed.

Lemma countLimitedUrls_sum node :
  countLimitedUrls node =
  if isIncluded node then length (urls node) + childSum limitedUrlCount node else 0.
Proof.
  unfold countLimitedUrls. destruct (isIncluded node); simpl; [|reflexivity].
  apply fold_left_count.
Qed.

Lemma sum_list_le (f g : PathTreeNode -> nat) (cs : list (string * PathTreeNode)) :
  Forall (fun kv => f (snd kv) <= g (snd kv)) cs ->
  sum_list (map (fun kv => f (snd kv)) cs) <= sum_list (map (fun kv => g (snd kv)) cs).
Proof. induction 1; simpl; lia. Qed.

Lemma allNodes_unfold node :
  allNodes node
  = node :: List.flat_map (fun kv => allNodes (snd kv)) (children node).
Proof. destruct node; reflexivity. Qed.

(** What the second pass leaves in the fields of the node it returns. *)
Lemma markFrom_fields k self node st pi :
  let node' := fst (markFrom k self node st pi) in
  name node' = name node /\ fullPath node' = fullPath node
  /\ urls node' = urls node /\ isIncluded node' = self
  /\ map fst (children node') = map fst (children node)
  /\ totalUrlCount node' = countAllUrls node'
  /\ limitedUrlCount node' = countLimitedUrls node'.
Proof.
  destruct node as [nm fp us inc t l cs ex sl]. cbn [markFrom]. cbv zeta.
  match goal with |- context [forEachChild ?b ?c ?s] =>
    pose proof (forEachChild_keys b c s) as Hk;
    destruct (forEachChild b c s) as [cs' st1] end.
  simpl in *. repeat split; try reflexivity. exact Hk.
Qed.

Lemma markFrom_children k self node st pi :
  Forall2 (fun kv kv' =>
             fst kv' = fst kv
             /\ exists b st' pi', snd kv' = fst (markFrom k b (snd kv) st' pi'))
          (children node) (children (fst (markFrom k self node st pi))).
Proof.
  destruct node as [nm fp us inc t l cs ex sl]. cbn [markFrom]. cbv zeta.
  match goal with |- context [forEachChild ?b ?c ?s] =>
    pose proof (forEachChild_Forall2 b c s) as H2;
    destruct (forEachChild b c s) as [cs' st1] end.
  simpl in *. eapply Forall2_impl; [exact H2|].
  intros kv kv' [Hk [st' Hst]]. split; [exact Hk|]. eauto.
Qed.

Lemma markFrom_countsOk k node :
  forall self st pi,
    Forall countsOk (allNodes (fst (markFrom k self node st pi))).
Proof.
  induction node as [node IH] using PathTreeNode_ind. intros self st pi.
  pose proof (markFrom_fields k self node st pi) as F. cbv zeta in F.
  pose proof (markFrom_children k self node st pi) as C.
  set (node' := fst (markFrom k self node st pi)) in *.
  destruct F as (_ & _ & _ & Hinc & _ & Ht & Hl).
  assert (Hsub : Forall (fun kv => Forall countsOk (allNodes (snd kv)))
                        (children node')).
  { clear -IH C. induction C as [|kv kv' cs cs' [_ (b & st' & pi' & E)] _ IHC].
    - constructor.
    - apply Forall_cons_1 in IH as [IHkv IHcs]. constructor; [|now apply IHC].
      rewrite E. apply IHkv. }
  rewrite allNodes_unfold. constructor.
  - rewrite countAllUrls_sum in Ht. rewrite countLimitedUrls_sum in Hl.
    unfold countsOk. split; [|split; assumption].
    rewrite Ht, Hl. destruct (isIncluded node'); [|lia].
    unfold childSum. apply Nat.add_le_mono_l, sum_list_le.
    eapply Forall_impl; [exact Hsub|]. intros [key c] Hc. simpl in *.
    rewrite allNodes_unfold in Hc. apply Forall_cons_1 in Hc as [Hc _].
    apply Hc.
  - clear -Hsub. induction Hsub as [|kv cs Hkv _ IHs]; simpl; [constructor|].
    apply Forall_app. split; assumption.
Qed.

Lemma tree_buildPathTree P us k :
  tree (buildPathTree P us k)
  = fst (markFrom k (isIncluded (firstPass P us)) (firstPass P us)
                  {| totalOriginalUrls := 0; totalLimitedUrls := 0 |} true).
Proof.
  unfold buildPathTree, markIncludedChildren.
  destruct (markFrom _ _ _ _ _); reflexivity.
Qed.

(** C1. After [buildPathTree], every node of the tree satisfies
    [limitedUrlCount <= totalUrlCount]; its [totalUrlCount] is the
    number of its own URLs plus the sum of its children's
    [totalUrlCount]; its [limitedUrlCount] obeys the same recurrence
    when the node is included and is 0 when it is not. *)
Theorem buildPathTree_counts
    (URL_pathname : string -> option string) (us : list SitemapUrl)
    (maxChildrenPerParent : Z) :
  Forall countsOk
         (allNodes (tree (buildPathTree URL_pathname us maxChildrenPerParent))).
Proof. rewrite tree_buildPathTree. apply markFrom_countsOk. Qed.

(** *** The first pass keeps every entry that parses, once *)

Abbreviation orig := getAllOriginalUrlsFromNode.

Lemma orig_unfold node :
  orig node
  = urls node ++ List.flat_map (fun kv => orig (snd kv)) (children node).
Proof. destruct node; reflexivity. Qed.

Lemma has_app_fresh seg cs c : has seg (cs ++ [(seg, c)]) = true.
Proof.
  unfold has. rewrite existsb_app. simpl. rewrite String.eqb_refl.
  now rewrite orb_true_r.
Qed.

Lemma alter_child_perm f seg u (cs : list (string * PathTreeNode)) :
  has seg cs = true ->
  (forall c, orig (f c) ≡ₚ u :: orig c) ->
  List.flat_map (fun kv => orig (snd kv)) (alter_child f seg cs)
  ≡ₚ u :: List.flat_map (fun kv => orig (snd kv)) cs.
Proof.
  intros Hhas Hf. induction cs as [|[k c] cs IH]; [discriminate|].
  simpl in *. destruct (String.eqb k seg); simpl.
  - now rewrite Hf.
  - rewrite IH by exact Hhas. symmetry. apply Permutation_middle.
Qed.

Lemma descend_perm u rest :
  forall seen node, orig (descend u seen rest node) ≡ₚ u :: orig node.
Proof.
  induction rest as [|segment rest IH]; intros seen node.
  - cbn [descend]. rewrite (orig_unfold (set_urls _ _)), (orig_unfold node).
    simpl. rewrite <- app_assoc. simpl.
    symmetry. apply Permutation_middle.
  - cbn [descend]. cbv zeta.
    rewrite (orig_unfold (set_children _ _)), (orig_unfold node). simpl.
    rewrite alter_child_perm with (u := u).
    + destruct (has segment (children node)).
      * symmetry. apply Permutation_middle.
      * rewrite flat_map_app. simpl. rewrite !app_nil_r.
        symmetry. apply Permutation_middle.
    + destruct (has segment (children node)) eqn:E; [exact E|apply has_app_fresh].
    + intros c. apply IH.
Qed.

Lemma fold_addUrl_perm P us :
  forall root,
    orig (fold_left (addUrl P) us root) ≡ₚ orig root ++ List.filter (parses P) us.
Proof.
  induction us as [|u us IH]; intros root; simpl.
  - now rewrite app_nil_r.
  - rewrite IH. unfold addUrl, parses.
    destruct (P (Js.to_string (loc u))) as [pathname|].
    + rewrite descend_perm. simpl. apply Permutation_middle.
    + reflexivity.
Qed.

Lemma firstPass_perm P us : orig (firstPass P us) ≡ₚ List.filter (parses P) us.
Proof. unfold firstPass. now rewrite fold_addUrl_perm. Qed.

(** *** The second pass changes neither the shape nor the URLs *)

Lemma markFrom_orig k node :
  forall self st pi, orig (fst (markFrom k self node st pi)) = orig node.
Proof.
  induction node as [node IH] using PathTreeNode_ind. intros self st pi.
  pose proof (markFrom_fields k self node st pi) as F. cbv zeta in F.
  pose proof (markFrom_children k self node st pi) as C.
  set (node' := fst (markFrom k self node st pi)) in *.
  destruct F as (_ & _ & Hu & _).
  rewrite (orig_unfold node'), (orig_unfold node), Hu. f_equal.
  clear -IH C. induction C as [|kv kv' cs cs' [_ (b & st' & pi' & E)] _ IHC];
    [reflexivity|].
  apply Forall_cons_1 in IH as [IHkv IHcs]. simpl.
  rewrite E, IHkv. f_equal. now apply IHC.
Qed.

Lemma markFrom_total k node :
  forall self st pi,
    totalUrlCount (fst (markFrom k self node st pi)) = length (orig node).
Proof.
  induction node as [node IH] using PathTreeNode_ind. intros self st pi.
  pose proof (markFrom_fields k self node st pi) as F. cbv zeta in F.
  pose proof (markFrom_children k self node st pi) as C.
  set (node' := fst (markFrom k self node st pi)) in *.
  destruct F as (_ & _ & Hu & _ & _ & Ht & _).
  rewrite Ht, countAllUrls_sum, Hu, (orig_unfold node), length_app. f_equal.
  unfold childSum.
  clear -IH C. induction C as [|kv kv' cs cs' [_ (b & st' & pi' & E)] _ IHC];
    [reflexivity|].
  apply Forall_cons_1 in IH as [IHkv IHcs]. simpl.
  rewrite length_app, E, IHkv. f_equal. now apply IHC.
Qed.

(** C2. The root's [totalUrlCount] after [buildPathTree] is the number
    of input entries whose [loc] parses as an absolute URL, whatever
    the limit; the URLs held by the tree are those entries, each once,
    so an entry that fails to parse is attached to no node. *)
Theorem buildPathTree_total
    (URL_pathname : string -> option string) (us : list SitemapUrl)
    (maxChildrenPerParent : Z) :
  let built := tree (buildPathTree URL_pathname us maxChildrenPerParent) in
  totalUrlCount built = length (List.filter (parses URL_pathname) us)
  /\ getAllOriginalUrlsFromNode built ≡ₚ List.filter (parses URL_pathname) us.
Proof.
  cbv zeta. rewrite tree_buildPathTree, markFrom_total, markFrom_orig.
  split; [|apply firstPass_perm].
  now rewrite firstPass_perm.
Qed.

(** *** Raising the limit *)

Lemma firstn_mono {A} (a b : nat) (l : list A) x :
  a <= b -> In x (firstn a l) -> In x (firstn b l).
Proof.
  intros Hab. revert a b Hab. induction l as [|y l IH]; intros a b Hab.
  - now rewrite !firstn_nil.
  - destruct a as [|a]; [intros []|]. destruct b as [|b]; [lia|].
    simpl. intros [->|Hin]; [now left|]. right. apply (IH a b); [lia|exact Hin].
Qed.

Lemma includedChildren_mono k1 k2 node key :
  (0 <= k1 <= k2)%Z ->
  key ∈ includedChildren k1 node -> key ∈ includedChildren k2 node.
Proof.
  intros Hk. unfold includedChildren.
  destruct (String.eqb (fullPath node) ""); [trivial|].
  rewrite !elem_of_list_to_set, !JsFacts.slice_prefix by lia.
  rewrite !list_elem_of_In. apply firstn_mono. lia.
Qed.

Lemma markFrom_children_eq k self node st pi :
  children (fst (markFrom k self node st pi))
  = fst (forEachChild
           (fun key child st' =>
              let childIncluded :=
                pi && bool_decide (key ∈ includedChildren k node) in
              markFrom k childIncluded child st' childIncluded)
           (children node) st).
Proof.
  destruct node as [nm fp us inc t l cs ex sl]. cbn [markFrom]. cbv zeta.
  destruct (forEachChild _ _ _); reflexivity.
Qed.

Lemma get_In key (cs : list (string * PathTreeNode)) c :
  get key cs = Some c -> In (key, c) cs.
Proof.
  unfold get. induction cs as [|[k0 c0] cs IH]; simpl; [discriminate|].
  destruct (String.eqb k0 key) eqn:E; simpl.
  - intros [= <-]. apply String.eqb_eq in E. subst. now left.
  - intros H. right. now apply IH.
Qed.

(** Looking a key up after the loop: what [body] made of the child
    stored under that key. *)
Lemma forEachChild_get body cs st key :
  match get key cs with
  | Some c => exists st', get key (fst (forEachChild body cs st))
                          = Some (fst (body key c st'))
  | None => get key (fst (forEachChild body cs st)) = None
  end.
Proof.
  revert st. unfold get.
  induction cs as [|[k0 c0] cs IH]; intros st; simpl; [reflexivity|].
  destruct (body k0 c0 st) as [c' st1] eqn:E. specialize (IH st1).
  destruct (forEachChild body cs st1) as [rest' st2]. simpl in *.
  destruct (String.eqb k0 key) eqn:Hk; simpl.
  - apply String.eqb_eq in Hk. subst. exists st. now rewrite E.
  - exact IH.
Qed.

Lemma markFrom_mono k1 k2 node :
  (0 <= k1 <= k2)%Z ->
  forall self1 self2 pi1 pi2 st1 st2 path n1,
    (self1 = true -> self2 = true) ->
    (pi1 = true -> pi2 = true) ->
    nodeAt path (fst (markFrom k1 self1 node st1 pi1)) = Some n1 ->
    isIncluded n1 = true ->
    exists n2,
      nodeAt path (fst (markFrom k2 self2 node st2 pi2)) = Some n2
      /\ fullPath n2 = fullPath n1 /\ urls n2 = urls n1
      /\ isIncluded n2 = true.
Proof.
  intros Hk. induction node as [node IH] using PathTreeNode_ind.
  intros self1 self2 pi1 pi2 st1 st2 [|key path] n1 Hself Hpi.
  - simpl. intros [= <-] Hinc. eexists. split; [reflexivity|].
    pose proof (markFrom_fields k1 self1 node st1 pi1) as F1.
    pose proof (markFrom_fields k2 self2 node st2 pi2) as F2.
    cbv zeta in F1, F2.
    destruct F1 as (_ & P1 & U1 & E1 & _), F2 as (_ & P2 & U2 & E2 & _).
    rewrite P1, P2, U1, U2, E2. repeat split. apply Hself. now rewrite <- E1.
  - cbn [nodeAt]. rewrite !markFrom_children_eq.
    match goal with |- context [forEachChild ?b (children node) st1] =>
      pose proof (forEachChild_get b (children node) st1 key) as G1 end.
    match goal with |- context [forEachChild ?b (children node) st2] =>
      pose proof (forEachChild_get b (children node) st2 key) as G2 end.
    destruct (get key (children node)) as [c|] eqn:Hget.
    + destruct G1 as [s1 G1], G2 as [s2 G2]. rewrite G1, G2.
      apply get_In in Hget.
      rewrite List.Forall_forall in IH. specialize (IH _ Hget). simpl in IH.
      apply IH.
      * intros H. apply andb_true_iff in H as [Hp Hin].
        apply andb_true_iff. split; [now apply Hpi|].
        apply bool_decide_eq_true. apply bool_decide_eq_true in Hin.
        eapply includedChildren_mono; eassumption.
      * intros H. apply andb_true_iff in H as [Hp Hin].
        apply andb_true_iff. split; [now apply Hpi|].
        apply bool_decide_eq_true. apply bool_decide_eq_true in Hin.
        eapply includedChildren_mono; eassumption.
    + rewrite G1. discriminate.
Qed.

(** *** Every node of a built tree is named by its path *)

Lemma UniqueKeys_inv node :
  UniqueKeys node ->
  NoDup (map fst (children node))
  /\ (forall key child, In (key, child) (children node) -> UniqueKeys child).
Proof. intros H. inversion H. split; assumption. Qed.

Lemma UniqueKeys_children a b :
  children a = children b -> UniqueKeys a -> UniqueKeys b.
Proof.
  intros E H. apply UniqueKeys_inv in H as [Hn Hc].
  constructor; rewrite <- E; assumption.
Qed.

Lemma alter_child_keys f seg (cs : list (string * PathTreeNode)) :
  map fst (alter_child f seg cs) = map fst cs.
Proof.
  induction cs as [|[k c] cs IH]; simpl; [reflexivity|].
  destruct (String.eqb k seg); simpl; [reflexivity|]. now rewrite IH.
Qed.

Lemma alter_child_In f seg (cs : list (string * PathTreeNode)) k c' :
  In (k, c') (alter_child f seg cs) ->
  exists c, In (k, c) cs /\ (c' = c \/ c' = f c).
Proof.
  induction cs as [|[k0 c0] cs IH]; simpl; [intros []|].
  destruct (String.eqb k0 seg); simpl.
  - intros [[= <- <-]|Hin]; eauto.
  - intros [[= <- <-]|Hin]; [eauto|].
    destruct (IH Hin) as (c & Hc & E). eauto.
Qed.

Lemma has_false_notin seg (cs : list (string * PathTreeNode)) :
  has seg cs = false -> ~ In seg (map fst cs).
Proof.
  unfold has. induction cs as [|[k c] cs IH]; simpl; [tauto|].
  intros H. apply orb_false_iff in H as [Hk Hrest].
  intros [->|Hin]; [now rewrite String.eqb_refl in Hk|now apply IH].
Qed.

Lemma descend_UniqueKeys u rest :
  forall seen node, UniqueKeys node -> UniqueKeys (descend u seen rest node).
Proof.
  induction rest as [|segment rest IH]; intros seen node Hnode.
  - eapply UniqueKeys_children; [|exact Hnode]. reflexivity.
  - cbn [descend]. cbv zeta. apply UniqueKeys_inv in Hnode as [Hdup Hsub].
    constructor; cbn [children set_children].
    + rewrite alter_child_keys.
      destruct (has segment (children node)) eqn:E; [exact Hdup|].
      rewrite map_app. simpl. apply NoDup_app. split; [exact Hdup|].
      split; [|apply NoDup_singleton].
      intros k Hk Hin. apply list_elem_of_In in Hk.
      apply list_elem_of_In in Hin as [<-|[]].
      now apply has_false_notin in E.
    + intros key child Hin. apply alter_child_In in Hin as (c & Hc & E).
      assert (Hu : UniqueKeys c).
      { destruct (has segment (children node)); [now apply (Hsub key)|].
        apply in_app_or in Hc as [Hc|[[= <- <-]|[]]]; [now apply (Hsub key)|].
        constructor; [constructor|intros ? ? []]. }
      destruct E as [->| ->]; [exact Hu|now apply IH].
Qed.

Lemma firstPass_UniqueKeys P us : UniqueKeys (firstPass P us).
Proof.
  unfold firstPass.
  assert (H : forall root, UniqueKeys root -> UniqueKeys (fold_left (addUrl P) us root)).
  { induction us as [|u us IH]; intros root Hroot; simpl; [exact Hroot|].
    apply IH. unfold addUrl.
    destruct (P _); [now apply descend_UniqueKeys|exact Hroot]. }
  apply H. constructor; [constructor|intros ? ? []].
Qed.

Lemma markFrom_UniqueKeys k node :
  forall self st pi,
    UniqueKeys node -> UniqueKeys (fst (markFrom k self node st pi)).
Proof.
  induction node as [node IH] using PathTreeNode_ind.
  intros self st pi Hnode. apply UniqueKeys_inv in Hnode as [Hdup Hsub].
  pose proof (markFrom_fields k self node st pi) as F. cbv zeta in F.
  pose proof (markFrom_children k self node st pi) as C.
  set (node' := fst (markFrom k self node st pi)) in *.
  destruct F as (_ & _ & _ & _ & Hkeys & _).
  constructor; [now rewrite Hkeys|].
  intros key child' Hin.
  rewrite List.Forall_forall in IH.
  clear -IH C Hsub Hin.
  induction C as [|[k0 c0] [k0' c0'] cs cs' [Ek (b & st' & pi' & E)] _ IHC];
    [destruct Hin|].
  simpl in *. destruct Hin as [[= -> ->]|Hin].
  - subst. apply (IH (k0, c0)); [now left|]. apply (Hsub k0). now left.
  - apply IHC; [|intros; eapply Hsub; right; eassumption|exact Hin].
    intros x Hx. apply IH. now right.
Qed.

Lemma get_NoDup key child (cs : list (string * PathTreeNode)) :
  NoDup (map fst cs) -> In (key, child) cs -> get key cs = Some child.
Proof.
  unfold get. induction cs as [|[k0 c0] cs IH]; simpl; [intros _ []|].
  intros Hdup Hin. apply NoDup_cons in Hdup as [Hk0 Hdup].
  destruct Hin as [[= -> ->]|Hin].
  - now rewrite String.eqb_refl.
  - destruct (String.eqb k0 key) eqn:E.
    + apply String.eqb_eq in E. subst k0. exfalso. apply Hk0.
      apply list_elem_of_In, in_map_iff. exists (key, child). auto.
    + now apply IH.
Qed.

Lemma allNodes_nodeAt node :
  UniqueKeys node ->
  forall n, In n (allNodes node) -> exists path, nodeAt path node = Some n.
Proof.
  induction node as [node IH] using PathTreeNode_ind.
  intros Hnode n. apply UniqueKeys_inv in Hnode as [Hdup Hsub].
  rewrite allNodes_unfold. intros [<-|Hin].
  - exists []. reflexivity.
  - apply in_flat_map in Hin as ([key c] & Hc & Hn). cbn [snd] in Hn.
    rewrite List.Forall_forall in IH.
    destruct (IH _ Hc (Hsub _ _ Hc) n Hn) as [path Hpath].
    exists (key :: path). cbn [nodeAt]. now rewrite (get_NoDup key c).
Qed.

(** C3. For limits [0 <= k1 <= k2], every node of the tree built with
    [k1] that is marked included is found, at the same path of segments
    from the root and with the same [fullPath] and URLs, in the tree
    built with [k2], and is marked included there. *)
Theorem buildPathTree_monotone
    (URL_pathname : string -> option string) (us : list SitemapUrl)
    (k1 k2 : Z) (n1 : PathTreeNode) :
  (0 <= k1 <= k2)%Z ->
  In n1 (allNodes (tree (buildPathTree URL_pathname us k1))) ->
  isIncluded n1 = true ->
  exists path n2,
    nodeAt path (tree (buildPathTree URL_pathname us k1)) = Some n1
    /\ nodeAt path (tree (buildPathTree URL_pathname us k2)) = Some n2
    /\ fullPath n2 = fullPath n1 /\ urls n2 = urls n1
    /\ isIncluded n2 = true.
Proof.
  intros Hk Hin Hinc.
  destruct (allNodes_nodeAt (tree (buildPathTree URL_pathname us k1)))
    with (n := n1) as [path Hpath]; [|exact Hin|].
  { rewrite tree_buildPathTree.
    apply markFrom_UniqueKeys, firstPass_UniqueKeys. }
  exists path.
  pose proof Hpath as Hpath'. rewrite tree_buildPathTree in Hpath'.
  eapply (markFrom_mono k1 k2) in Hpath' as (n2 & H2 & Hrest);
    [|exact Hk|intros H; exact H|intros H; exact H|exact Hinc].
  exists n2. split; [exact Hpath|]. split; [|exact Hrest].
  rewrite tree_buildPathTree. exact H2.
Qed.

Lemma buildPathTree_monotone_witness :
  exists path n2,
    nodeAt path (tree (buildPathTree Toy.URL_pathname Toy.docs 1))
    = Some (mkNode "a" "/docs/a" [Toy.entry "https://example.com/docs/a"]
                   true 1 1 [] false false)
    /\ nodeAt path (tree (buildPathTree Toy.URL_pathname Toy.docs 2)) = Some n2
    /\ fullPath n2 = "/docs/a"
    /\ urls n2 = [Toy.entry "https://example.com/docs/a"]
    /\ isIncluded n2 = true.
Proof.
  apply (buildPathTree_monotone Toy.URL_pathname Toy.docs 1 2
           (mkNode "a" "/docs/a" [Toy.entry "https://example.com/docs/a"]
                   true 1 1 [] false false)).
  - lia.
  - vm_compute. right. right. left. reflexivity.
  - reflexivity.
Defined.

(** Outside the range of C3: a negative limit makes [slice] count from
    the end, so [-1] keeps all children but the last while [0] keeps
    none. *)
Remark negative_limit_counts_from_the_end :
  (isIncluded <$> nodeAt ["docs"; "a"]
     (tree (buildPathTree Toy.URL_pathname Toy.docs (-1)))) = Some true
  /\ (isIncluded <$> nodeAt ["docs"; "a"]
       (tree (buildPathTree Toy.URL_pathname Toy.docs 0))) = Some false.
Proof. split; vm_compute; reflexivity. Qed.

(** *** The included URLs *)

Abbreviation pick :=
  (fun bn : bool * PathTreeNode => if fst bn then urls (snd bn) else []).

Lemma getAllUrlsFromNode_unfold node :
  getAllUrlsFromNode node
  = if negb (isIncluded node) then []
    else urls node
         ++ List.flat_map (fun kv => getAllUrlsFromNode (snd kv)) (children node).
Proof. destruct node; reflexivity. Qed.

Lemma withChain_unfold chain node :
  withChain chain node
  = (chain, node)
    :: List.flat_map
         (fun kv => withChain (chain && isIncluded (snd kv)) (snd kv))
         (children node).
Proof. destruct node; reflexivity. Qed.

Lemma flat_map_flat_map {A B C} (f : A -> list B) (g : B -> list C) l :
  List.flat_map g (List.flat_map f l)
  = List.flat_map (fun x => List.flat_map g (f x)) l.
Proof.
  induction l as [|x l IH]; simpl; [reflexivity|].
  now rewrite flat_map_app, IH.
Qed.

Lemma flat_map_ext_Forall {A B} (f g : A -> list B) l :
  Forall (fun x => f x = g x) l -> List.flat_map f l = List.flat_map g l.
Proof. induction 1 as [|x l E _ IH]; simpl; [reflexivity|]. now rewrite E, IH. Qed.

(** Below a node whose chain is broken nothing is picked; below a
    node whose chain holds, each child contributes what
    [getAllUrlsFromNode] returns for it. *)
Lemma pick_withChain node :
  forall chain,
    List.flat_map pick (withChain chain node)
    = if chain
      then urls node
           ++ List.flat_map (fun kv => getAllUrlsFromNode (snd kv)) (children node)
      else [].
Proof.
  induction node as [node IH] using PathTreeNode_ind. intros chain.
  rewrite withChain_unfold. cbn [List.flat_map fst snd].
  rewrite flat_map_flat_map. destruct chain; cbn [andb].
  - f_equal. apply flat_map_ext_Forall.
    eapply Forall_impl; [exact IH|]. intros [key c] Hc. cbn [snd] in *.
    rewrite Hc, (getAllUrlsFromNode_unfold c).
    destruct (isIncluded c); reflexivity.
  - simpl. rewrite (flat_map_ext_Forall _ (fun _ => [])).
    + clear IH. induction (children node) as [|kv l IHl]; simpl; [reflexivity|exact IHl].
    + eapply Forall_impl; [exact IH|]. intros [key c] Hc. apply Hc.
Qed.

(** The enumeration [withChain] lists exactly the nodes reachable from
    [node], each with the conjunction of the flags along its chain. *)
Lemma withChain_Reach node :
  forall chain b m,
    In (b, m) (withChain chain node)
    <-> exists p, Reach node p m /\ b = chain && forallb isIncluded p.
Proof.
  induction node as [node IH] using PathTreeNode_ind. intros chain b m.
  rewrite List.Forall_forall in IH.
  rewrite withChain_unfold. cbn [In]. rewrite in_flat_map. split.
  - intros [[= <- <-]|([key c] & Hin & Hm)].
    + exists []. split; [constructor|]. now rewrite andb_true_r.
    + apply (IH _ Hin) in Hm as (p & Hp & ->). cbn [snd] in *.
      exists (c :: p). split; [econstructor; eassumption|].
      cbn [forallb]. now rewrite andb_assoc.
  - intros (p & Hp & ->). inversion Hp as [|? key c p' ? Hin Hc]; subst.
    + left. now rewrite andb_true_r.
    + right. exists (key, c). split; [exact Hin|].
      apply (IH _ Hin). exists p'. split; [exact Hc|].
      cbn [forallb snd]. now rewrite andb_assoc.
Qed.

Lemma in_chainIncludedUrls root u :
  In u (chainIncludedUrls root)
  <-> exists p m, Reach root p m /\ forallb isIncluded p = true /\ In u (urls m).
Proof.
  unfold chainIncludedUrls. rewrite in_flat_map. split.
  - intros ([b m] & Hin & Hu). cbn [fst snd] in Hu.
    destruct b; [|destruct Hu].
    apply withChain_Reach in Hin as (p & Hp & E). exists p, m.
    split; [exact Hp|]. split; [now rewrite E|exact Hu].
  - intros (p & m & Hp & Hall & Hu). exists (true, m). split; [|exact Hu].
    apply withChain_Reach. exists p. split; [exact Hp|]. now rewrite Hall.
Qed.

Lemma descend_isIncluded u rest :
  forall seen node, isIncluded (descend u seen rest node) = isIncluded node.
Proof. destruct rest; reflexivity. Qed.

Lemma firstPass_isIncluded P us : isIncluded (firstPass P us) = true.
Proof.
  unfold firstPass.
  assert (H : forall root, isIncluded (fold_left (addUrl P) us root) = isIncluded root).
  { induction us as [|u us IH]; intros root; simpl; [reflexivity|].
    rewrite IH. unfold addUrl.
    destruct (P _); [apply descend_isIncluded|reflexivity]. }
  now rewrite H.
Qed.

(** C7. On the root of a built tree [getAllUrlsFromNode] returns, in
    tree order, exactly the URLs attached to the nodes for which every
    node on the path from below the root down to the node itself is
    marked included: a URL is returned if and only if it is attached to
    a node reached through such a chain.  Called on a node that is not
    included it returns nothing, so the children of an excluded node
    contribute nothing. *)
Theorem getAllUrlsFromNode_chain
    (URL_pathname : string -> option string) (us : list SitemapUrl)
    (maxChildrenPerParent : Z) :
  let root := tree (buildPathTree URL_pathname us maxChildrenPerParent) in
  getAllUrlsFromNode root = chainIncludedUrls root
  /\ (forall u,
        In u (getAllUrlsFromNode root)
        <-> exists chain node,
              Reach root chain node
              /\ forallb isIncluded chain = true
              /\ In u (urls node))
  /\ (forall node, isIncluded node = false -> getAllUrlsFromNode node = []).
Proof.
  cbv zeta.
  set (root := tree (buildPathTree URL_pathname us maxChildrenPerParent)).
  assert (Hroot : isIncluded root = true).
  { subst root. rewrite tree_buildPathTree.
    pose proof (markFrom_fields maxChildrenPerParent
                  (isIncluded (firstPass URL_pathname us))
                  (firstPass URL_pathname us)
                  {| totalOriginalUrls := 0; totalLimitedUrls := 0 |} true) as F.
    cbv zeta in F. destruct F as (_ & _ & _ & E & _).
    now rewrite E, firstPass_isIncluded. }
  assert (E : getAllUrlsFromNode root = chainIncludedUrls root).
  { unfold chainIncludedUrls. rewrite pick_withChain.
    now rewrite getAllUrlsFromNode_unfold, Hroot. }
  split; [exact E|]. split.
  - intros u. rewrite E. apply in_chainIncludedUrls.
  - intros node Hn. now rewrite getAllUrlsFromNode_unfold, Hn.
Qed.

End PathTreeFacts.

(** ** The selection toggle *)

Module SelectionFacts.
Import Selection.

Lemma fold_delete (locs : list (option string)) :
  forall s : gset (option string),
    fold_left (fun s l => s ∖ {[ l ]}) locs s = s ∖ list_to_set locs.
Proof.
  induction locs as [|l locs IH]; intros s; simpl.
  - set_solver.
  - rewrite IH. set_solver.
Qed.

Lemma fold_add (locs : list (option string)) :
  forall s : gset (option string),
    fold_left (fun s l => {[ l ]} ∪ s) locs s = s ∪ list_to_set locs.
Proof.
  induction locs as [|l locs IH]; intros s; simpl.
  - set_solver.
  - rewrite IH. set_solver.
Qed.

Lemma every_selected (locs : list (option string)) (s : gset (option string)) :
  forallb (fun l => bool_decide (l ∈ s)) locs
  = bool_decide (list_to_set locs ⊆ s).
Proof.
  induction locs as [|l locs IH]; simpl.
  - symmetry. apply bool_decide_eq_true. set_solver.
  - rewrite IH. repeat case_bool_decide; simpl; try reflexivity; set_solver.
Qed.

(** C9. If every URL of the batch is selected, the toggle removes all
    of them from the selection; otherwise it adds all of them.  In
    particular, when two of three given URLs are selected and the
    third is not, the result is the selection with all three in it
    and nothing is deselected. *)
Theorem handleToggleSelect_all_or_nothing
    (selectedUrls : gset (option string)) (urlsToToggle : list SitemapUrl) :
  let batch : gset (option string) := list_to_set (map loc urlsToToggle) in
  handleToggleSelect selectedUrls urlsToToggle
  = (if bool_decide (batch ⊆ selectedUrls)
     then selectedUrls ∖ batch
     else selectedUrls ∪ batch)
  /\ (forall a b c,
        urlsToToggle = [a; b; c] ->
        loc a ∈ selectedUrls -> loc b ∈ selectedUrls -> loc c ∉ selectedUrls ->
        handleToggleSelect selectedUrls urlsToToggle
        = selectedUrls ∪ {[ loc a; loc b; loc c ]}
        /\ selectedUrls ⊆ handleToggleSelect selectedUrls urlsToToggle).
Proof.
  cbv zeta.
  assert (E : handleToggleSelect selectedUrls urlsToToggle
              = (if bool_decide (list_to_set (map loc urlsToToggle) ⊆ selectedUrls)
                 then selectedUrls ∖ list_to_set (map loc urlsToToggle)
                 else selectedUrls ∪ list_to_set (map loc urlsToToggle))).
  { unfold handleToggleSelect. cbv zeta. rewrite every_selected.
    case_bool_decide; [apply fold_delete|apply fold_add]. }
  split; [exact E|].
  intros a b c -> Ha Hb Hc. rewrite E. clear E.
  rewrite bool_decide_eq_false_2 by (simpl; set_solver).
  simpl. split; set_solver.
Qed.

Lemma handleToggleSelect_all_or_nothing_witness :
  handleToggleSelect {[ Some "/a"; Some "/b" ]}
                     [PathTree.Toy.entry "/a"; PathTree.Toy.entry "/b";
                      PathTree.Toy.entry "/c"]
  = {[ Some "/a"; Some "/b" ]} ∪ {[ Some "/a"; Some "/b"; Some "/c" ]}
  /\ ({[ Some "/a"; Some "/b" ]} : gset (option string))
     ⊆ handleToggleSelect {[ Some "/a"; Some "/b" ]}
                          [PathTree.Toy.entry "/a"; PathTree.Toy.entry "/b";
                           PathTree.Toy.entry "/c"].
Proof.
  apply (proj2 (handleToggleSelect_all_or_nothing
                  {[ Some "/a"; Some "/b" ]}
                  [PathTree.Toy.entry "/a"; PathTree.Toy.entry "/b";
                   PathTree.Toy.entry "/c"])
               (PathTree.Toy.entry "/a") (PathTree.Toy.entry "/b")
               (PathTree.Toy.entry "/c") eq_refl).
  - simpl. set_solver.
  - simpl. set_solver.
  - simpl. set_solver.
Defined.

End SelectionFacts.

(** ** The batch metadata endpoint *)

Module FetchMetaFacts.
Import Eff FetchMeta.

(** *** Batches *)

Lemma flat_map_after_map {A B C} (g : A -> B) (f : B -> list C) l :
  List.flat_map f (map g l) = List.flat_map (fun x => f (g x)) l.
Proof. induction l as [|x l IH]; simpl; [reflexivity|]. now rewrite IH. Qed.

Lemma chunks_cover {A} (m : nat) :
  forall l : list A,
    length l <= m * batchSize ->
    List.flat_map (fun j => firstn batchSize (skipn (j * batchSize) l)) (seq 0 m) = l.
Proof.
  induction m as [|m IH]; intros l Hl.
  - destruct l; [reflexivity|simpl in Hl; lia].
  - cbn [seq List.flat_map]. rewrite <- seq_shift, flat_map_after_map.
    rewrite Nat.mul_0_l. change (skipn 0 l) with l.
    transitivity (firstn batchSize l ++ skipn batchSize l);
      [|apply firstn_skipn].
    f_equal.
    etransitivity; [|apply (IH (skipn batchSize l))].
    + apply flat_map_ext. intros j. f_equal.
      rewrite skipn_skipn. f_equal. lia.
    + rewrite length_skipn. unfold batchSize in *. lia.
Qed.

Lemma batches_cover {A} (l : list A) :
  List.flat_map
    (fun i => Js.slice (Z.of_nat i) (Z.of_nat (i + batchSize)) l)
    (Js.for_indices 0 (length l) batchSize)
  = l.
Proof.
  unfold Js.for_indices. rewrite flat_map_after_map.
  etransitivity;
    [|apply (chunks_cover ((length l - 0 + (batchSize - 1)) / batchSize) l)].
  - apply flat_map_ext. intros j. rewrite JsFacts.slice_nat. f_equal. lia.
  - unfold batchSize.
    pose proof (Nat.div_mod_eq (length l - 0 + (5 - 1)) 5) as D.
    pose proof (Nat.mod_upper_bound (length l - 0 + (5 - 1)) 5) as U.
    lia.
Qed.

(** *** One URL *)

Section Route.

Variable pf : Platform.
Variable cheerio_load : string -> Document.
Variable URL_href : string -> string -> Outcome string.

Abbreviation fetchPageContent' := (fetchPageContent pf).
Abbreviation extractMetaTags' := (extractMetaTags cheerio_load URL_href).
Abbreviation attempt' := (attempt pf cheerio_load URL_href).
Abbreviation processUrl' := (processUrl pf cheerio_load URL_href).

(** Every call of [fetchPageContent] issues exactly one request. *)
Lemma fetchPageContent_log u log :
  snd (fetchPageContent' u log) = log ++ [u].
Proof.
  unfold fetchPageContent, bind, fetch_with_timeout, throw, lift.
  destruct (net pf (length log) u) as [t r|t e];
    destruct (timeout_ms <=? t)%nat; try reflexivity.
  destruct (negb (resp_ok r)); reflexivity.
Qed.

Lemma extractMetaTags_url html u r :
  extractMetaTags' html u = Returned r -> url r = u /\ status r = success.
Proof.
  unfold extractMetaTags. destruct (findFavicon _ _ _ _); [|discriminate].
  intros [= <-]. split; reflexivity.
Qed.

Lemma attempt_log u log : snd (attempt' u log) = log ++ [u].
Proof.
  unfold attempt, bind, lift.
  pose proof (fetchPageContent_log u log) as L.
  destruct (fetchPageContent' u log) as [[html|e] log']; simpl in *; congruence.
Qed.

Lemma attempt_url u log r log' :
  attempt' u log = (Returned r, log') -> url r = u /\ status r = success.
Proof.
  unfold attempt, bind, lift.
  destruct (fetchPageContent' u log) as [[html|e] log1]; [|discriminate].
  intros [= E _]. eapply extractMetaTags_url, E.
Qed.

(** [processUrl] never throws, issues one request and answers with a
    record for the URL it was given. *)
Lemma processUrl_returns u log :
  exists r, processUrl' u log = (Returned r, log ++ [u]) /\ url r = u.
Proof.
  unfold processUrl, try_catch.
  pose proof (attempt_log u log) as L.
  pose proof (attempt_url u log) as U.
  destruct (attempt' u log) as [[r|e] log']; simpl in L; subst log'.
  - exists r. split; [reflexivity|]. now apply (U r (log ++ [u])).
  - eexists. split; reflexivity.
Qed.

(** *** A batch, and the loop over the batches *)

Lemma allSettled_processUrl batch :
  forall log,
    exists rs,
      allSettled (map processUrl' batch) log
      = (Returned (map Returned rs), log ++ batch)
      /\ map url rs = batch.
Proof.
  induction batch as [|u batch IH]; intros log.
  - exists []. simpl. unfold ret. now rewrite app_nil_r.
  - cbn [map allSettled].
    destruct (processUrl_returns u log) as (r & E & Hu). rewrite E.
    destruct (IH (log ++ [u])) as (rs & Ers & Hrs).
    exists (r :: rs). unfold bind, ret. rewrite Ers. simpl.
    rewrite <- app_assoc. simpl. split; [reflexivity|]. congruence.
Qed.

Lemma firstThrown_Returned {A} (rs : list A) :
  firstThrown (map Returned rs) = Returned rs.
Proof. induction rs as [|r rs IH]; simpl; [reflexivity|]. now rewrite IH. Qed.

Lemma all_processUrl batch log :
  exists rs,
    all (map processUrl' batch) log = (Returned rs, log ++ batch)
    /\ map url rs = batch.
Proof.
  destruct (allSettled_processUrl batch log) as (rs & E & Hrs).
  exists rs. unfold all, bind, lift. rewrite E, firstThrown_Returned.
  split; [reflexivity|exact Hrs].
Qed.

Lemma runBatches_spec urlsToProcess starts :
  forall acc log,
    let batches :=
      List.flat_map
        (fun i => Js.slice (Z.of_nat i) (Z.of_nat (i + batchSize)) urlsToProcess)
        starts in
    exists rs,
      runBatches pf cheerio_load URL_href urlsToProcess starts acc log
      = (Returned (acc ++ rs), log ++ batches)
      /\ map url rs = batches.
Proof.
  induction starts as [|i starts IH]; intros acc log; cbv zeta.
  - exists []. simpl. unfold ret. now rewrite !app_nil_r.
  - cbn [runBatches List.flat_map]. cbv zeta.
    set (batch := Js.slice (Z.of_nat i) (Z.of_nat (i + batchSize)) urlsToProcess).
    destruct (all_processUrl batch log) as (rs1 & E1 & H1).
    unfold bind at 1. rewrite E1.
    destruct (IH (acc ++ rs1) (log ++ batch)) as (rs2 & E2 & H2).
    cbv zeta in E2, H2. rewrite E2.
    exists (rs1 ++ rs2). rewrite !app_assoc. split; [reflexivity|].
    rewrite map_app. congruence.
Qed.

(** C10. For a non-empty URL array the endpoint answers 200; the
    results are in input order, one per URL of the first 50:
    [results[i].url] is the [i]-th requested URL; [results.length],
    [processedCount] and [min(urls.length, 50)] coincide; and
    [errorCount] is the number of results whose status is "error".
    Each processed URL was requested once, in order. *)
Theorem POST_preserves_order (urls : list string) (log : Log) :
  urls <> [] ->
  exists response,
    POST pf cheerio_load URL_href (Body (Some urls)) log
    = (Returned (Json200 response), log ++ firstn 50 urls)
    /\ map url (results response) = firstn 50 urls
    /\ length (results response) = processedCount response
    /\ processedCount response = Nat.min (length urls) 50
    /\ errorCount response
       = length (List.filter (fun r => match status r with
                                       | error => true
                                       | success => false
                                       end) (results response)).
Proof.
  intros Hne. destruct urls as [|u0 urls0]; [congruence|].
  set (urls := u0 :: urls0) in *.
  change (POST pf cheerio_load URL_href (Body (Some urls)))
    with (try_catch (respond pf cheerio_load URL_href urls)
                    (fun e => ret (failure e))).
  unfold try_catch, respond. cbv zeta.
  destruct (runBatches_spec (Js.slice 0 50 urls)
              (Js.for_indices 0 (length (Js.slice 0 50 urls)) batchSize)
              [] log) as (rs & E & Hrs).
  cbv zeta in E, Hrs. rewrite batches_cover in E, Hrs.
  rewrite JsFacts.slice_prefix in E, Hrs by lia.
  unfold bind at 1. rewrite JsFacts.slice_prefix by lia. rewrite E. simpl app.
  unfold ret. eexists. split; [reflexivity|]. cbn [results processedCount errorCount].
  split; [exact Hrs|]. split; [reflexivity|]. split; [|reflexivity].
  rewrite <- (length_map url), Hrs, length_firstn. apply Nat.min_comm.
Qed.

(** *** Failures of one page *)

(** A request unanswered after 10 seconds is aborted: the [try]
    block throws what the aborted [fetch] rejects with. *)
Lemma attempt_timeout u log :
  (match net pf (length log) u with
   | Responds t _ | Fails t _ => 10000 <= Z.of_nat t
   end)%Z ->
  attempt' u log = (Threw (abortReason pf), log ++ [u]).
Proof.
  unfold attempt, fetchPageContent, fetch_with_timeout, bind, timeout_ms.
  destruct (net pf (length log) u) as [t r|t e]; intros Ht;
    (replace (Z.to_nat 10000 <=? t)%nat with true
       by (symmetry; apply Nat.leb_le; lia)); reflexivity.
Qed.

(** A response in time with a status outside 200..299: the [try]
    block throws the [Error] made from status and status text. *)
Lemma attempt_bad_status u log t r :
  net pf (length log) u = Responds t r ->
  (Z.of_nat t < 10000)%Z ->
  resp_ok r = false ->
  attempt' u log
  = (Threw (ErrorObject ("HTTP " +:+ Js.of_nat (resp_status r) +:+ ": "
                         +:+ resp_statusText r)),
     log ++ [u]).
Proof.
  intros E Ht Hok.
  unfold attempt, fetchPageContent, fetch_with_timeout, bind, timeout_ms, throw.
  rewrite E.
  replace (Z.to_nat 10000 <=? t)%nat with false
    by (symmetry; apply Nat.leb_gt; lia).
  now rewrite Hok.
Qed.

(** The extraction throws only what the [URL] constructor threw. *)
Lemma findFavicon_thrown doc u selectors e :
  findFavicon URL_href doc u selectors = Threw e ->
  exists rel, URL_href rel u = Threw e.
Proof.
  induction selectors as [|selector rest IH]; simpl; [discriminate|].
  destruct (attrOf doc selector "href") as [href|]; [|exact IH].
  destruct (Js.truthy href); [|exact IH].
  destruct (String.prefix "http" href); [discriminate|]. eauto.
Qed.

Lemma extractMetaTags_thrown html u e :
  extractMetaTags' html u = Threw e -> exists rel, URL_href rel u = Threw e.
Proof.
  unfold extractMetaTags.
  destruct (findFavicon _ _ _ _) as [found|e'] eqn:E; [discriminate|].
  intros [= <-]. eapply findFavicon_thrown, E.
Qed.

(** Whatever the [try] block throws carries a message, provided the
    platform's own errors do: the one [Error] the code makes itself
    starts with [HTTP]. *)
Lemma attempt_thrown u log log' e :
  describesErrors pf URL_href ->
  attempt' u log = (Threw e, log') ->
  e <> ErrorObject "".
Proof.
  intros (Habort & Hnet & Hurl).
  unfold attempt, fetchPageContent, fetch_with_timeout, bind, throw, lift.
  specialize (Hnet (length log) u).
  destruct (net pf (length log) u) as [t r|t e0];
    destruct (timeout_ms <=? t)%nat; try (intros [= <- _]; assumption).
  destruct (negb (resp_ok r)); [intros [= <- _]; discriminate|].
  destruct (resp_text r) as [html|e1] eqn:Etext.
  - destruct (extractMetaTags' html u) as [r'|e2] eqn:Eextract; [discriminate|].
    intros [= <- _]. apply extractMetaTags_thrown in Eextract as [rel Hrel].
    intros ->. exact (Hurl rel u Hrel).
  - intros [= <- _]. intros ->. now apply Hnet.
Qed.

(** Each cause makes the [try] block throw the value named with it. *)
Lemma pageFails_attempt u log e :
  pageFails pf cheerio_load URL_href (length log) u e ->
  attempt' u log = (Threw e, log ++ [u]).
Proof.
  intros Hcause.
  destruct Hcause as [Ht|t e' Hnet Ht|t r Hnet Ht Hok|t r e' Hnet Ht Hok Htext
                     |t r html e' Hnet Ht Hok Htext Hextract].
  - now apply attempt_timeout.
  - unfold attempt, fetchPageContent, fetch_with_timeout, bind, timeout_ms.
    rewrite Hnet.
    replace (Z.to_nat 10000 <=? t)%nat with false
      by (symmetry; apply Nat.leb_gt; lia).
    reflexivity.
  - now apply (attempt_bad_status u log t r).
  - unfold attempt, fetchPageContent, fetch_with_timeout, bind, timeout_ms, lift.
    rewrite Hnet.
    replace (Z.to_nat 10000 <=? t)%nat with false
      by (symmetry; apply Nat.leb_gt; lia).
    now rewrite Hok, Htext.
  - unfold attempt, fetchPageContent, fetch_with_timeout, bind, timeout_ms, lift.
    rewrite Hnet.
    replace (Z.to_nat 10000 <=? t)%nat with false
      by (symmetry; apply Nat.leb_gt; lia).
    rewrite Hok, Htext. cbn [negb]. now rewrite Hextract.
Qed.

(** The causes are all there are: whatever the [try] block throws is
    thrown for one of them. *)
Lemma attempt_pageFails u log log' e :
  attempt' u log = (Threw e, log') ->
  pageFails pf cheerio_load URL_href (length log) u e.
Proof.
  unfold attempt, fetchPageContent, fetch_with_timeout, bind, timeout_ms,
    throw, lift.
  destruct (net pf (length log) u) as [t r|t e0] eqn:Hnet;
    destruct (Nat.leb_spec (Z.to_nat 10000) t) as [Ht|Ht].
  - intros [= <- _]. apply timesOut. rewrite Hnet. lia.
  - destruct (resp_ok r) eqn:Hok; cbn [negb].
    + destruct (resp_text r) as [html|e1] eqn:Htext.
      * destruct (extractMetaTags' html u) as [r'|e2] eqn:Hextract;
          [discriminate|].
        intros [= <- _]. eapply extractionFails; eauto; lia.
      * intros [= <- _]. eapply bodyFails; eauto; lia.
    + intros [= <- _]. eapply statusNotOk; eauto; lia.
  - intros [= <- _]. apply timesOut. rewrite Hnet. lia.
  - intros [= <- _]. eapply requestFails; eauto; lia.
Qed.

(** C8. Whenever the page of a URL is not obtained, because the request
    is still open after 10 seconds, because it is answered with a
    status outside 200-299, or because the request, the reading of the
    body or the extraction fails, [processUrl] returns, after that one
    request, a record for the URL with status "error", every metadata
    field empty and a non-empty [error].  The [error] is the message
    of what was thrown: that of the abort for a timeout, [HTTP <status>:
    <statusText>] for a status, "Unknown error" for a thrown value that
    is no [Error].  The platform is taken to raise no [Error] with an
    empty message. *)
Theorem processUrl_failure (u : string) (log : Log) (e : Thrown) :
  describesErrors pf URL_href ->
  pageFails pf cheerio_load URL_href (length log) u e ->
  exists r msg,
    processUrl' u log = (Returned r, log ++ [u])
    /\ status r = error
    /\ error_message r = Some msg /\ msg <> ""
    /\ msg = messageOr "Unknown error" e
    /\ url r = u
    /\ title r = "" /\ description r = "" /\ canonical r = ""
    /\ ogTitle r = "" /\ ogDescription r = "" /\ ogImage r = ""
    /\ ogUrl r = "" /\ ogType r = "" /\ ogSiteName r = ""
    /\ twitterCard r = "" /\ twitterTitle r = ""
    /\ twitterDescription r = "" /\ twitterImage r = ""
    /\ twitterSite r = "" /\ favicon r = ""
    /\ allMetaTags r = [].
Proof.
  intros Hpf Hcause.
  pose proof (pageFails_attempt u log e Hcause) as Hfail.
  pose proof (attempt_thrown u log (log ++ [u]) e Hpf Hfail) as Hmsg.
  exists (errorRecord u (messageOr "Unknown error" e)),
         (messageOr "Unknown error" e).
  split.
  { unfold processUrl, try_catch. now rewrite Hfail. }
  split; [reflexivity|]. split; [reflexivity|]. split.
  { destruct e as [m|]; simpl; [congruence|discriminate]. }
  repeat split.
Qed.

End Route.

Lemma Sample_describesErrors : describesErrors Sample.pf Sample.URL_href.
Proof.
  split; [discriminate|]. split; [|discriminate].
  intros k u. unfold Sample.pf, Sample.page. cbn [net].
  repeat match goal with
         | |- context [if ?b then _ else _] => destruct b
         end; discriminate.
Qed.

(** The page that answers after 15 seconds: the request is aborted at
    10, and the record carries the message of the abort. *)
Lemma processUrl_failure_witness :
  exists r msg,
    Sample.processUrl "https://example.com/slow" []
    = (Returned r, [] ++ ["https://example.com/slow"])
    /\ status r = error
    /\ error_message r = Some msg /\ msg <> ""
    /\ msg = messageOr "Unknown error" (ErrorObject "This operation was aborted")
    /\ url r = "https://example.com/slow"
    /\ title r = "" /\ description r = "" /\ canonical r = ""
    /\ ogTitle r = "" /\ ogDescription r = "" /\ ogImage r = ""
    /\ ogUrl r = "" /\ ogType r = "" /\ ogSiteName r = ""
    /\ twitterCard r = "" /\ twitterTitle r = ""
    /\ twitterDescription r = "" /\ twitterImage r = ""
    /\ twitterSite r = "" /\ favicon r = ""
    /\ allMetaTags r = [].
Proof.
  apply (processUrl_failure Sample.pf Sample.cheerio_load Sample.URL_href
           "https://example.com/slow" []
           (ErrorObject "This operation was aborted")).
  - exact Sample_describesErrors.
  - apply (timesOut Sample.pf Sample.cheerio_load Sample.URL_href 0
             "https://example.com/slow").
    vm_compute. discriminate.
Defined.

(** The page that is missing: the record carries the status. *)
Example missing_page_is_an_error :
  Sample.processUrl "https://example.com/missing" []
  = (Returned (errorRecord "https://example.com/missing" "HTTP 404: Not Found"),
     ["https://example.com/missing"]).
Proof. vm_compute. reflexivity. Qed.

(** The page that answers after 15 seconds is cut off at 10. *)
Example slow_page_is_aborted :
  Sample.processUrl "https://example.com/slow" []
  = (Returned (errorRecord "https://example.com/slow" "This operation was aborted"),
     ["https://example.com/slow"]).
Proof. vm_compute. reflexivity. Qed.

Lemma POST_preserves_order_witness :
  exists response,
    Sample.POST (Body (Some ["https://example.com/missing"; "https://example.com/"])) []
    = (Returned (Json200 response),
       [] ++ firstn 50 ["https://example.com/missing"; "https://example.com/"])
    /\ map url (results response)
       = firstn 50 ["https://example.com/missing"; "https://example.com/"]
    /\ length (results response) = processedCount response
    /\ processedCount response
       = Nat.min (length ["https://example.com/missing"; "https://example.com/"]) 50
    /\ errorCount response
       = length (List.filter (fun r => match status r with
                                       | error => true
                                       | success => false
                                       end) (results response)).
Proof.
  apply (POST_preserves_order Sample.pf Sample.cheerio_load Sample.URL_href
           ["https://example.com/missing"; "https://example.com/"] []).
  discriminate.
Defined.

End FetchMetaFacts.

(** ** The sitemap resolver *)

Module ParseSitemapFacts.
Import Eff ParseSitemap.

(** *** The entries of a parsed document *)



(** *** The index test *)

Lemma onLoc_true m f u :
  onLoc m f u = Returned true <-> exists s, loc u = Some s /\ f s = true.
Proof.
  unfold onLoc. destruct (loc u) as [s|]; split.
  - intros [= E]. eauto.
  - intros (s' & [= <-] & E). now rewrite E.
  - discriminate.
  - intros (s' & [=] & _).
Qed.

Lemma looksLikeSitemap_true u :
  looksLikeSitemap u = Returned true
  <-> exists s, loc u = Some s
                /\ (Js.endsWith ".xml" s = true \/ Js.includes "sitemap" s = true).
Proof.
  unfold looksLikeSitemap, onLoc. destruct (loc u) as [s|].
  - destruct (Js.endsWith ".xml" s) eqn:E1.
    + split; [intros _; eauto|reflexivity].
    + split.
      * intros [= E2]. eauto.
      * intros (s' & [= <-] & [H|H]); congruence.
  - split; [discriminate|]. intros (s' & [=] & _).
Qed.

Lemma every_true {A} (p : A -> Outcome bool) l :
  every p l = Returned true <-> forall x, In x l -> p x = Returned true.
Proof.
  induction l as [|x l IH]; simpl.
  - split; [intros _ y []|reflexivity].
  - destruct (p x) as [[|]|e] eqn:E.
    + rewrite IH. split.
      * intros H y [<-|Hy]; [exact E|now apply H].
      * intros H y Hy. apply H. now right.
    + split; [discriminate|]. intros H. specialize (H x (or_introl eq_refl)).
      congruence.
    + split; [discriminate|]. intros H. specialize (H x (or_introl eq_refl)).
      congruence.
Qed.

Lemma isIndex_true us :
  isIndex us = Returned true
  <-> firstLocNamesSitemap us /\ everyLocLooksLikeSitemap us.
Proof.
  unfold firstLocNamesSitemap, everyLocLooksLikeSitemap.
  destruct us as [|first rest].
  - simpl. split; [discriminate|]. intros [(f & r & s & [=] & _) _].
  - cbn [isIndex].
    destruct (onLoc "includes" (Js.includes "sitemap") first) as [[|]|e] eqn:E.
    + rewrite every_true. apply onLoc_true in E as (s & Hs & Hinc).
      split.
      * intros H. split; [exists first, rest, s; auto|].
        intros u Hu. apply looksLikeSitemap_true, H, Hu.
      * intros [_ H] u Hu. apply looksLikeSitemap_true, H, Hu.
    + split; [discriminate|].
      intros [(f & r & s & [= <- <-] & Hs & Hinc) _].
      assert (onLoc "includes" (Js.includes "sitemap") first = Returned true)
        by (apply onLoc_true; eauto).
      congruence.
    + split; [discriminate|].
      intros [(f & r & s & [= <- <-] & Hs & Hinc) _].
      assert (onLoc "includes" (Js.includes "sitemap") first = Returned true)
        by (apply onLoc_true; eauto).
      congruence.
Qed.

(** *** Requests and outcomes of a resolution *)

Section Route.

Variable pf : Platform.
Variable parser_parse : string -> Outcome ParsedXml.
Variable URL_valid : string -> bool.

Abbreviation fetchSitemap' := (fetchSitemap pf).
Abbreviation nestedJob' := (nestedJob pf parser_parse).
Abbreviation resolve' := (resolve pf parser_parse).
Abbreviation POST' := (POST pf parser_parse URL_valid).

Lemma fetchSitemap_log u log : snd (fetchSitemap' u log) = log ++ [u].
Proof.
  unfold fetchSitemap, bind, fetch, throw, lift.
  destruct (net pf (length log) u) as [t r|t e]; [|reflexivity].
  destruct (negb (resp_ok r)); reflexivity.
Qed.

(** A nested job issues one request, whether it then succeeds or not. *)
Lemma nestedJob_log sitemap log :
  snd (nestedJob' sitemap log) = log ++ [target sitemap].
Proof.
  unfold nestedJob, bind, parseSitemapXml, lift, ret.
  pose proof (fetchSitemap_log (Js.to_string (loc sitemap)) log) as L.
  destruct (fetchSitemap' _ log) as [[xml|e] log1]; simpl in *;
    [|exact L].
  destruct (parser_parse xml); exact L.
Qed.

(** [Promise.allSettled] over the nested jobs never rejects: there is
    one outcome per job, and one request per job, in order. *)
Lemma allSettled_nested sitemaps :
  forall log,
    exists outcomes,
      allSettled (map nestedJob' sitemaps) log
      = (Returned outcomes, log ++ map target sitemaps)
      /\ length outcomes = length sitemaps.
Proof.
  induction sitemaps as [|sitemap sitemaps IH]; intros log.
  - exists []. simpl. unfold ret. now rewrite app_nil_r.
  - cbn [map allSettled].
    pose proof (nestedJob_log sitemap log) as L.
    destruct (nestedJob' sitemap log) as [o log1]. simpl in L. subst log1.
    destruct (IH (log ++ [target sitemap])) as (os & E & Hlen).
    exists (o :: os). unfold bind, ret. rewrite E. simpl.
    rewrite <- app_assoc. simpl. split; [reflexivity|]. now rewrite Hlen.
Qed.

Lemma collect_contributions results :
  forall acc,
    fold_left
      (fun allUrls (result : Outcome (list SitemapUrl)) =>
         match result with
         | Returned value => allUrls ++ value
         | Threw _ => allUrls
         end)
      results acc
    = acc ++ concat (map contribution results).
Proof.
  induction results as [|[value|e] results IH]; intros acc; simpl.
  - now rewrite app_nil_r.
  - now rewrite IH, app_assoc.
  - apply IH.
Qed.

Lemma fetchNestedSitemaps_spec sitemapUrls log :
  let sitemapsToFetch := Js.slice 0 10 sitemapUrls in
  exists outcomes,
    allSettled (map nestedJob' sitemapsToFetch) log
    = (Returned outcomes, log ++ map target sitemapsToFetch)
    /\ length outcomes = length sitemapsToFetch
    /\ fetchNestedSitemaps pf parser_parse sitemapUrls log
       = (Returned (concat (map contribution outcomes)),
          log ++ map target sitemapsToFetch).
Proof.
  cbv zeta.
  destruct (allSettled_nested (Js.slice 0 10 sitemapUrls) log) as (os & E & Hlen).
  exists os. split; [exact E|]. split; [exact Hlen|].
  unfold fetchNestedSitemaps, bind, ret. cbv zeta. rewrite E.
  now rewrite collect_contributions.
Qed.

(** What [POST] does once the top-level sitemap is fetched and
    parsed, by the outcome of the index test. *)
Lemma POST_after_parse u log xml log1 parsed :
  Js.truthy u = true ->
  URL_valid u = true ->
  fetchSitemap' u log = (Returned xml, log1) ->
  parser_parse xml = Returned parsed ->
  let outer := parseParsed parsed in
  POST' (Body (Some u)) log
  = match isIndex outer with
    | Returned true =>
        match fetchNestedSitemaps pf parser_parse outer log1 with
        | (Returned nestedUrls, log2) =>
            let us := if (0 <? length nestedUrls)%nat then nestedUrls else outer in
            (Returned (Json200 us (length us)), log2)
        | (Threw e, log2) =>
            (Returned (Json500 (messageOr "Failed to parse sitemap" e) [] 0), log2)
        end
    | Returned false => (Returned (Json200 outer (length outer)), log1)
    | Threw e =>
        (Returned (Json500 (messageOr "Failed to parse sitemap" e) [] 0), log1)
    end.
Proof.
  intros Hu Hv Hfetch Hparse. cbv zeta.
  unfold POST. cbn [Js.is_truthy Js.to_string]. rewrite Hu, Hv. cbn [negb].
  unfold try_catch, resolve, bind at 1. rewrite Hfetch.
  unfold bind at 1, parseSitemapXml, bind at 1, lift at 1. rewrite Hparse.
  unfold ret at 1. unfold bind at 1, lift.
  destruct (isIndex (parseParsed parsed)) as [[|]|e]; try reflexivity.
  unfold bind at 1, bind at 1.
  destruct (fetchNestedSitemaps pf parser_parse (parseParsed parsed) log1)
    as [[nested|e] log2]; reflexivity.
Qed.

Lemma slice_nonempty {A} (l : list A) : l <> [] -> Js.slice 0 10 l <> [].
Proof.
  intros Hl. rewrite JsFacts.slice_prefix by lia.
  destruct l; [congruence|discriminate].
Qed.

(** C5 (amended). Once the top-level sitemap is fetched and parsed
    into an entry list (empty or not), [POST] answers, and it issues
    requests for nested sitemaps exactly when the first entry's
    [loc] contains [sitemap] and every entry's [loc] ends in [.xml]
    or contains [sitemap]. *)
Theorem POST_nested_iff_first_and_every u log xml log1 parsed :
  Js.truthy u = true ->
  URL_valid u = true ->
  fetchSitemap' u log = (Returned xml, log1) ->
  parser_parse xml = Returned parsed ->
  let outer := parseParsed parsed in
  exists response nestedRequests,
    POST' (Body (Some u)) log = (Returned response, log1 ++ nestedRequests)
    /\ (nestedRequests <> []
        <-> firstLocNamesSitemap outer /\ everyLocLooksLikeSitemap outer).
Proof.
  intros Hu Hv Hfetch Hparse. cbv zeta.
  rewrite (POST_after_parse u log xml log1 parsed Hu Hv Hfetch Hparse).
  cbv zeta. setoid_rewrite <- isIndex_true.
  destruct (isIndex (parseParsed parsed)) as [[|]|e] eqn:Hindex.
  - assert (Hne : parseParsed parsed <> []).
    { intros Hnil. rewrite Hnil in Hindex. discriminate. }
    destruct (fetchNestedSitemaps_spec (parseParsed parsed) log1)
      as (os & _ & _ & E).
    cbv zeta in E. rewrite E. eexists _, _. split; [reflexivity|].
    split; [reflexivity|]. intros _ Hnil.
    apply map_eq_nil in Hnil. now apply slice_nonempty in Hnil.
  - exists (Json200 (parseParsed parsed) (length (parseParsed parsed))), [].
    rewrite app_nil_r. split; [reflexivity|]. split; [congruence|discriminate].
  - eexists _, []. rewrite app_nil_r. split; [reflexivity|].
    split; [congruence|discriminate].
Qed.

(** *** The top-level sitemap, from the platform *)

Lemma fetchSitemap_ok u log t r xml :
  net pf (length log) u = Responds t r ->
  resp_ok r = true ->
  resp_text r = Returned xml ->
  fetchSitemap' u log = (Returned xml, log ++ [u]).
Proof.
  intros Hnet Hok Htext. unfold fetchSitemap, bind, fetch, lift.
  now rewrite Hnet, Hok, Htext.
Qed.


(** *** The nested sitemaps, from the platform *)

(** A nested job settles with what the platform and the parser give
    for its request. *)
Lemma nestedJob_contribution sitemap log :
  exists o,
    nestedJob' sitemap log = (o, log ++ [target sitemap])
    /\ contribution o = nestedEntries pf parser_parse (length log) sitemap.
Proof.
  unfold nestedJob, nestedEntries, target, bind, fetchSitemap, bind, fetch,
    throw, lift, parseSitemapXml, bind, lift, ret.
  destruct (net pf (length log) (Js.to_string (loc sitemap))) as [t r|t e];
    [|eexists; split; reflexivity].
  destruct (resp_ok r); cbn [negb]; [|eexists; split; reflexivity].
  destruct (resp_text r) as [xml|e]; [|eexists; split; reflexivity].
  destruct (parser_parse xml) as [parsed|e]; eexists; split; reflexivity.
Qed.

Lemma allSettled_nestedEntries sitemaps :
  forall log,
    exists outcomes,
      allSettled (map nestedJob' sitemaps) log
      = (Returned outcomes, log ++ map target sitemaps)
      /\ concat (map contribution outcomes)
         = nestedEntriesFrom pf parser_parse (length log) sitemaps.
Proof.
  induction sitemaps as [|sitemap sitemaps IH]; intros log.
  - exists []. simpl. unfold ret. now rewrite app_nil_r.
  - cbn [map allSettled nestedEntriesFrom].
    destruct (nestedJob_contribution sitemap log) as (o & E & Ho).
    rewrite E.
    destruct (IH (log ++ [target sitemap])) as (os & E' & Hos).
    exists (o :: os). unfold bind, ret. rewrite E'. simpl.
    rewrite <- app_assoc. simpl. split; [reflexivity|].
    rewrite Ho, Hos, length_app. simpl. now rewrite Nat.add_1_r.
Qed.

Lemma fetchNestedSitemaps_entries sitemapUrls log :
  fetchNestedSitemaps pf parser_parse sitemapUrls log
  = (Returned (nestedEntriesFrom pf parser_parse (length log)
                                 (firstn 10 sitemapUrls)),
     log ++ map target (firstn 10 sitemapUrls)).
Proof.
  unfold fetchNestedSitemaps, bind, ret. cbv zeta.
  rewrite JsFacts.slice_prefix by lia. change (Z.to_nat 10) with 10.
  destruct (allSettled_nestedEntries (firstn 10 sitemapUrls) log)
    as (os & E & Hos).
  rewrite E, collect_contributions. simpl. now rewrite Hos.
Qed.

(** C6. When the sitemap is fetched and parsed and its entries pass
    the index test, the first 10 entries, and no more, are asked for,
    in order, after the sitemap itself.  Each of these requests adds
    the entries of the document it is answered with, and nothing when
    it fails, is answered with a status outside 200-299, cannot be
    read or cannot be parsed; no such failure stops the others.  The
    answer is 200 with these entries concatenated in order, or with
    the outer list when there is none. *)
Theorem POST_resolves_index u log t r xml parsed :
  Js.truthy u = true ->
  URL_valid u = true ->
  net pf (length log) u = Responds t r ->
  resp_ok r = true ->
  resp_text r = Returned xml ->
  parser_parse xml = Returned parsed ->
  firstLocNamesSitemap (parseParsed parsed) ->
  everyLocLooksLikeSitemap (parseParsed parsed) ->
  let outer := parseParsed parsed in
  let sitemapsToFetch := firstn 10 outer in
  let nestedUrls :=
    nestedEntriesFrom pf parser_parse (length log + 1) sitemapsToFetch in
  let us := match nestedUrls with [] => outer | _ :: _ => nestedUrls end in
  length sitemapsToFetch <= 10
  /\ POST' (Body (Some u)) log
     = (Returned (Json200 us (length us)),
        log ++ u :: map target sitemapsToFetch).
Proof.
  intros Hu Hv Hnet Hok Htext Hparse Hfirst Hevery. cbv zeta.
  split; [rewrite length_firstn; apply (Nat.le_min_l 10)|].
  rewrite (POST_after_parse u log xml (log ++ [u]) parsed Hu Hv
             (fetchSitemap_ok u log t r xml Hnet Hok Htext) Hparse).
  cbv zeta. rewrite (proj2 (isIndex_true _) (conj Hfirst Hevery)).
  rewrite fetchNestedSitemaps_entries, length_app. cbn [length].
  rewrite <- app_assoc. cbn [app].
  destruct (nestedEntriesFrom pf parser_parse (length log + 1)
              (firstn 10 (parseParsed parsed))); reflexivity.
Qed.

End Route.

(** C5 as stated fails: every [loc] of the list ends in [.xml], yet no
    nested sitemap is requested and the list is returned as it is. *)
Lemma every_loc_xml_but_not_resolved :
  everyLocLooksLikeSitemap [Sample.plain (Some "https://example.com/archive.xml")]
  /\ Sample.POST (Body (Some "https://example.com/all.xml")) []
     = (Returned (Json200 [Sample.plain (Some "https://example.com/archive.xml")] 1),
        ["https://example.com/all.xml"]).
Proof.
  split; [|vm_compute; reflexivity].
  intros u [<-|[]]. eexists. split; [reflexivity|]. left. vm_compute. reflexivity.
Qed.

Lemma POST_nested_iff_first_and_every_witness :
  let outer := parseParsed
                 {| urlset_url := Absent;
                    sitemapindex_sitemap :=
                      Many [Sample.entry (Some "https://example.com/sitemap-1.xml");
                            Sample.entry (Some "https://example.com/sitemap-2.xml")] |} in
  exists response nestedRequests,
    Sample.POST (Body (Some "https://example.com/sitemap.xml")) []
    = (Returned response, ["https://example.com/sitemap.xml"] ++ nestedRequests)
    /\ (nestedRequests <> []
        <-> firstLocNamesSitemap outer /\ everyLocLooksLikeSitemap outer).
Proof.
  apply (POST_nested_iff_first_and_every Sample.pf Sample.parser_parse
           Sample.URL_valid "https://example.com/sitemap.xml" [] "index").
  - reflexivity.
  - reflexivity.
  - vm_compute. reflexivity.
  - vm_compute. reflexivity.
Defined.

Lemma Sample_index_entries :
  firstLocNamesSitemap
    [Sample.plain (Some "https://example.com/sitemap-1.xml");
     Sample.plain (Some "https://example.com/sitemap-2.xml")]
  /\ everyLocLooksLikeSitemap
       [Sample.plain (Some "https://example.com/sitemap-1.xml");
        Sample.plain (Some "https://example.com/sitemap-2.xml")].
Proof.
  split.
  - eexists _, _, _. split; [reflexivity|]. split; [reflexivity|].
    vm_compute. reflexivity.
  - intros u [<-|[<-|[]]]; eexists; (split; [reflexivity|]);
      left; vm_compute; reflexivity.
Qed.

(** The scenario of the specification: an index with two nested
    references, one of which fails to fetch; the answer holds the
    entries of the other one and is not an error. *)
Lemma POST_resolves_index_witness :
  let outer := [Sample.plain (Some "https://example.com/sitemap-1.xml");
                Sample.plain (Some "https://example.com/sitemap-2.xml")] in
  let sitemapsToFetch := firstn 10 outer in
  let nestedUrls :=
    nestedEntriesFrom Sample.pf Sample.parser_parse 1 sitemapsToFetch in
  let us := match nestedUrls with [] => outer | _ :: _ => nestedUrls end in
  nestedUrls = [Sample.plain (Some "https://example.com/a");
                Sample.plain (Some "https://example.com/b")]
  /\ length sitemapsToFetch <= 10
  /\ Sample.POST (Body (Some "https://example.com/sitemap.xml")) []
     = (Returned (Json200 us (length us)),
        [] ++ "https://example.com/sitemap.xml" :: map target sitemapsToFetch).
Proof.
  split; [vm_compute; reflexivity|].
  apply (POST_resolves_index Sample.pf Sample.parser_parse Sample.URL_valid
           "https://example.com/sitemap.xml" [] 20
           {| resp_status := 200; resp_statusText := "OK";
              resp_text := Returned "index" |}
           "index"
           {| urlset_url := Absent;
              sitemapindex_sitemap :=
                Many [Sample.entry (Some "https://example.com/sitemap-1.xml");
                      Sample.entry (Some "https://example.com/sitemap-2.xml")] |}).
  - reflexivity.
  - reflexivity.
  - reflexivity.
  - reflexivity.
  - reflexivity.
  - reflexivity.
  - exact (proj1 Sample_index_entries).
  - exact (proj2 Sample_index_entries).
Defined.


(** A sitemap whose first entry has no [loc] is answered with 500. *)
Example POST_first_entry_without_loc :
  ParseSitemap.POST
    {| net := fun _ _ => Sample.ok "pages"; abortReason := OtherValue |}
    (fun _ => Returned {| urlset_url :=
                            Many [Sample.entry None;
                                  Sample.entry (Some "https://example.com/a")];
                          sitemapindex_sitemap := Absent |})
    Sample.URL_valid (Body (Some "https://example.com/pages.xml")) []
  = (Returned
       (Json500 "Cannot read properties of undefined (reading 'includes')" [] 0),
     ["https://example.com/pages.xml"]).
Proof. vm_compute. reflexivity. Qed.

Example one_nested_sitemap_fails :
  Sample.POST (Body (Some "https://example.com/sitemap.xml")) []
  = (Returned (Json200 [Sample.plain (Some "https://example.com/a");
                        Sample.plain (Some "https://example.com/b")] 2),
     ["https://example.com/sitemap.xml"; "https://example.com/sitemap-1.xml";
      "https://example.com/sitemap-2.xml"]).
Proof. vm_compute. reflexivity. Qed.

(** No nested sitemap resolves: the outer list is returned. *)
Example no_nested_sitemap_resolves :
  Sample.POST (Body (Some "https://example.com/sitemap-old.xml")) []
  = (Returned (Json200 [Sample.plain (Some "https://example.com/sitemap-gone.xml")] 1),
     ["https://example.com/sitemap-old.xml"; "https://example.com/sitemap-gone.xml"]).
Proof. vm_compute. reflexivity. Qed.

(** A first entry without [loc] makes the index test throw: the answer
    is the 500 of the [catch]. *)
Example first_entry_without_loc :
  isIndex [Sample.plain None; Sample.plain (Some "https://example.com/a")]
  = Threw (ErrorObject "Cannot read properties of undefined (reading 'includes')").
Proof. reflexivity. Qed.

End ParseSitemapFacts.

(** ** More on the path tree: statistics, counts and inclusion *)

Module PathTreeStats.
Import PathTree PathTreeShape PathTreeFacts.

(** *** The statistics threaded through the second pass *)

Lemma forEachChild_sum (m : TreeStats -> nat) (g : PathTreeNode -> nat) body cs st :
  (forall k c s, In (k, c) cs -> m (snd (body k c s)) = m s + g (fst (body k c s))) ->
  m (snd (forEachChild body cs st))
  = m st + sum_list (map (fun kv => g (snd kv)) (fst (forEachChild body cs st))).
Proof.
  revert st. induction cs as [|[k c] cs IH]; intros st H; simpl; [lia|].
  pose proof (H k c st (or_introl eq_refl)) as Hk.
  destruct (body k c st) as [c' st1]. simpl in Hk.
  specialize (IH st1 (fun k0 c0 s0 Hin => H k0 c0 s0 (or_intror Hin))).
  destruct (forEachChild body cs st1) as [rest' st2]. simpl in *. lia.
Qed.

Lemma stats_buildPathTree P us k :
  stats (buildPathTree P us k)
  = snd (markFrom k (isIncluded (firstPass P us)) (firstPass P us)
                  {| totalOriginalUrls := 0; totalLimitedUrls := 0 |} true).
Proof.
  unfold buildPathTree, markIncludedChildren.
  destruct (markFrom _ _ _ _ _); reflexivity.
Qed.

Lemma markFrom_stats_original k node :
  forall self st pi,
    totalOriginalUrls (snd (markFrom k self node st pi))
    = totalOriginalUrls st + totalUrlCount (fst (markFrom k self node st pi)).
Proof.
  induction node as [node IH] using PathTreeNode_ind. intros self st pi.
  rewrite List.Forall_forall in IH.
  destruct node as [nm fp us inc t l cs ex sl]. cbn [markFrom]. cbv zeta.
  match goal with |- context [forEachChild ?b ?c ?s] =>
    pose proof (forEachChild_sum totalOriginalUrls totalUrlCount b c s) as S;
    destruct (forEachChild b c s) as [cs' st1] end.
  cbn [fst snd] in *. unfold addStats, countAllUrls. cbn.
  rewrite fold_left_count. rewrite S; [lia|].
  intros key c s Hin. cbv zeta. apply (IH (key, c) Hin).
Qed.

Lemma markFrom_excluded_limited k node st pi :
  limitedUrlCount (fst (markFrom k false node st pi)) = 0.
Proof.
  pose proof (markFrom_fields k false node st pi) as F. cbv zeta in F.
  destruct F as (_ & _ & _ & Hinc & _ & _ & Hl).
  rewrite Hl. unfold countLimitedUrls. now rewrite Hinc.
Qed.

(** The second pass is always entered with [parentIncluded] equal to
    the node's own flag; along such calls the limited total grows by the
    node's [limitedUrlCount]. *)
Lemma markFrom_stats_limited k node :
  forall b st,
    totalLimitedUrls (snd (markFrom k b node st b))
    = totalLimitedUrls st + limitedUrlCount (fst (markFrom k b node st b)).
Proof.
  induction node as [node IH] using PathTreeNode_ind. intros b st.
  rewrite List.Forall_forall in IH.
  pose proof (markFrom_children k b node st b) as C.
  destruct node as [nm fp us inc t l cs ex sl]. cbn [markFrom] in *. cbv zeta in *.
  match goal with |- context [forEachChild ?bd ?c ?s] =>
    pose proof (forEachChild_sum totalLimitedUrls limitedUrlCount bd c s) as S;
    pose proof (forEachChild_Forall2 bd c s) as F2;
    destruct (forEachChild bd c s) as [cs' st1] end.
  cbn [fst snd children] in *. unfold addStats, countLimitedUrls. cbn.
  rewrite S by (intros key c s Hin; cbv zeta; apply (IH (key, c) Hin)).
  destruct b; cbn.
  - rewrite fold_left_count. lia.
  - assert (Hz : sum_list (map (fun kv => limitedUrlCount (snd kv)) cs') = 0).
    { clear -F2. induction F2 as [|kv kv' l0 l0' [_ [st' E]] _ IHF]; [reflexivity|].
      simpl. rewrite IHF, E. cbn [andb]. now rewrite markFrom_excluded_limited. }
    lia.
Qed.

(** *** Stored counts and the two queries *)

(** Each child of the result is the second pass run on the child stored
    under the same key, with both flags equal to the child's inclusion. *)
Lemma markFrom_children_diag k self node st pi :
  Forall2 (fun kv kv' =>
             fst kv' = fst kv
             /\ exists st',
                 let ci := pi && bool_decide (fst kv ∈ includedChildren k node) in
                 snd kv' = fst (markFrom k ci (snd kv) st' ci))
          (children node) (children (fst (markFrom k self node st pi))).
Proof.
  rewrite markFrom_children_eq.
  match goal with |- context [forEachChild ?b ?c ?s] =>
    pose proof (forEachChild_Forall2 b c s) as F2 end.
  eapply Forall2_impl; [exact F2|]. intros kv kv' [Hk [st' E]].
  split; [exact Hk|]. exists st'. exact E.
Qed.

Lemma sum_list_ext (f g : PathTreeNode -> nat) (cs : list (string * PathTreeNode)) :
  Forall (fun kv => f (snd kv) = g (snd kv)) cs ->
  sum_list (map (fun kv => f (snd kv)) cs) = sum_list (map (fun kv => g (snd kv)) cs).
Proof. induction 1 as [|kv cs E _ IH]; simpl; [reflexivity|]. now rewrite E, IH. Qed.

Lemma length_flat_map_sum (h : PathTreeNode -> list SitemapUrl)
      (cs : list (string * PathTreeNode)) :
  length (List.flat_map (fun kv => h (snd kv)) cs)
  = sum_list (map (fun kv => length (h (snd kv))) cs).
Proof.
  induction cs as [|kv cs IH]; simpl; [reflexivity|].
  now rewrite length_app, IH.
Qed.

(** Below every node of a marked tree the property [Q] holds, when [Q]
    follows at a node from [Q] at its children and the two stored
    counts. *)
Lemma markFrom_Forall (Q : PathTreeNode -> Prop) k :
  (forall node',
      Forall (fun kv => Q (snd kv)) (children node') ->
      totalUrlCount node' = countAllUrls node' ->
      limitedUrlCount node' = countLimitedUrls node' ->
      Q node') ->
  forall node self st pi, Forall Q (allNodes (fst (markFrom k self node st pi))).
Proof.
  intros step. induction node as [node IH] using PathTreeNode_ind.
  intros self st pi.
  pose proof (markFrom_fields k self node st pi) as F. cbv zeta in F.
  pose proof (markFrom_children k self node st pi) as C.
  set (node' := fst (markFrom k self node st pi)) in *.
  destruct F as (_ & _ & _ & _ & _ & Ht & Hl).
  assert (Hsub : Forall (fun kv => Forall Q (allNodes (snd kv))) (children node')).
  { clear -IH C. induction C as [|kv kv' cs cs' [_ (b & st' & pi' & E)] _ IHC].
    - constructor.
    - apply Forall_cons_1 in IH as [IHkv IHcs]. constructor; [|now apply IHC].
      rewrite E. apply IHkv. }
  rewrite allNodes_unfold. constructor.
  - apply step; [|exact Ht|exact Hl].
    eapply Forall_impl; [exact Hsub|]. intros kv Hkv. cbv beta in Hkv.
    rewrite allNodes_unfold in Hkv. now apply Forall_cons_1 in Hkv as [Hkv _].
  - clear -Hsub. induction Hsub as [|kv cs Hkv _ IHs]; simpl; [constructor|].
    apply Forall_app. split; assumption.
Qed.

Lemma markFrom_countsAreLengths k node self st pi :
  Forall countsAreLengths (allNodes (fst (markFrom k self node st pi))).
Proof.
  apply markFrom_Forall. intros node' Hc Ht Hl. unfold countsAreLengths. split.
  - rewrite Ht, countAllUrls_sum, orig_unfold, length_app, length_flat_map_sum.
    f_equal. unfold childSum.
    apply (sum_list_ext totalUrlCount (fun n => length (orig n))).
    eapply Forall_impl; [exact Hc|]. intros kv [E _]. exact E.
  - rewrite Hl, countLimitedUrls_sum, getAllUrlsFromNode_unfold.
    destruct (isIncluded node'); simpl; [|reflexivity].
    rewrite length_app, length_flat_map_sum. f_equal. unfold childSum.
    apply (sum_list_ext limitedUrlCount (fun n => length (getAllUrlsFromNode n))).
    eapply Forall_impl; [exact Hc|]. intros kv [_ E]. exact E.
Qed.

(** X3. At every node of a built tree the stored [totalUrlCount] is the
    number of URLs [getAllOriginalUrlsFromNode] returns for the node,
    and the stored [limitedUrlCount] is the number of URLs
    [getAllUrlsFromNode] returns for it. *)
Theorem buildPathTree_counts_are_lengths
    (URL_pathname : string -> option string) (us : list SitemapUrl)
    (maxChildrenPerParent : Z) :
  Forall (fun node =>
            totalUrlCount node = length (getAllOriginalUrlsFromNode node)
            /\ limitedUrlCount node = length (getAllUrlsFromNode node))
         (allNodes (tree (buildPathTree URL_pathname us maxChildrenPerParent))).
Proof. rewrite tree_buildPathTree. apply markFrom_countsAreLengths. Qed.

(** X1. [stats.totalOriginalUrls] is the root's [totalUrlCount], and
    both are the number of input entries whose [loc] parses. *)
Theorem stats_totalOriginalUrls
    (URL_pathname : string -> option string) (us : list SitemapUrl)
    (maxChildrenPerParent : Z) :
  let built := buildPathTree URL_pathname us maxChildrenPerParent in
  totalOriginalUrls (stats built) = totalUrlCount (tree built)
  /\ totalOriginalUrls (stats built)
     = length (List.filter (parses URL_pathname) us).
Proof.
  cbv zeta. rewrite stats_buildPathTree, tree_buildPathTree.
  rewrite markFrom_stats_original. cbn [totalOriginalUrls].
  split; [reflexivity|]. now rewrite markFrom_total, firstPass_perm.
Qed.

(** X2. [stats.totalLimitedUrls] is the root's [limitedUrlCount], which
    is the number of URLs [getAllUrlsFromNode] returns for the root, and
    it never exceeds [stats.totalOriginalUrls]. *)
Theorem stats_totalLimitedUrls
    (URL_pathname : string -> option string) (us : list SitemapUrl)
    (maxChildrenPerParent : Z) :
  let built := buildPathTree URL_pathname us maxChildrenPerParent in
  totalLimitedUrls (stats built) = limitedUrlCount (tree built)
  /\ totalLimitedUrls (stats built) = length (getAllUrlsFromNode (tree built))
  /\ totalLimitedUrls (stats built) <= totalOriginalUrls (stats built).
Proof.
  cbv zeta. rewrite stats_buildPathTree, tree_buildPathTree.
  rewrite firstPass_isIncluded.
  rewrite markFrom_stats_limited, markFrom_stats_original.
  cbn [totalLimitedUrls totalOriginalUrls].
  pose proof (markFrom_countsAreLengths maxChildrenPerParent
                (firstPass URL_pathname us) true
                {| totalOriginalUrls := 0; totalLimitedUrls := 0 |} true) as L.
  pose proof (markFrom_countsOk maxChildrenPerParent
                (firstPass URL_pathname us) true
                {| totalOriginalUrls := 0; totalLimitedUrls := 0 |} true) as O.
  rewrite allNodes_unfold in L, O.
  apply Forall_cons_1 in L as [[_ L] _]. apply Forall_cons_1 in O as [[O _] _].
  split; [reflexivity|]. split; [exact L|exact O].
Qed.

(** *** The limited URLs are some of the original ones *)

(** X7. For any node, [getAllUrlsFromNode] returns a subsequence of what
    [getAllOriginalUrlsFromNode] returns: the same URLs in the same
    order, with those of excluded branches left out. *)
Theorem getAllUrlsFromNode_sublist (node : PathTreeNode) :
  getAllUrlsFromNode node `sublist_of` getAllOriginalUrlsFromNode node.
Proof.
  induction node as [node IH] using PathTreeNode_ind.
  rewrite getAllUrlsFromNode_unfold, orig_unfold.
  destruct (isIncluded node); simpl; [|apply sublist_nil_l].
  apply sublist_app; [reflexivity|].
  induction IH as [|kv cs Hkv _ IHcs]; simpl; [constructor|].
  now apply sublist_app.
Qed.

(** *** Exclusion propagates downwards *)

Lemma allNodes_Forall_intro (Q : PathTreeNode -> Prop) node :
  Q node ->
  Forall (fun kv => Forall Q (allNodes (snd kv))) (children node) ->
  Forall Q (allNodes node).
Proof.
  intros Hq Hsub. rewrite allNodes_unfold. constructor; [exact Hq|].
  induction Hsub as [|kv cs Hkv _ IHs]; simpl; [constructor|].
  apply Forall_app. split; assumption.
Qed.

Lemma markFrom_isIncluded k self node st pi :
  isIncluded (fst (markFrom k self node st pi)) = self.
Proof.
  pose proof (markFrom_fields k self node st pi) as F. cbv zeta in F. tauto.
Qed.

Lemma markFrom_excluded_all k node :
  forall st,
    Forall (fun m => isIncluded m = false)
           (allNodes (fst (markFrom k false node st false))).
Proof.
  induction node as [node IH] using PathTreeNode_ind. intros st.
  apply allNodes_Forall_intro; [apply markFrom_isIncluded|].
  pose proof (markFrom_children_diag k false node st false) as C.
  induction C as [|kv kv' cs cs' [_ [st' E]] _ IHC]; [constructor|].
  apply Forall_cons_1 in IH as [IHkv IHcs]. constructor; [|now apply IHC].
  cbn [andb] in E. rewrite E. apply IHkv.
Qed.

Lemma markFrom_closed k node :
  forall b st,
    Forall (fun n => isIncluded n = false ->
                     Forall (fun m => isIncluded m = false) (allNodes n))
           (allNodes (fst (markFrom k b node st b))).
Proof.
  induction node as [node IH] using PathTreeNode_ind. intros b st.
  apply allNodes_Forall_intro.
  - rewrite markFrom_isIncluded. intros ->. apply markFrom_excluded_all.
  - pose proof (markFrom_children_diag k b node st b) as C.
    induction C as [|kv kv' cs cs' [_ [st' E]] _ IHC]; [constructor|].
    apply Forall_cons_1 in IH as [IHkv IHcs]. constructor; [|now apply IHC].
    cbv zeta in E. rewrite E. apply IHkv.
Qed.

(** X4. In a built tree exclusion propagates down the whole subtree:
    below a node that is not included no node is included. *)
Theorem buildPathTree_exclusion_propagates
    (URL_pathname : string -> option string) (us : list SitemapUrl)
    (maxChildrenPerParent : Z) :
  Forall (fun node =>
            isIncluded node = false ->
            Forall (fun below => isIncluded below = false) (allNodes node))
         (allNodes (tree (buildPathTree URL_pathname us maxChildrenPerParent))).
Proof.
  rewrite tree_buildPathTree, firstPass_isIncluded. apply markFrom_closed.
Qed.

(** *** Every node made by the first pass carries a URL *)

Lemma hasAnyUrls_unfold node :
  hasAnyUrls node
  = (0 <? length (urls node))%nat
    || existsb (fun kv => hasAnyUrls (snd kv)) (children node).
Proof. destruct node; reflexivity. Qed.

Lemma alter_child_app_fresh f seg (cs : list (string * PathTreeNode)) c :
  has seg cs = false ->
  alter_child f seg (cs ++ [(seg, c)]) = cs ++ [(seg, f c)].
Proof.
  unfold has. induction cs as [|[k0 c0] cs IH]; simpl.
  - now rewrite String.eqb_refl.
  - intros H. apply orb_false_iff in H as [Hk Hrest]. rewrite Hk.
    now rewrite IH.
Qed.

Lemma alter_child_Forall (Q : PathTreeNode -> Prop) f seg
      (cs : list (string * PathTreeNode)) :
  Forall (fun kv => Q (snd kv)) cs ->
  (forall c, Q c -> Q (f c)) ->
  Forall (fun kv => Q (snd kv)) (alter_child f seg cs).
Proof.
  intros Hcs Hf. induction Hcs as [|[k0 c0] cs Hc Hcs IH]; simpl; [constructor|].
  destruct (String.eqb k0 seg); constructor; simpl in *; auto.
Qed.

(** What [descend] leaves below the node it is given: the children as
    they were, except that the child under the first segment (made
    afresh when missing) has been descended into. *)
Lemma descend_children (Q : PathTreeNode -> Prop) u seen segment rest node :
  Forall (fun kv => Q (snd kv)) (children node) ->
  (forall c, Q c -> Q (descend u (seen ++ [segment]) rest c)) ->
  (forall fp, Q (descend u (seen ++ [segment]) rest (freshChild segment fp))) ->
  Forall (fun kv => Q (snd kv))
         (children (descend u seen (segment :: rest) node)).
Proof.
  intros Hcs Hold Hnew. cbn [descend]. cbv zeta. cbn [children set_children].
  destruct (has segment (children node)) eqn:E.
  - now apply alter_child_Forall.
  - rewrite alter_child_app_fresh by exact E.
    apply Forall_app. split; [exact Hcs|]. constructor; [apply Hnew|constructor].
Qed.

Lemma descend_hasAnyUrls u rest :
  forall seen node, hasAnyUrls (descend u seen rest node) = true.
Proof.
  induction rest as [|segment rest IH]; intros seen node.
  - cbn [descend]. rewrite hasAnyUrls_unfold. cbn [urls set_urls].
    rewrite length_app. simpl. replace (0 <? length (urls node) + 1)%nat with true;
      [reflexivity|]. symmetry. apply Nat.ltb_lt. lia.
  - rewrite hasAnyUrls_unfold. apply orb_true_iff. right.
    cbn [descend]. cbv zeta. cbn [children set_children].
    set (cs := if has segment (children node) then _ else _).
    assert (Hhas : has segment cs = true).
    { subst cs. destruct (has segment (children node)) eqn:E; [exact E|].
      apply has_app_fresh. }
    clearbody cs. unfold has in Hhas.
    induction cs as [|[k0 c0] cs IHcs]; [discriminate|]. simpl in *.
    destruct (String.eqb k0 segment); simpl.
    + now rewrite IH.
    + rewrite (IHcs Hhas). apply orb_true_r.
Qed.

Lemma Populated_inv node :
  Populated node ->
  Forall (fun kv => hasAnyUrls (snd kv) = true /\ Populated (snd kv))
         (children node).
Proof.
  intros H. inversion H as [n Hu Hp]; subst. apply List.Forall_forall.
  intros [key child] Hin. split; [now apply (Hu key)|now apply (Hp key)].
Qed.

Lemma Populated_intro node :
  Forall (fun kv => hasAnyUrls (snd kv) = true /\ Populated (snd kv))
         (children node) ->
  Populated node.
Proof.
  intros H. rewrite List.Forall_forall in H.
  constructor; intros key child Hin; apply (H (key, child) Hin).
Qed.

Lemma descend_Populated u rest :
  forall seen node, Populated node -> Populated (descend u seen rest node).
Proof.
  induction rest as [|segment rest IH]; intros seen node Hnode.
  - apply Populated_intro. cbn [descend children set_urls]. now apply Populated_inv.
  - apply Populated_intro.
    apply (descend_children
             (fun c => hasAnyUrls c = true /\ Populated c)).
    + now apply Populated_inv.
    + intros c [_ Hc]. split; [apply descend_hasAnyUrls|now apply IH].
    + intros fp. split; [apply descend_hasAnyUrls|].
      apply IH. apply Populated_intro. constructor.
Qed.

Lemma firstPass_Populated P us : Populated (firstPass P us).
Proof.
  unfold firstPass.
  assert (H : forall root, Populated root -> Populated (fold_left (addUrl P) us root)).
  { induction us as [|u us IH]; intros root Hroot; simpl; [exact Hroot|].
    apply IH. unfold addUrl.
    destruct (P _); [now apply descend_Populated|exact Hroot]. }
  apply H. apply Populated_intro. constructor.
Qed.

Lemma childrenWithUrls_all node :
  Populated node -> childrenWithUrls node = map fst (children node).
Proof.
  intros H. apply Populated_inv in H. unfold childrenWithUrls. f_equal.
  induction H as [|kv cs [Hkv _] _ IH]; simpl; [reflexivity|].
  now rewrite Hkv, IH.
Qed.

Lemma firstPass_fullPath P us : fullPath (firstPass P us) = "".
Proof.
  unfold firstPass.
  assert (H : forall r, fullPath (fold_left (addUrl P) us r) = fullPath r).
  { induction us as [|u us0 IH]; intros r; simpl; [reflexivity|].
    rewrite IH. unfold addUrl.
    destruct (P _) as [pathname|]; [|reflexivity].
    destruct (pathPartsOf pathname); reflexivity. }
  now rewrite H.
Qed.

(** X5. The root is never limited: whatever the limit (zero and
    negative values included), every direct child of the root of a built
    tree is marked included. *)
Theorem buildPathTree_root_children_included
    (URL_pathname : string -> option string) (us : list SitemapUrl)
    (maxChildrenPerParent : Z) :
  Forall (fun kv => isIncluded (snd kv) = true)
         (children (tree (buildPathTree URL_pathname us maxChildrenPerParent))).
Proof.
  rewrite tree_buildPathTree.
  set (root := firstPass URL_pathname us).
  pose proof (markFrom_children_diag maxChildrenPerParent (isIncluded root) root
                {| totalOriginalUrls := 0; totalLimitedUrls := 0 |} true) as C.
  assert (Hroot : fullPath root = "") by apply firstPass_fullPath.
  assert (Hall : forall key, In key (map fst (children root)) ->
                             key ∈ includedChildren maxChildrenPerParent root).
  { intros key Hin. unfold includedChildren. rewrite Hroot. simpl.
    rewrite childrenWithUrls_all by apply firstPass_Populated.
    apply elem_of_list_to_set, list_elem_of_In, Hin. }
  clearbody root.
  induction C as [|kv kv' cs cs' [_ [st' E]] _ IHC]; [constructor|].
  constructor.
  - cbv zeta in E. rewrite E, markFrom_isIncluded. cbn [andb].
    apply bool_decide_eq_true, Hall. now left.
  - apply IHC. intros key Hin. apply Hall. now right.
Qed.

(** *** The limit bounds the included children *)

Lemma NoDup_keys_filter (p : string * PathTreeNode -> bool)
      (cs : list (string * PathTreeNode)) :
  NoDup (map fst cs) -> NoDup (map fst (List.filter p cs)).
Proof.
  induction cs as [|kv cs IH]; simpl; [trivial|].
  intros H. inversion H as [|? ? Hk Hcs]; subst.
  destruct (p kv); simpl; [|now apply IH].
  constructor; [|now apply IH].
  intros Hin. apply Hk. apply list_elem_of_In in Hin. apply list_elem_of_In.
  apply in_map_iff in Hin as (kv' & E & Hin').
  apply filter_In in Hin' as [Hin' _]. apply in_map_iff. eauto.
Qed.

Lemma included_count_le (L : list string) (cs : list (string * PathTreeNode)) :
  NoDup (map fst cs) ->
  Forall (fun kv => isIncluded (snd kv) = true -> In (fst kv) L) cs ->
  length (List.filter (fun kv => isIncluded (snd kv)) cs) <= length L.
Proof.
  intros Hdup Hin.
  rewrite <- (length_map fst).
  apply NoDup_incl_length.
  - apply NoDup_ListNoDup. now apply NoDup_keys_filter.
  - intros key Hkey. apply in_map_iff in Hkey as (kv & <- & Hkv).
    apply filter_In in Hkv as [Hkv Hinc].
    rewrite List.Forall_forall in Hin. now apply (Hin kv).
Qed.

Lemma markFrom_limit_bound k node :
  (0 <= k)%Z ->
  forall self st pi,
    UniqueKeys node ->
    Forall (fun n =>
              fullPath n <> "" ->
              length (List.filter (fun kv => isIncluded (snd kv)) (children n))
              <= Z.to_nat k)
           (allNodes (fst (markFrom k self node st pi))).
Proof.
  intros Hk. induction node as [node IH] using PathTreeNode_ind.
  intros self st pi Hnode. apply UniqueKeys_inv in Hnode as [Hdup Hsub].
  apply allNodes_Forall_intro.
  - pose proof (markFrom_fields k self node st pi) as F. cbv zeta in F.
    destruct F as (_ & Hfp & _ & _ & Hkeys & _). rewrite Hfp. intros Hnonroot.
    etransitivity;
      [apply (included_count_le (firstn (Z.to_nat k) (childrenWithUrls node)))|].
    + now rewrite Hkeys.
    + pose proof (markFrom_children_diag k self node st pi) as C.
      clear -C Hk Hnonroot.
      induction C as [|kv kv' cs cs' [Ek [st' E]] _ IHC]; constructor; [|exact IHC].
      cbv zeta in E. rewrite E, markFrom_isIncluded, Ek. intros Hci.
      apply andb_true_iff in Hci as [_ Hci]. apply bool_decide_eq_true in Hci.
      unfold includedChildren in Hci.
      destruct (String.eqb (fullPath node) "") eqn:Eroot;
        [now apply String.eqb_eq in Eroot|].
      rewrite elem_of_list_to_set, JsFacts.slice_prefix in Hci by exact Hk.
      now apply list_elem_of_In.
    + rewrite length_firstn. apply Nat.le_min_l.
  - pose proof (markFrom_children k self node st pi) as C.
    rewrite List.Forall_forall in IH.
    assert (Hc : forall kv, In kv (children node) -> UniqueKeys (snd kv)).
    { intros [key c] Hin. now apply (Hsub key). }
    clear -IH C Hc.
    induction C as [|kv kv' cs cs' [_ (b & st' & pi' & E)] _ IHC]; [constructor|].
    constructor.
    + rewrite E. apply IH; [now left|]. apply Hc. now left.
    + apply IHC; [intros x Hx; apply IH; now right
                 |intros x Hx; apply Hc; now right].
Qed.

(** X6. For a limit [k >= 0], every node of a built tree other than the
    root (the test of the source: [fullPath] is not empty) has at most
    [k] children marked included. *)
Theorem buildPathTree_limit_bounds_children
    (URL_pathname : string -> option string) (us : list SitemapUrl) (k : Z) :
  (0 <= k)%Z ->
  Forall (fun node =>
            fullPath node <> "" ->
            length (List.filter (fun kv => isIncluded (snd kv)) (children node))
            <= Z.to_nat k)
         (allNodes (tree (buildPathTree URL_pathname us k))).
Proof.
  intros Hk. rewrite tree_buildPathTree.
  apply markFrom_limit_bound; [exact Hk|apply firstPass_UniqueKeys].
Qed.

Lemma buildPathTree_limit_bounds_children_witness :
  Forall (fun node =>
            fullPath node <> "" ->
            length (List.filter (fun kv => isIncluded (snd kv)) (children node))
            <= Z.to_nat 1)
         (allNodes (tree (buildPathTree Toy.URL_pathname Toy.docs 1))).
Proof.
  apply (buildPathTree_limit_bounds_children Toy.URL_pathname Toy.docs 1). lia.
Defined.

(** *** A limit that is large enough excludes nothing *)

Lemma hasAnyUrls_orig node :
  hasAnyUrls node = true -> 1 <= length (getAllOriginalUrlsFromNode node).
Proof.
  induction node as [node IH] using PathTreeNode_ind.
  rewrite hasAnyUrls_unfold, orig_unfold, length_app. intros H.
  apply orb_true_iff in H as [H|H]; [apply Nat.ltb_lt in H; lia|].
  apply existsb_exists in H as (kv & Hin & Hkv).
  rewrite List.Forall_forall in IH. specialize (IH kv Hin Hkv).
  assert (length (orig (snd kv))
          <= length (List.flat_map (fun kv => orig (snd kv)) (children node))).
  { clear -Hin. induction (children node) as [|kv0 cs IHcs]; [destruct Hin|].
    simpl. rewrite length_app. destruct Hin as [->|Hin]; [lia|].
    specialize (IHcs Hin). lia. }
  lia.
Qed.

Lemma children_le_orig node :
  Populated node ->
  length (children node) <= length (getAllOriginalUrlsFromNode node).
Proof.
  intros H. apply Populated_inv in H. rewrite orig_unfold, length_app.
  assert (length (children node)
          <= length (List.flat_map (fun kv => orig (snd kv)) (children node))).
  { induction H as [|kv cs [Hkv _] _ IH]; simpl; [lia|].
    rewrite length_app. apply hasAnyUrls_orig in Hkv. lia. }
  lia.
Qed.

Lemma child_orig_le node key child :
  In (key, child) (children node) ->
  length (getAllOriginalUrlsFromNode child)
  <= length (getAllOriginalUrlsFromNode node).
Proof.
  intros Hin. rewrite (orig_unfold node), length_app.
  assert (length (orig child)
          <= length (List.flat_map (fun kv => orig (snd kv)) (children node))).
  { induction (children node) as [|kv0 cs IHcs]; [destruct Hin|].
    simpl. rewrite length_app. destruct Hin as [->|Hin]; [simpl; lia|].
    specialize (IHcs Hin). lia. }
  lia.
Qed.

Lemma markFrom_all_included k node :
  forall st,
    Populated node ->
    (Z.of_nat (length (getAllOriginalUrlsFromNode node)) <= k)%Z ->
    Forall (fun n => isIncluded n = true)
           (allNodes (fst (markFrom k true node st true))).
Proof.
  induction node as [node IH] using PathTreeNode_ind. intros st Hpop Hk.
  apply allNodes_Forall_intro; [apply markFrom_isIncluded|].
  pose proof (markFrom_children_diag k true node st true) as C.
  assert (Hall : forall key, In key (map fst (children node)) ->
                             key ∈ includedChildren k node).
  { intros key Hin. unfold includedChildren.
    rewrite childrenWithUrls_all by exact Hpop.
    pose proof (children_le_orig node Hpop) as Hlen.
    destruct (String.eqb (fullPath node) "").
    - apply elem_of_list_to_set, list_elem_of_In, Hin.
    - rewrite JsFacts.slice_prefix by lia.
      rewrite firstn_all2 by (rewrite length_map; lia).
      apply elem_of_list_to_set, list_elem_of_In, Hin. }
  assert (Hc : forall kv, In kv (children node) ->
                          Populated (snd kv)
                          /\ (Z.of_nat (length (orig (snd kv))) <= k)%Z).
  { intros [key c] Hin. apply Populated_inv in Hpop.
    rewrite List.Forall_forall in Hpop. split; [apply (Hpop _ Hin)|].
    pose proof (child_orig_le node key c Hin). simpl. lia. }
  rewrite List.Forall_forall in IH. clear Hpop Hk.
  induction C as [|kv kv' cs cs' [_ [st' E]] _ IHC]; [constructor|].
  constructor.
  - cbv zeta in E. rewrite E.
    replace (bool_decide (fst kv ∈ includedChildren k node)) with true
      by (symmetry; apply bool_decide_eq_true, Hall; now left).
    cbn [andb]. destruct (Hc kv (or_introl eq_refl)) as [Hp Hl].
    apply IH; [now left|exact Hp|exact Hl].
  - apply IHC; [intros x Hx; apply IH; now right
               |intros key Hin; apply Hall; now right
               |intros x Hx; apply Hc; now right].
Qed.

Lemma getAllUrlsFromNode_all_included node :
  Forall (fun n => isIncluded n = true) (allNodes node) ->
  getAllUrlsFromNode node = getAllOriginalUrlsFromNode node.
Proof.
  induction node as [node IH] using PathTreeNode_ind.
  rewrite allNodes_unfold, getAllUrlsFromNode_unfold, orig_unfold.
  intros H. apply Forall_cons_1 in H as [-> H]. simpl. f_equal.
  induction IH as [|kv cs Hkv _ IHcs]; simpl in *; [reflexivity|].
  apply Forall_app in H as [H1 H2]. now rewrite Hkv, IHcs.
Qed.

(** X8. When the limit is at least the number of entries that parse,
    nothing is excluded: every node of the built tree is marked
    included, the limited URLs are all the URLs, and the two totals of
    [stats] agree. *)
Theorem buildPathTree_large_limit
    (URL_pathname : string -> option string) (us : list SitemapUrl) (k : Z) :
  (Z.of_nat (length (List.filter (parses URL_pathname) us)) <= k)%Z ->
  let built := buildPathTree URL_pathname us k in
  Forall (fun node => isIncluded node = true) (allNodes (tree built))
  /\ getAllUrlsFromNode (tree built) = getAllOriginalUrlsFromNode (tree built)
  /\ totalLimitedUrls (stats built) = totalOriginalUrls (stats built).
Proof.
  intros Hk. cbv zeta.
  assert (Hall : Forall (fun node => isIncluded node = true)
                        (allNodes (tree (buildPathTree URL_pathname us k)))).
  { rewrite tree_buildPathTree, firstPass_isIncluded.
    apply markFrom_all_included; [apply firstPass_Populated|].
    now rewrite firstPass_perm. }
  split; [exact Hall|]. split; [now apply getAllUrlsFromNode_all_included|].
  rewrite stats_buildPathTree, firstPass_isIncluded.
  rewrite markFrom_stats_limited, markFrom_stats_original.
  cbn [totalLimitedUrls totalOriginalUrls].
  pose proof (markFrom_countsAreLengths k (firstPass URL_pathname us) true
                {| totalOriginalUrls := 0; totalLimitedUrls := 0 |} true) as L.
  rewrite allNodes_unfold in L. apply Forall_cons_1 in L as [[Lt Ll] _].
  rewrite Lt, Ll.
  rewrite tree_buildPathTree, firstPass_isIncluded in Hall.
  now rewrite (getAllUrlsFromNode_all_included _ Hall).
Qed.

Lemma buildPathTree_large_limit_witness :
  let built := buildPathTree Toy.URL_pathname Toy.docs 3 in
  Forall (fun node => isIncluded node = true) (allNodes (tree built))
  /\ getAllUrlsFromNode (tree built) = getAllOriginalUrlsFromNode (tree built)
  /\ totalLimitedUrls (stats built) = totalOriginalUrls (stats built).
Proof.
  apply (buildPathTree_large_limit Toy.URL_pathname Toy.docs 3).
  vm_compute. discriminate.
Defined.

End PathTreeStats.

(** ** Paths: segments, [fullPath] and the lookups by path *)

Module PathTreePaths.
Import PathTree PathTreeShape PathTreeView Sidebar PathTreeFacts.

(** *** Splitting and joining *)

Lemma split_nonempty s : Js.split "/" s <> [].
Proof.
  destruct s as [|c s]; simpl; [discriminate|].
  destruct (Ascii.eqb c "/"); [discriminate|].
  destruct (Js.split "/" s); discriminate.
Qed.

Lemma split_cons_inv c w :
  Js.split "/" (String c w) = [String c w] ->
  Ascii.eqb c "/" = false /\ Js.split "/" w = [w].
Proof.
  simpl. destruct (Ascii.eqb c "/"); [discriminate|].
  destruct (Js.split "/" w) as [|w0 ws] eqn:E.
  - now apply split_nonempty in E.
  - intros [= -> ->]. auto.
Qed.

(** The pieces [split] returns hold no separator. *)
Lemma split_pieces s : Forall (fun w => Js.split "/" w = [w]) (Js.split "/" s).
Proof.
  induction s as [|c s IH]; simpl; [repeat constructor|].
  destruct (Ascii.eqb c "/") eqn:Ec; [constructor; [reflexivity|exact IH]|].
  destruct (Js.split "/" s) as [|w ws]; [repeat constructor; simpl; now rewrite Ec|].
  apply Forall_cons_1 in IH as [Hw Hws]. constructor; [|exact Hws].
  simpl. now rewrite Ec, Hw.
Qed.

Lemma pathPartsOf_segments s : Forall isSegment (pathPartsOf s).
Proof.
  unfold pathPartsOf. apply List.Forall_forall. intros w Hw.
  apply filter_In in Hw as [Hin Ht]. split; [exact Ht|].
  pose proof (split_pieces s) as H. rewrite List.Forall_forall in H. now apply H.
Qed.

Lemma split_app_sep w r :
  Js.split "/" w = [w] ->
  Js.split "/" (w +:+ String "/" r) = w :: Js.split "/" r.
Proof.
  induction w as [|c w IH]; intros Hw; [reflexivity|].
  apply split_cons_inv in Hw as [Ec Hw]. simpl. rewrite Ec.
  change (String.append w (String "/" r)) with (w +:+ String "/" r).
  now rewrite IH.
Qed.

Lemma split_join parts :
  parts <> [] ->
  Forall isSegment parts ->
  Js.split "/" (Js.join "/" parts) = parts.
Proof.
  intros Hne H. induction H as [|p ps [_ Hp] Hps IH]; [congruence|].
  destruct ps as [|q ps]; [exact Hp|].
  change (Js.join "/" (p :: q :: ps)) with (p +:+ String "/" (Js.join "/" (q :: ps))).
  rewrite split_app_sep by exact Hp. f_equal. apply IH. discriminate.
Qed.

(** Splitting the path made of segments gives the segments back. *)
Lemma pathPartsOf_join parts :
  parts <> [] ->
  Forall isSegment parts ->
  pathPartsOf ("/" +:+ Js.join "/" parts) = parts.
Proof.
  intros Hne H. unfold pathPartsOf.
  change ("/" +:+ Js.join "/" parts) with (String "/" (Js.join "/" parts)).
  cbn [Js.split]. change (Ascii.eqb "/" "/") with true. cbv iota.
  rewrite split_join by assumption. cbn [List.filter Js.truthy String.eqb negb].
  induction H as [|p ps [Hp _] _ IH]; [reflexivity|].
  simpl. rewrite Hp. f_equal.
  destruct ps; [reflexivity|]. apply IH. discriminate.
Qed.

(** *** Where the first pass puts the nodes *)

Lemma WellPlaced_inv prefix node :
  WellPlaced prefix node ->
  forall key child,
    In (key, child) (children node) ->
    (isSegment key /\ name child = key
     /\ fullPath child = "/" +:+ Js.join "/" (prefix ++ [key]))
    /\ WellPlaced (prefix ++ [key]) child.
Proof. intros H. inversion H; subst. intros key child Hin. split; eauto. Qed.

Lemma WellPlaced_intro prefix node :
  (forall key child,
      In (key, child) (children node) ->
      (isSegment key /\ name child = key
       /\ fullPath child = "/" +:+ Js.join "/" (prefix ++ [key]))
      /\ WellPlaced (prefix ++ [key]) child) ->
  WellPlaced prefix node.
Proof. intros H. constructor; intros key child Hin; now apply H. Qed.

Lemma descend_name_fullPath u rest seen node :
  name (descend u seen rest node) = name node
  /\ fullPath (descend u seen rest node) = fullPath node.
Proof. destruct rest; split; reflexivity. Qed.

Lemma alter_child_In_key f seg (cs : list (string * PathTreeNode)) k c' :
  In (k, c') (alter_child f seg cs) ->
  exists c, In (k, c) cs /\ (c' = c \/ (k = seg /\ c' = f c)).
Proof.
  induction cs as [|[k0 c0] cs IH]; simpl; [intros []|].
  destruct (String.eqb k0 seg) eqn:E; simpl.
  - apply String.eqb_eq in E. intros [[= <- <-]|Hin]; eauto 6.
  - intros [[= <- <-]|Hin]; [eauto|].
    destruct (IH Hin) as (c & Hc & Hor). eauto.
Qed.

Lemma descend_WellPlaced u rest :
  forall seen node,
    Forall isSegment rest ->
    WellPlaced seen node ->
    WellPlaced seen (descend u seen rest node).
Proof.
  induction rest as [|segment rest IH]; intros seen node Hrest Hnode.
  - apply WellPlaced_intro. cbn [descend children set_urls].
    now apply WellPlaced_inv.
  - apply Forall_cons_1 in Hrest as [Hseg Hrest].
    apply WellPlaced_intro. cbn [descend]. cbv zeta. cbn [children set_children].
    intros key child' Hin.
    apply alter_child_In_key in Hin as (c & Hc & Hor).
    assert (Hold : (isSegment key /\ name c = key
                    /\ fullPath c = "/" +:+ Js.join "/" (seen ++ [key]))
                   /\ WellPlaced (seen ++ [key]) c).
    { destruct (has segment (children node)).
      - now apply (WellPlaced_inv seen node).
      - apply in_app_or in Hc as [Hc|[[= <- <-]|[]]].
        + now apply (WellPlaced_inv seen node).
        + split; [split; [exact Hseg|split; reflexivity]|].
          apply WellPlaced_intro. intros ? ? []. }
    destruct Hor as [->|[-> ->]]; [exact Hold|].
    destruct Hold as [(Hk & Hn & Hf) Hw].
    destruct (descend_name_fullPath u rest (seen ++ [segment]) c) as [En Ef].
    rewrite En, Ef. split; [auto|]. now apply IH.
Qed.

Lemma firstPass_WellPlaced P us : WellPlaced [] (firstPass P us).
Proof.
  unfold firstPass.
  assert (H : forall root, WellPlaced [] root ->
                           WellPlaced [] (fold_left (addUrl P) us root)).
  { induction us as [|u us IH]; intros root Hroot; simpl; [exact Hroot|].
    apply IH. unfold addUrl. destruct (P _) as [pathname|]; [|exact Hroot].
    apply descend_WellPlaced; [apply pathPartsOf_segments|exact Hroot]. }
  apply H. apply WellPlaced_intro. intros ? ? [].
Qed.

Lemma Forall2_In_r {A B} (R : A -> B -> Prop) l l' y :
  Forall2 R l l' -> In y l' -> exists x, In x l /\ R x y.
Proof.
  induction 1 as [|x y0 l l' Hxy _ IH]; [intros []|].
  intros [->|Hin]; [exists x; split; [now left|exact Hxy]|].
  destruct (IH Hin) as (x' & Hx' & Hr). exists x'. split; [now right|exact Hr].
Qed.

Lemma markFrom_WellPlaced k node :
  forall prefix self st pi,
    WellPlaced prefix node ->
    WellPlaced prefix (fst (markFrom k self node st pi)).
Proof.
  induction node as [node IH] using PathTreeNode_ind.
  intros prefix self st pi Hnode. rewrite List.Forall_forall in IH.
  apply WellPlaced_intro. intros key child' Hin.
  destruct (Forall2_In_r _ _ _ _ (markFrom_children k self node st pi) Hin)
    as ([key0 c] & Hc & Ek & b & st' & pi' & E).
  simpl in Ek, E. subst key0 child'.
  destruct (WellPlaced_inv prefix node Hnode key c Hc) as [(Hk & Hn & Hf) Hw].
  pose proof (markFrom_fields k b c st' pi') as F. cbv zeta in F.
  destruct F as (En & Ef & _). rewrite En, Ef.
  split; [auto|]. now apply (IH (key, c) Hc).
Qed.

(** *** Chains of nodes and paths of keys *)

Lemma allNodes_Reach node :
  forall n, In n (allNodes node) -> exists chain, Reach node chain n.
Proof.
  induction node as [node IH] using PathTreeNode_ind. intros n.
  rewrite allNodes_unfold. intros [<-|Hin]; [exists []; constructor|].
  apply in_flat_map in Hin as ([key c] & Hc & Hn). cbn [snd] in Hn.
  rewrite List.Forall_forall in IH.
  destruct (IH _ Hc n Hn) as [chain Hchain].
  exists (c :: chain). econstructor; eassumption.
Qed.

Lemma Reach_nodeAt chain :
  forall prefix node n,
    WellPlaced prefix node ->
    UniqueKeys node ->
    Reach node chain n ->
    nodeAt (map name chain) node = Some n
    /\ Forall isSegment (map name chain)
    /\ (chain <> [] ->
        fullPath n = "/" +:+ Js.join "/" (prefix ++ map name chain)).
Proof.
  induction chain as [|c chain IH]; intros prefix node n Hw Hu Hr.
  - inversion Hr; subst. split; [reflexivity|]. split; [constructor|congruence].
  - inversion Hr as [|? key ? ? ? Hin Hc]; subst.
    destruct (WellPlaced_inv prefix node Hw key c Hin) as [(Hk & Hn & Hf) Hwc].
    apply UniqueKeys_inv in Hu as [Hdup Hsub].
    destruct (IH (prefix ++ [key]) c n Hwc (Hsub key c Hin) Hc) as (Hat & Hseg & Hfp).
    cbn [map nodeAt]. rewrite Hn, (get_NoDup key c) by assumption.
    split; [exact Hat|]. split; [now constructor|]. intros _.
    destruct chain as [|c2 chain].
    + inversion Hc; subst. exact Hf.
    + rewrite Hfp by discriminate. now rewrite <- app_assoc.
Qed.

Lemma Reach_fullPaths chain :
  forall prefix node n,
    WellPlaced prefix node ->
    Reach node chain n ->
    map fullPath chain
    = map (fun i => "/" +:+ Js.join "/" (prefix ++ firstn i (map name chain)))
          (seq 1 (length chain)).
Proof.
  induction chain as [|c chain IH]; intros prefix node n Hw Hr; [reflexivity|].
  inversion Hr as [|? key ? ? ? Hin Hc]; subst.
  destruct (WellPlaced_inv prefix node Hw key c Hin) as [(Hk & Hn & Hf) Hwc].
  cbn [map length seq]. rewrite Hn. cbn [firstn]. f_equal; [exact Hf|].
  rewrite (IH (prefix ++ [key]) c n Hwc Hc).
  rewrite <- (seq_shift (length chain) 1), map_map. apply map_ext. intros i.
  cbn [firstn]. now rewrite <- app_assoc.
Qed.

Lemma built_tree_shape P us k :
  let root := tree (buildPathTree P us k) in
  WellPlaced [] root /\ UniqueKeys root /\ fullPath root = "".
Proof.
  cbv zeta. rewrite tree_buildPathTree. split; [|split].
  - apply markFrom_WellPlaced, firstPass_WellPlaced.
  - apply markFrom_UniqueKeys, firstPass_UniqueKeys.
  - pose proof (markFrom_fields k (isIncluded (firstPass P us)) (firstPass P us)
                  {| totalOriginalUrls := 0; totalLimitedUrls := 0 |} true) as F.
    cbv zeta in F. destruct F as (_ & Ef & _). rewrite Ef.
    apply PathTreeStats.firstPass_fullPath.
Qed.

Lemma built_getNodeByPath P us k chain n :
  Reach (tree (buildPathTree P us k)) chain n ->
  getNodeByPath (tree (buildPathTree P us k)) (fullPath n) = Some n.
Proof.
  intros Hr. destruct (built_tree_shape P us k) as (Hw & Hu & Hroot).
  destruct (Reach_nodeAt chain [] _ n Hw Hu Hr) as (Hat & Hseg & Hfp).
  unfold getNodeByPath. destruct chain as [|c chain].
  - inversion Hr; subst. rewrite Hroot. reflexivity.
  - rewrite Hfp by discriminate. cbn [app].
    rewrite pathPartsOf_join; [exact Hat|discriminate|exact Hseg].
Qed.

(** X9. In a built tree the [fullPath] of a node finds the node again:
    for every node, [getNodeByPath(tree, node.fullPath)] is that node
    (the checkbox of a row always reaches the node the row was made
    from), so no two nodes share a [fullPath]. *)
Theorem getNodeByPath_fullPath
    (URL_pathname : string -> option string) (us : list SitemapUrl)
    (maxChildrenPerParent : Z) :
  let root := tree (buildPathTree URL_pathname us maxChildrenPerParent) in
  Forall (fun node => getNodeByPath root (fullPath node) = Some node)
         (allNodes root).
Proof.
  cbv zeta. apply List.Forall_forall. intros n Hin.
  apply allNodes_Reach in Hin as [chain Hr]. eapply built_getNodeByPath, Hr.
Qed.

(** *** The paths to expand *)

Lemma getPathsToExpand_join parts :
  Forall isSegment parts ->
  getPathsToExpand ("/" +:+ Js.join "/" parts)
  = map (fun i => "/" +:+ Js.join "/" (firstn i parts)) (seq 1 (length parts)).
Proof.
  intros H. unfold getPathsToExpand. cbv zeta.
  destruct parts as [|p ps]; [reflexivity|].
  rewrite pathPartsOf_join by (discriminate || assumption).
  apply map_ext. intros i. rewrite JsFacts.slice_prefix by lia.
  now rewrite Nat2Z.id.
Qed.

Lemma built_getPathsToExpand
    (URL_pathname : string -> option string) (us : list SitemapUrl)
    (maxChildrenPerParent : Z) (chain : list PathTreeNode) (node : PathTreeNode) :
  Reach (tree (buildPathTree URL_pathname us maxChildrenPerParent)) chain node ->
  getPathsToExpand (fullPath node) = map fullPath chain.
Proof.
  intros Hr.
  destruct (built_tree_shape URL_pathname us maxChildrenPerParent) as (Hw & Hu & Hroot).
  destruct (Reach_nodeAt chain [] _ node Hw Hu Hr) as (_ & Hseg & Hfp).
  rewrite (Reach_fullPaths chain [] _ node Hw Hr).
  destruct chain as [|c chain].
  - inversion Hr; subst. rewrite Hroot. reflexivity.
  - rewrite Hfp by discriminate. cbn [app].
    rewrite getPathsToExpand_join by exact Hseg.
    now rewrite length_map.
Qed.

(** X10. For a node of a built tree, [getPathsToExpand(node.fullPath)]
    lists the [fullPath] of every node on the way from below the root
    down to the node itself, outermost first. *)
Theorem getPathsToExpand_chain
    (URL_pathname : string -> option string) (us : list SitemapUrl)
    (maxChildrenPerParent : Z) (chain : list PathTreeNode) (node : PathTreeNode) :
  Reach (tree (buildPathTree URL_pathname us maxChildrenPerParent)) chain node ->
  getPathsToExpand (fullPath node) = map fullPath chain.
Proof. apply built_getPathsToExpand. Qed.

Lemma getPathsToExpand_chain_witness :
  getPathsToExpand (fullPath PathTreeSample.docsA)
  = map fullPath [PathTreeSample.docsDir; PathTreeSample.docsA].
Proof.
  apply (getPathsToExpand_chain Toy.URL_pathname Toy.docs 3).
  vm_compute.
  eapply Reach_child; [left; reflexivity|].
  eapply Reach_child; [left; reflexivity|]. apply Reach_here.
Defined.

Example getPathsToExpand_docs_a :
  getPathsToExpand "/docs/a" = ["/docs"; "/docs/a"]
  /\ getPathsToExpand "/" = [] /\ getPathsToExpand "" = [].
Proof. repeat split. Qed.

End PathTreePaths.

(** ** The flattened view *)

Module PathTreeViewFacts.
Import PathTree PathTreeShape PathTreeView PathTreeFacts.

Section Flatten.

Variable localeCompare : string -> string -> Z.

Abbreviation sortEntries' := (sortEntries localeCompare).
Abbreviation flattenTree' := (flattenTree localeCompare).

(** *** Sorting the entries *)

Lemma insertEntry_perm {V} (x : string * V) l :
  insertEntry localeCompare x l ≡ₚ x :: l.
Proof.
  induction l as [|y l IH]; simpl; [reflexivity|].
  destruct (localeCompare (fst x) (fst y) <=? 0)%Z; [reflexivity|].
  rewrite IH. apply perm_swap.
Qed.

Lemma sortEntries_perm {V} (l : list (string * V)) : sortEntries' l ≡ₚ l.
Proof.
  induction l as [|x l IH]; simpl; [reflexivity|].
  now rewrite insertEntry_perm, IH.
Qed.

Lemma sortEntries_In {V} (l : list (string * V)) x :
  In x (sortEntries' l) <-> In x l.
Proof.
  rewrite <- !list_elem_of_In. now rewrite sortEntries_perm.
Qed.

(** Sorting looks at the keys only: it commutes with a change of the
    values. *)
Lemma insertEntry_map {V W} (f : string * V -> W) x (l : list (string * V)) :
  insertEntry localeCompare (fst x, f x) (map (fun kv => (fst kv, f kv)) l)
  = map (fun kv => (fst kv, f kv)) (insertEntry localeCompare x l).
Proof.
  induction l as [|y l IH]; simpl; [reflexivity|].
  destruct (localeCompare (fst x) (fst y) <=? 0)%Z; simpl; [reflexivity|].
  now rewrite IH.
Qed.

Lemma sortEntries_map {V W} (f : string * V -> W) (l : list (string * V)) :
  sortEntries' (map (fun kv => (fst kv, f kv)) l)
  = map (fun kv => (fst kv, f kv)) (sortEntries' l).
Proof.
  induction l as [|x l IH]; simpl; [reflexivity|].
  now rewrite IH, insertEntry_map.
Qed.

(** With a comparison that relates any two keys one way or the other,
    neighbours in the sorted list are in order. *)
Abbreviation inOrder := (keysInOrder localeCompare).

Lemma insertEntry_sorted {V} (x : string * V) l :
  (forall a b, (localeCompare a b <= 0)%Z \/ (localeCompare b a <= 0)%Z) ->
  Sorted inOrder l -> Sorted inOrder (insertEntry localeCompare x l).
Proof.
  intros Htotal Hl. induction Hl as [|y l Hl IH Hy]; simpl.
  - repeat constructor.
  - destruct (localeCompare (fst x) (fst y) <=? 0)%Z eqn:E.
    + apply Z.leb_le in E. repeat constructor; assumption.
    + apply Z.leb_gt in E. constructor; [exact IH|].
      assert (Hyx : inOrder y x).
      { unfold inOrder. destruct (Htotal (fst x) (fst y)); lia. }
      destruct Hy as [|z l Hyz]; simpl; [now constructor|].
      destruct (localeCompare (fst x) (fst z) <=? 0)%Z; now constructor.
Qed.

Lemma sortEntries_sorted {V} (l : list (string * V)) :
  (forall a b, (localeCompare a b <= 0)%Z \/ (localeCompare b a <= 0)%Z) ->
  Sorted inOrder (sortEntries' l).
Proof.
  intros Htotal. induction l as [|x l IH]; simpl; [constructor|].
  now apply insertEntry_sorted.
Qed.

(** *** [flattenTree] in the shape of the source *)

Lemma flattenTree_unfold node expandedPaths selectedUrls depth parentPath :
  flattenTree' node expandedPaths selectedUrls depth parentPath
  = List.flat_map
      (fun kv : string * PathTreeNode =>
         let child := snd kv in
         rowOf expandedPaths selectedUrls depth child
         :: (if bool_decide (fullPath child ∈ expandedPaths)
                && (0 <? length (children child))%nat
             then flattenTree' child expandedPaths selectedUrls (depth + 1)
                               (fullPath child)
             else []))
      (sortEntries' (children node)).
Proof.
  destruct node as [nm fp us inc t l cs ex sl]. cbn [flattenTree]. cbv zeta.
  cbn [children].
  rewrite (sortEntries_map
             (fun kv : string * PathTreeNode =>
                rowOf expandedPaths selectedUrls depth (snd kv)
                :: (if bool_decide (fullPath (snd kv) ∈ expandedPaths)
                       && (0 <? length (children (snd kv)))%nat
                    then flattenTree' (snd kv) expandedPaths selectedUrls
                                      (depth + 1) (fullPath (snd kv))
                    else []))).
  rewrite map_map. cbn [snd]. now rewrite flat_map_concat_map.
Qed.

(** *** Which rows are shown *)

Lemma flattenTree_rows expandedPaths selectedUrls node :
  forall depth parentPath row,
    In row (flattenTree' node expandedPaths selectedUrls depth parentPath)
    <-> exists chain n,
          Reach node chain n /\ chain <> []
          /\ expandedAll expandedPaths (removelast chain) = true
          /\ row = rowOf expandedPaths selectedUrls
                         (depth + (length chain - 1)) n.
Proof.
  induction node as [node IH] using PathTreeNode_ind.
  intros depth parentPath row. rewrite List.Forall_forall in IH.
  rewrite flattenTree_unfold, in_flat_map. split.
  - intros ([key c] & Hin & Hrow). apply (proj1 (sortEntries_In _ _)) in Hin.
    cbv zeta in Hrow. cbn [snd] in Hrow. destruct Hrow as [<-|Hrow].
    + exists [c], c. split; [econstructor; [exact Hin|constructor]|].
      split; [discriminate|]. split; [reflexivity|].
      simpl. now rewrite Nat.add_0_r.
    + destruct (bool_decide (fullPath c ∈ expandedPaths)) eqn:Eexp;
        [|destruct Hrow].
      destruct (0 <? length (children c))%nat; [|destruct Hrow]. simpl in Hrow.
      apply (IH (key, c) Hin) in Hrow as (chain & n & Hr & Hne & Hall & ->).
      exists (c :: chain), n. split; [econstructor; eassumption|].
      split; [discriminate|]. split.
      * destruct chain as [|c2 chain]; [congruence|].
        change (removelast (c :: c2 :: chain)) with (c :: removelast (c2 :: chain)).
        unfold expandedAll in *. cbn [forallb]. now rewrite Eexp, Hall.
      * f_equal. destruct chain; [congruence|]. simpl. lia.
  - intros (chain & n & Hr & Hne & Hall & ->).
    inversion Hr as [|? key c chain' ? Hin Hc]; subst; [congruence|].
    exists (key, c). split; [now apply (proj2 (sortEntries_In _ _))|].
    cbv zeta. cbn [snd]. destruct chain' as [|c2 chain'].
    + inversion Hc; subst. left. simpl. now rewrite Nat.add_0_r.
    + right.
      change (removelast (c :: c2 :: chain')) with (c :: removelast (c2 :: chain'))
        in Hall.
      unfold expandedAll in Hall. cbn [forallb] in Hall.
      apply andb_true_iff in Hall as [Hexp Hall]. rewrite Hexp.
      assert (Hch : (0 <? length (children c))%nat = true).
      { inversion Hc as [|? key2 ? ? ? Hin2 _]; subst.
        apply Nat.ltb_lt. destruct (children c); [destruct Hin2|simpl; lia]. }
      rewrite Hch. simpl.
      apply (IH (key, c) Hin). exists (c2 :: chain'), n.
      split; [exact Hc|]. split; [discriminate|]. split; [exact Hall|].
      f_equal. simpl. lia.
Qed.


(** *** The tri-state of a row *)

Lemma filter_length_all {A} (p : A -> bool) (l : list A) :
  length (List.filter p l) = length l <-> forall x, In x l -> p x = true.
Proof.
  induction l as [|x l IH]; simpl; [split; [intros _ ? []|reflexivity]|].
  pose proof (List.filter_length_le p l) as Hle.
  destruct (p x) eqn:E; simpl.
  - split.
    + intros H y [<-|Hy]; [exact E|]. apply IH; [lia|exact Hy].
    + intros H. f_equal. apply IH. intros y Hy. apply H. now right.
  - split; [lia|]. intros H. specialize (H x (or_introl eq_refl)). congruence.
Qed.

Lemma filter_length_pos {A} (p : A -> bool) (l : list A) :
  0 < length (List.filter p l) <-> exists x, In x l /\ p x = true.
Proof.
  split.
  - destruct (List.filter p l) as [|x l'] eqn:E; [simpl; lia|]. intros _.
    assert (Hx : In x (List.filter p l)) by (rewrite E; now left).
    apply filter_In in Hx. eauto.
  - intros (x & Hx & Hp).
    assert (Hin : In x (List.filter p l)) by (apply filter_In; auto).
    destruct (List.filter p l); [destruct Hin|simpl; lia].
Qed.

Lemma filter_length_lt {A} (p : A -> bool) (l : list A) :
  length (List.filter p l) < length l <-> exists x, In x l /\ p x = false.
Proof.
  pose proof (List.filter_length_le p l) as Hle.
  pose proof (filter_length_all p l) as Hall. split.
  - intros Hlt. clear Hall Hle. induction l as [|x l IH]; [simpl in Hlt; lia|].
    simpl in Hlt. destruct (p x) eqn:E.
    + simpl in Hlt. destruct IH as (y & Hy & Hpy); [lia|].
      exists y. split; [now right|exact Hpy].
    + exists x. split; [now left|exact E].
  - intros (x & Hx & Hp).
    destruct (Nat.eq_dec (length (List.filter p l)) (length l)) as [E|E]; [|lia].
    rewrite (proj1 Hall E x Hx) in Hp. discriminate.
Qed.

Lemma rowOf_marks (expandedPaths : gset string)
      (selectedUrls : gset (option string)) (depth : nat) (node : PathTreeNode) :
  let row := rowOf expandedPaths selectedUrls depth node in
  (Flat.isSelected row = true
   <-> getAllOriginalUrlsFromNode node <> []
       /\ forall u, In u (getAllOriginalUrlsFromNode node) ->
                    loc u ∈ selectedUrls)
  /\ (Flat.isPartiallySelected row = true
      <-> (exists u, In u (getAllOriginalUrlsFromNode node)
                     /\ loc u ∈ selectedUrls)
          /\ (exists u, In u (getAllOriginalUrlsFromNode node)
                        /\ loc u ∉ selectedUrls))
  /\ Flat.isSelected row && Flat.isPartiallySelected row = false.
Proof.
  unfold rowOf; simpl.
  set (all := getAllOriginalUrlsFromNode node).
  set (p := fun u : SitemapUrl => bool_decide (loc u ∈ selectedUrls)).
  pose proof (List.filter_length_le p all) as Hle.
  split; [|split].
  - rewrite andb_true_iff, Nat.eqb_eq, Nat.ltb_lt, filter_length_all.
    split.
    + intros [Hall Hpos]. split.
      * intros E. rewrite E in Hpos. simpl in Hpos. lia.
      * intros u Hu. specialize (Hall u Hu). unfold p in Hall.
        now apply bool_decide_eq_true in Hall.
    + intros [Hne Hall]. split.
      * intros u Hu. unfold p. apply bool_decide_eq_true. auto.
      * destruct all; [congruence|simpl; lia].
  - rewrite andb_true_iff, !Nat.ltb_lt, filter_length_pos, filter_length_lt.
    unfold p. split.
    + intros [(u & Hu & Hp) (v & Hv & Hq)]. split.
      * exists u. split; [exact Hu|]. now apply bool_decide_eq_true in Hp.
      * exists v. split; [exact Hv|]. now apply bool_decide_eq_false in Hq.
    + intros [(u & Hu & Hp) (v & Hv & Hq)]. split.
      * exists u. split; [exact Hu|]. now apply bool_decide_eq_true.
      * exists v. split; [exact Hv|]. now apply bool_decide_eq_false.
  - destruct (Nat.eqb_spec (length (List.filter p all)) (length all)) as [E|E];
      simpl; [|reflexivity].
    rewrite E, Nat.ltb_irrefl. now rewrite !andb_false_r.
Qed.

(** X12. The two selection marks of a row of the flattened view.  A
    row is marked selected exactly when its node's subtree holds a URL
    and the address of every URL of the subtree, excluded ones too, is
    in the selection; it is marked partially selected exactly when some
    address of the subtree is in the selection and some is not.  No row
    carries both marks. *)
Theorem flattenTree_marks
    (root : PathTreeNode) (expandedPaths : gset string)
    (selectedUrls : gset (option string)) :
  Forall
    (fun row =>
       exists chain node,
         Reach root chain node /\ Flat.fullPath row = fullPath node
         /\ (Flat.isSelected row = true
             <-> getAllOriginalUrlsFromNode node <> []
                 /\ forall u, In u (getAllOriginalUrlsFromNode node) ->
                              loc u ∈ selectedUrls)
         /\ (Flat.isPartiallySelected row = true
             <-> (exists u, In u (getAllOriginalUrlsFromNode node)
                            /\ loc u ∈ selectedUrls)
                 /\ (exists u, In u (getAllOriginalUrlsFromNode node)
                               /\ loc u ∉ selectedUrls))
         /\ Flat.isSelected row && Flat.isPartiallySelected row = false)
    (flattenTree' root expandedPaths selectedUrls 0 "").
Proof.
  apply List.Forall_forall. intros row Hrow.
  apply flattenTree_rows in Hrow.
  destruct Hrow as (chain & node & Hreach & _ & _ & ->).
  exists chain, node. split; [exact Hreach|]. split; [reflexivity|].
  apply rowOf_marks.
Qed.

(** *** The collapsed view *)

Lemma flattenTree_collapsed node selectedUrls depth parentPath :
  flattenTree' node ∅ selectedUrls depth parentPath
  = map (fun kv => rowOf ∅ selectedUrls depth (snd kv))
        (sortEntries' (children node)).
Proof.
  rewrite flattenTree_unfold. cbv zeta.
  induction (sortEntries' (children node)) as [|kv l IH]; [reflexivity|].
  cbn [List.flat_map map].
  rewrite bool_decide_eq_false_2 by set_solver. cbn [andb app].
  now rewrite IH.
Qed.

Lemma StronglySorted_map {A B} (R : A -> A -> Prop) (R' : B -> B -> Prop)
      (f : A -> B) (l : list A) :
  (forall x y, R x y -> R' (f x) (f y)) ->
  StronglySorted R l -> StronglySorted R' (map f l).
Proof.
  intros HR. induction 1 as [|x l Hl IH Hx]; simpl; constructor; [exact IH|].
  apply List.Forall_forall. intros y Hy. apply in_map_iff in Hy as (z & <- & Hz).
  apply HR. rewrite List.Forall_forall in Hx. auto.
Qed.

Lemma sortEntries_strongly_sorted {V} (l : list (string * V)) :
  (forall a b, (localeCompare a b <= 0)%Z \/ (localeCompare b a <= 0)%Z) ->
  (forall a b c, (localeCompare a b <= 0)%Z -> (localeCompare b c <= 0)%Z ->
                 (localeCompare a c <= 0)%Z) ->
  StronglySorted inOrder (sortEntries' l).
Proof.
  intros Htotal Htrans. apply Sorted_StronglySorted.
  - intros x y z. unfold keysInOrder. apply Htrans.
  - now apply sortEntries_sorted.
Qed.

(** X13. With no path expanded, the view of a built tree is one row at
    depth 0 for each child of the root, named by its path segment, and
    the rows come in the order of [localeCompare]: no row's name
    compares greater than the name of a later row (for a comparison
    that is total and transitive, as a collation order is). *)
Theorem flattenTree_collapsed_sorted
    (URL_pathname : string -> option string) (us : list SitemapUrl)
    (maxChildrenPerParent : Z) (selectedUrls : gset (option string)) :
  (forall a b, (localeCompare a b <= 0)%Z \/ (localeCompare b a <= 0)%Z) ->
  (forall a b c, (localeCompare a b <= 0)%Z -> (localeCompare b c <= 0)%Z ->
                 (localeCompare a c <= 0)%Z) ->
  let root := tree (buildPathTree URL_pathname us maxChildrenPerParent) in
  let rows := flattenTree' root ∅ selectedUrls 0 "" in
  map Flat.name rows ≡ₚ map fst (children root)
  /\ StronglySorted (fun a b => (localeCompare a b <= 0)%Z) (map Flat.name rows)
  /\ Forall (fun row => Flat.depth row = 0) rows.
Proof.
  intros Htotal Htrans. cbv zeta.
  set (root := tree (buildPathTree URL_pathname us maxChildrenPerParent)).
  destruct (PathTreePaths.built_tree_shape URL_pathname us maxChildrenPerParent)
    as (Hw & _ & _). fold root in Hw.
  rewrite flattenTree_collapsed, map_map. cbn [Flat.name rowOf].
  assert (Enames :
            map (fun kv : string * PathTreeNode => name (snd kv))
                (sortEntries' (children root))
            = map fst (sortEntries' (children root))).
  { apply map_ext_in. intros [key child] Hin.
    apply (proj1 (sortEntries_In _ _)) in Hin.
    destruct (PathTreePaths.WellPlaced_inv _ _ Hw key child Hin) as ((_ & En & _) & _).
    exact En. }
  change (map (fun x : string * PathTreeNode =>
                 Flat.name (rowOf ∅ selectedUrls 0 (snd x)))
              (sortEntries' (children root)))
    with (map (fun kv : string * PathTreeNode => name (snd kv))
              (sortEntries' (children root))).
  rewrite Enames. split; [|split].
  - now rewrite sortEntries_perm.
  - apply (StronglySorted_map inOrder); [intros x y H; exact H|].
    now apply sortEntries_strongly_sorted.
  - apply List.Forall_forall. intros row Hrow.
    apply in_map_iff in Hrow as (kv & <- & _). reflexivity.
Qed.

(** *** Expanding the paths to a node shows it *)

Lemma expandedAll_spec expandedPaths chain :
  expandedAll expandedPaths chain = true
  <-> forall p, In p (map fullPath chain) -> p ∈ expandedPaths.
Proof.
  unfold expandedAll. rewrite forallb_forall. split.
  - intros H p Hp. apply in_map_iff in Hp as (c & <- & Hc).
    specialize (H c Hc). now apply bool_decide_eq_true in H.
  - intros H c Hc. apply bool_decide_eq_true. apply H. now apply in_map.
Qed.

Lemma In_removelast {A} (x : A) (l : list A) : In x (removelast l) -> In x l.
Proof.
  induction l as [|y l IH]; simpl; [tauto|].
  destruct l as [|z l]; [intros []|]. intros [->|H]; [now left|right; auto].
Qed.

(** X14. In a built tree, once every path [getPathsToExpand] returns
    for a node's [fullPath] is in the set of expanded paths, the view
    has the row of that node, at the depth given by the number of the
    node's ancestors below the root. *)
Theorem flattenTree_shows_after_expanding
    (URL_pathname : string -> option string) (us : list SitemapUrl)
    (maxChildrenPerParent : Z) (expandedPaths : gset string)
    (selectedUrls : gset (option string))
    (chain : list PathTreeNode) (node : PathTreeNode) :
  Reach (tree (buildPathTree URL_pathname us maxChildrenPerParent)) chain node ->
  chain <> [] ->
  (forall p, In p (getPathsToExpand (fullPath node)) -> p ∈ expandedPaths) ->
  In (rowOf expandedPaths selectedUrls (length chain - 1) node)
     (flattenTree' (tree (buildPathTree URL_pathname us maxChildrenPerParent))
                   expandedPaths selectedUrls 0 "").
Proof.
  intros Hreach Hne Hexp. apply flattenTree_rows.
  exists chain, node. split; [exact Hreach|]. split; [exact Hne|].
  split; [|reflexivity].
  rewrite (PathTreePaths.built_getPathsToExpand _ _ _ _ _ Hreach) in Hexp.
  apply expandedAll_spec. intros p Hp. apply Hexp.
  apply in_map_iff in Hp as (c & <- & Hc). apply in_map.
  now apply In_removelast.
Qed.

End Flatten.

(** The stand-in comparison is total and transitive. *)
Lemma codeUnitCompare_total a b :
  (PathTreeSample.codeUnitCompare a b <= 0)%Z
  \/ (PathTreeSample.codeUnitCompare b a <= 0)%Z.
Proof.
  unfold PathTreeSample.codeUnitCompare. rewrite (String.compare_antisym b a).
  destruct (String.compare a b); simpl; lia.
Qed.

Lemma codeUnitCompare_trans a b c :
  (PathTreeSample.codeUnitCompare a b <= 0)%Z ->
  (PathTreeSample.codeUnitCompare b c <= 0)%Z ->
  (PathTreeSample.codeUnitCompare a c <= 0)%Z.
Proof.
  unfold PathTreeSample.codeUnitCompare.
  destruct (String.compare a b) eqn:E1;
    [apply String.compare_eq_iff in E1; subst; auto| |lia].
  destruct (String.compare b c) eqn:E2;
    [apply String.compare_eq_iff in E2; subst; rewrite E1; auto| |lia].
  intros _ _.
  assert (H : OrdersEx.String_as_OT.lt a c).
  { eapply (@RelationClasses.StrictOrder_Transitive
              _ _ OrdersEx.String_as_OT.lt_strorder); [exact E1|exact E2]. }
  unfold OrdersEx.String_as_OT.lt in H.
  change (OrdersEx.String_as_OT.compare a c) with (String.compare a c) in H.
  rewrite H. lia.
Qed.

(** Three top-level paths entered as pricing, blog, about: the rows
    come as about, blog, pricing. *)
Lemma flattenTree_collapsed_sorted_witness :
  let root := tree (buildPathTree Toy.URL_pathname PathTreeSample.site 3) in
  let rows := flattenTree PathTreeSample.codeUnitCompare root ∅ ∅ 0 "" in
  (map fst (children root) = ["pricing"; "blog"; "about"]
   /\ map Flat.name rows = ["about"; "blog"; "pricing"])
  /\ map Flat.name rows ≡ₚ map fst (children root)
  /\ StronglySorted (fun a b => (PathTreeSample.codeUnitCompare a b <= 0)%Z)
                    (map Flat.name rows)
  /\ Forall (fun row => Flat.depth row = 0) rows.
Proof.
  split.
  - split; [vm_compute; reflexivity|].
    rewrite flattenTree_collapsed, map_map. vm_compute. reflexivity.
  - apply (flattenTree_collapsed_sorted PathTreeSample.codeUnitCompare
             Toy.URL_pathname PathTreeSample.site 3 ∅).
    + exact codeUnitCompare_total.
    + exact codeUnitCompare_trans.
Defined.

Lemma flattenTree_shows_after_expanding_witness :
  In (rowOf {[ "/docs"; "/docs/a" ]} ∅ 1 PathTreeSample.docsA)
     (flattenTree PathTreeSample.codeUnitCompare
                  (tree (buildPathTree Toy.URL_pathname Toy.docs 3))
                  {[ "/docs"; "/docs/a" ]} ∅ 0 "").
Proof.
  apply (flattenTree_shows_after_expanding PathTreeSample.codeUnitCompare
           Toy.URL_pathname Toy.docs 3 {[ "/docs"; "/docs/a" ]} ∅
           [PathTreeSample.docsDir; PathTreeSample.docsA] PathTreeSample.docsA).
  - vm_compute.
    eapply Reach_child; [left; reflexivity|].
    eapply Reach_child; [left; reflexivity|]. apply Reach_here.
  - discriminate.
  - change (getPathsToExpand (fullPath PathTreeSample.docsA))
      with ["/docs"; "/docs/a"].
    intros p [<-|[<-|[]]]; set_solver.
Defined.

End PathTreeViewFacts.

(** ** The sidebar and the page handlers *)

Module SidebarFacts.
Import PathTree PathTreeShape PathTreeView Selection Sidebar Page PathTreeFacts.

Lemma elem_of_locs (l : list SitemapUrl) (x : option string) :
  x ∈ (list_to_set (map loc l) : gset (option string))
  <-> exists u, In u l /\ loc u = x.
Proof.
  rewrite elem_of_list_to_set, list_elem_of_In, in_map_iff.
  split; intros (u & H1 & H2); eauto.
Qed.

Lemma handleToggleSelect_eq (selectedUrls : gset (option string))
      (urlsToToggle : list SitemapUrl) :
  handleToggleSelect selectedUrls urlsToToggle
  = if bool_decide (list_to_set (map loc urlsToToggle) ⊆ selectedUrls)
    then selectedUrls ∖ list_to_set (map loc urlsToToggle)
    else selectedUrls ∪ list_to_set (map loc urlsToToggle).
Proof.
  unfold handleToggleSelect. cbv zeta. rewrite SelectionFacts.every_selected.
  case_bool_decide;
    [apply SelectionFacts.fold_delete|apply SelectionFacts.fold_add].
Qed.

(** *** Select All and Deselect All *)

Lemma selectAllClick_eq (tree : PathTreeNode)
      (selectedUrls : gset (option string)) :
  selectAllClick tree selectedUrls = selectedUrls ∪ locsOf tree.
Proof.
  unfold selectAllClick, locsOf. cbv zeta.
  set (all := getAllOriginalUrlsFromNode tree).
  set (toAdd := List.filter _ all).
  assert (Hadd : forall u, In u toAdd <-> In u all /\ loc u ∉ selectedUrls).
  { intros u. unfold toAdd. rewrite filter_In, negb_true_iff.
    now rewrite bool_decide_eq_false. }
  destruct (0 <? length toAdd)%nat eqn:E.
  - apply Nat.ltb_lt in E. rewrite handleToggleSelect_eq.
    rewrite bool_decide_eq_false_2.
    + apply set_eq. intros x. rewrite !elem_of_union, !elem_of_locs. split.
      * intros [H|(u & Hu & <-)]; [now left|]. apply Hadd in Hu as [Hu _]. eauto.
      * intros [H|(u & Hu & <-)]; [now left|].
        destruct (decide (loc u ∈ selectedUrls)) as [Hin|Hout]; [now left|].
        right. exists u. split; [|reflexivity]. apply Hadd. auto.
    + intros Hsub. destruct toAdd as [|u toAdd']; [simpl in E; lia|].
      destruct (proj1 (Hadd u) (or_introl eq_refl)) as [_ Hout].
      apply Hout, Hsub, elem_of_locs. exists u. split; [now left|reflexivity].
  - apply Nat.ltb_ge in E. assert (E' : toAdd = []) by (destruct toAdd; simpl in E; [reflexivity|lia]).
    apply set_eq. intros x. rewrite elem_of_union, elem_of_locs. split; [now left|].
    intros [H|(u & Hu & <-)]; [exact H|].
    destruct (decide (loc u ∈ selectedUrls)) as [Hin|Hout]; [exact Hin|].
    assert (Hc : In u toAdd) by (apply Hadd; auto). rewrite E' in Hc. destruct Hc.
Qed.

Lemma deselectAllClick_eq (tree : PathTreeNode)
      (selectedUrls : gset (option string)) :
  deselectAllClick tree selectedUrls = selectedUrls ∖ locsOf tree.
Proof.
  unfold deselectAllClick, locsOf. cbv zeta.
  set (all := getAllOriginalUrlsFromNode tree).
  set (toRemove := List.filter _ all).
  assert (Hrem : forall u, In u toRemove <-> In u all /\ loc u ∈ selectedUrls).
  { intros u. unfold toRemove. rewrite filter_In.
    now rewrite bool_decide_eq_true. }
  destruct (0 <? length toRemove)%nat eqn:E.
  - rewrite handleToggleSelect_eq. rewrite bool_decide_eq_true_2.
    + apply set_eq. intros x. rewrite !elem_of_difference, !elem_of_locs. split.
      * intros [H Hn]. split; [exact H|]. intros (u & Hu & <-).
        apply Hn. exists u. split; [|reflexivity]. apply Hrem. auto.
      * intros [H Hn]. split; [exact H|]. intros (u & Hu & <-).
        apply Hn. exists u. split; [|reflexivity]. now apply Hrem in Hu.
    + intros x Hx. apply elem_of_locs in Hx as (u & Hu & <-).
      now apply Hrem in Hu.
  - apply Nat.ltb_ge in E.
    assert (E' : toRemove = []) by (destruct toRemove; simpl in E; [reflexivity|lia]).
    apply set_eq. intros x. rewrite elem_of_difference, elem_of_locs.
    split; [|tauto]. intros H. split; [exact H|]. intros (u & Hu & <-).
    assert (Hc : In u toRemove) by (apply Hrem; auto). rewrite E' in Hc. destruct Hc.
Qed.

(** X15. The "Select All" button adds the address of every URL of the
    tree, excluded ones too, to the selection and removes nothing from
    it, although it goes through the toggle. *)
Theorem selectAllClick_adds_tree
    (tree : PathTreeNode) (selectedUrls : gset (option string)) :
  selectAllClick tree selectedUrls = selectedUrls ∪ locsOf tree.
Proof. apply selectAllClick_eq. Qed.

(** X16. The "Deselect All" button removes the address of every URL of
    the tree from the selection and keeps every other address. *)
Theorem deselectAllClick_removes_tree
    (tree : PathTreeNode) (selectedUrls : gset (option string)) :
  deselectAllClick tree selectedUrls = selectedUrls ∖ locsOf tree.
Proof. apply deselectAllClick_eq. Qed.

(** *** The rows after the buttons *)

Lemma Reach_orig_incl node chain n :
  Reach node chain n ->
  forall u, In u (getAllOriginalUrlsFromNode n) ->
            In u (getAllOriginalUrlsFromNode node).
Proof.
  induction 1 as [node|node key child chain m Hin Hr IH]; [auto|].
  intros u Hu. rewrite orig_unfold. apply in_or_app. right.
  apply in_flat_map. exists (key, child). split; [exact Hin|]. apply IH, Hu.
Qed.

Lemma markFrom_Reach_orig k chain :
  forall node self st pi n,
    Populated node ->
    Reach (fst (markFrom k self node st pi)) chain n ->
    chain <> [] ->
    getAllOriginalUrlsFromNode n <> [].
Proof.
  induction chain as [|c chain IH]; intros node self st pi n Hp Hr Hne;
    [congruence|].
  inversion Hr as [|? key ? ? ? Hin Hr']; subst.
  pose proof (markFrom_children k self node st pi) as HF.
  destruct (PathTreePaths.Forall2_In_r _ _ _ _ HF Hin)
    as ([key0 child0] & Hin0 & _ & (b & st' & pi' & Ec)).
  cbn [snd] in Ec.
  pose proof (PathTreeStats.Populated_inv _ Hp) as Hall.
  rewrite List.Forall_forall in Hall.
  destruct (Hall _ Hin0) as [Hany Hpc]. cbn [snd] in Hany, Hpc.
  destruct chain as [|c' chain].
  - inversion Hr'; subst. rewrite markFrom_orig.
    pose proof (PathTreeStats.hasAnyUrls_orig _ Hany) as Hlen.
    intros E. rewrite E in Hlen. simpl in Hlen. lia.
  - subst c. eapply IH; [exact Hpc|exact Hr'|discriminate].
Qed.

Lemma built_Reach_orig P us k chain n :
  Reach (tree (buildPathTree P us k)) chain n ->
  chain <> [] ->
  getAllOriginalUrlsFromNode n <> [].
Proof.
  rewrite tree_buildPathTree. intros Hr Hne.
  eapply markFrom_Reach_orig; [apply PathTreeStats.firstPass_Populated|exact Hr|exact Hne].
Qed.

Section View.

Variable localeCompare : string -> string -> Z.

(** X17. After "Select All" every row of the view of a built tree is
    marked selected; after "Deselect All" no row is marked selected or
    partially selected. *)
Theorem select_all_marks_every_row
    (URL_pathname : string -> option string) (us : list SitemapUrl)
    (maxChildrenPerParent : Z) (expandedPaths : gset string)
    (selectedUrls : gset (option string)) :
  let root := tree (buildPathTree URL_pathname us maxChildrenPerParent) in
  Forall (fun row => Flat.isSelected row = true)
         (flattenTree localeCompare root expandedPaths
                      (selectAllClick root selectedUrls) 0 "")
  /\ Forall (fun row => Flat.isSelected row = false
                        /\ Flat.isPartiallySelected row = false)
            (flattenTree localeCompare root expandedPaths
                         (deselectAllClick root selectedUrls) 0 "").
Proof.
  cbv zeta. set (root := tree (buildPathTree URL_pathname us maxChildrenPerParent)).
  split; apply List.Forall_forall; intros row Hrow;
    apply PathTreeViewFacts.flattenTree_rows in Hrow;
    destruct Hrow as (chain & n & Hr & Hne & _ & ->).
  - destruct (PathTreeViewFacts.rowOf_marks expandedPaths
                (selectAllClick root selectedUrls) (0 + (length chain - 1)) n)
      as (Hsel & _ & _).
    apply Hsel. split; [eapply built_Reach_orig; eassumption|].
    intros u Hu. rewrite selectAllClick_eq. apply elem_of_union. right.
    apply elem_of_locs. exists u. split; [|reflexivity].
    eapply Reach_orig_incl; eassumption.
  - destruct (PathTreeViewFacts.rowOf_marks expandedPaths
                (deselectAllClick root selectedUrls) (0 + (length chain - 1)) n)
      as (Hsel & Hpart & _).
    assert (Hnone : forall u, In u (getAllOriginalUrlsFromNode n) ->
                              loc u ∉ deselectAllClick root selectedUrls).
    { intros u Hu. rewrite deselectAllClick_eq. intros Hin.
      apply elem_of_difference in Hin as [_ Hn]. apply Hn.
      apply elem_of_locs. exists u. split; [|reflexivity].
      eapply Reach_orig_incl; eassumption. }
    split.
    + destruct (Flat.isSelected _) eqn:E; [exfalso|reflexivity].
      destruct (proj1 Hsel eq_refl) as [Hne' Hall].
      destruct (getAllOriginalUrlsFromNode n) as [|u l]; [congruence|].
      apply (Hnone u (or_introl eq_refl)), Hall. now left.
    + destruct (Flat.isPartiallySelected _) eqn:E; [exfalso|reflexivity].
      destruct (proj1 Hpart eq_refl) as [(u & Hu & Hin) _].
      exact (Hnone u Hu Hin).
Qed.

(** X18. The checkbox of a row of the view of a built tree acts on the
    subtree of the node the row was made from: on a row marked selected
    it removes the addresses of all URLs of that subtree from the
    selection, on any other row it adds them all. *)
Theorem handleCheckboxClick_row
    (URL_pathname : string -> option string) (us : list SitemapUrl)
    (maxChildrenPerParent : Z) (expandedPaths : gset string)
    (selectedUrls : gset (option string)) :
  let root := tree (buildPathTree URL_pathname us maxChildrenPerParent) in
  Forall
    (fun row =>
       exists chain node,
         Reach root chain node /\ Flat.fullPath row = fullPath node
         /\ handleCheckboxClick root selectedUrls row
            = if Flat.isSelected row then selectedUrls ∖ locsOf node
              else selectedUrls ∪ locsOf node)
    (flattenTree localeCompare root expandedPaths selectedUrls 0 "").
Proof.
  cbv zeta. apply List.Forall_forall. intros row Hrow.
  apply PathTreeViewFacts.flattenTree_rows in Hrow.
  destruct Hrow as (chain & n & Hr & Hne & _ & ->).
  exists chain, n. split; [exact Hr|]. split; [reflexivity|].
  unfold handleCheckboxClick. cbn [Flat.fullPath rowOf].
  rewrite (PathTreePaths.built_getNodeByPath _ _ _ _ _ Hr).
  rewrite handleToggleSelect_eq. fold (locsOf n).
  destruct (PathTreeViewFacts.rowOf_marks expandedPaths selectedUrls
              (0 + (length chain - 1)) n) as (Hsel & _ & _).
  cbv zeta in Hsel.
  destruct (Flat.isSelected _) eqn:E.
  - destruct (proj1 Hsel eq_refl) as [_ Hall].
    rewrite bool_decide_eq_true_2; [reflexivity|].
    intros x Hx. apply elem_of_locs in Hx as (u & Hu & <-). auto.
  - case_bool_decide as Hsub; [|reflexivity].
    assert (Hempty : getAllOriginalUrlsFromNode n = []).
    { destruct (getAllOriginalUrlsFromNode n) as [|u l] eqn:El; [reflexivity|].
      assert (Htrue : false = true); [|discriminate].
      apply Hsel. split; [discriminate|]. intros v Hv.
      apply Hsub, elem_of_locs. exists v. split; [|reflexivity].
      rewrite El. exact Hv. }
    unfold locsOf. rewrite Hempty. simpl. set_solver.
Qed.

End View.

End SidebarFacts.

Module PageFacts.
Import PathTree PathTreeShape PathTreeView Selection Page PathTreeFacts.

Lemma handleToggleSelect_twice_eq
      (selectedUrls : gset (option string)) (urlsToToggle : list SitemapUrl) :
  handleToggleSelect (handleToggleSelect selectedUrls urlsToToggle) urlsToToggle
  = if bool_decide (list_to_set (map loc urlsToToggle) ⊆ selectedUrls)
    then selectedUrls
    else selectedUrls ∖ list_to_set (map loc urlsToToggle).
Proof.
  rewrite !SidebarFacts.handleToggleSelect_eq.
  set (L := list_to_set (map loc urlsToToggle) : gset (option string)).
  clearbody L.
  destruct (decide (L ⊆ selectedUrls)) as [H1|H1].
  - rewrite !(bool_decide_eq_true_2 (L ⊆ selectedUrls)) by exact H1.
    case_bool_decide as H2; apply set_eq; intros x;
      destruct (decide (x ∈ L)); set_solver.
  - rewrite !(bool_decide_eq_false_2 (L ⊆ selectedUrls)) by exact H1.
    rewrite bool_decide_eq_true_2 by (apply union_subseteq_r).
    apply set_eq. intros x. set_solver.
Qed.

(** X19. Toggling the same batch twice: when every address of the
    batch was selected, the selection comes back; when one was not,
    the result is the selection without the addresses of the batch, so
    the second toggle also removes those that were selected at the
    start.  Hence the selection comes back exactly when the batch was
    entirely selected or entirely unselected before. *)
Theorem handleToggleSelect_twice
    (selectedUrls : gset (option string)) (urlsToToggle : list SitemapUrl) :
  let twice :=
    handleToggleSelect (handleToggleSelect selectedUrls urlsToToggle)
                       urlsToToggle in
  ((forall u, In u urlsToToggle -> loc u ∈ selectedUrls) ->
   twice = selectedUrls)
  /\ ((exists u, In u urlsToToggle /\ loc u ∉ selectedUrls) ->
      twice = selectedUrls ∖ list_to_set (map loc urlsToToggle))
  /\ (twice = selectedUrls
      <-> (forall u, In u urlsToToggle -> loc u ∈ selectedUrls)
          \/ (forall u, In u urlsToToggle -> loc u ∉ selectedUrls)).
Proof.
  cbv zeta. rewrite handleToggleSelect_twice_eq.
  set (L := list_to_set (map loc urlsToToggle) : gset (option string)).
  assert (HL : forall u, In u urlsToToggle -> loc u ∈ L).
  { intros u Hu. apply SidebarFacts.elem_of_locs. eauto. }
  assert (HL' : forall x, x ∈ L -> exists u, In u urlsToToggle /\ loc u = x).
  { intros x Hx. now apply SidebarFacts.elem_of_locs in Hx. }
  destruct (decide (L ⊆ selectedUrls)) as [H1|H1].
  - rewrite (bool_decide_eq_true_2 (L ⊆ selectedUrls)) by exact H1.
    split; [reflexivity|]. split.
    + intros (u & Hu & Hout). exfalso. apply Hout, H1, HL, Hu.
    + split; [|reflexivity]. intros _. left. intros u Hu. apply H1, HL, Hu.
  - rewrite (bool_decide_eq_false_2 (L ⊆ selectedUrls)) by exact H1.
    split; [|split; [reflexivity|]].
    + intros Hall. exfalso. apply H1. intros x Hx.
      destruct (HL' x Hx) as (u & Hu & <-). auto.
    + split.
      * intros E. right. intros u Hu Hin.
        assert (Hc : loc u ∈ selectedUrls ∖ L) by (rewrite E; exact Hin).
        apply elem_of_difference in Hc as [_ Hc]. apply Hc, HL, Hu.
      * intros [Hall|Hnone].
        -- exfalso. apply H1. intros x Hx.
           destruct (HL' x Hx) as (u & Hu & <-). auto.
        -- apply set_eq. intros x. rewrite elem_of_difference.
           split; [tauto|]. intros H. split; [exact H|]. intros Hx.
           destruct (HL' x Hx) as (u & Hu & <-). exact (Hnone u Hu H).
Qed.

(** Two of three addresses selected: after two toggles none of the
    three is. *)
Example handleToggleSelect_twice_partly :
  handleToggleSelect
    (handleToggleSelect {[ Some "a"; Some "b" ]}
       [Toy.entry "a"; Toy.entry "b"; Toy.entry "c"])
    [Toy.entry "a"; Toy.entry "b"; Toy.entry "c"]
  = ∅.
Proof.
  rewrite handleToggleSelect_twice_eq.
  rewrite bool_decide_eq_false_2.
  - apply set_eq. intros x. cbn [map]. unfold Toy.entry. cbn [loc]. set_solver.
  - intros H. assert (Hc : Some "c" ∈ ({[ Some "a"; Some "b" ]} : gset (option string))).
    { apply H. cbn [map]. unfold Toy.entry. cbn [loc]. set_solver. }
    set_solver.
Qed.

(** *** [toggleSelectAll] *)

Lemma size_list_to_set_le (l : list (option string)) :
  size (list_to_set l : gset (option string)) <= length l
  /\ (size (list_to_set l : gset (option string)) = length l -> NoDup l).
Proof.
  induction l as [|x l [IHle IHnd]].
  - rewrite list_to_set_nil, size_empty. split; [simpl; lia|intros _; constructor].
  - rewrite list_to_set_cons. cbn [length].
    destruct (decide (x ∈ l)) as [Hin|Hout].
    + assert (E : ({[ x ]} ∪ list_to_set l : gset (option string)) = list_to_set l).
      { apply set_eq. intros y. rewrite elem_of_union, elem_of_singleton,
          elem_of_list_to_set. split; [intros [->|H]; auto|auto]. }
      rewrite E. split; [lia|intros; lia].
    + rewrite size_union by (rewrite disjoint_singleton_l, elem_of_list_to_set; exact Hout).
      rewrite size_singleton. split; [lia|].
      intros E. constructor; [exact Hout|]. apply IHnd. lia.
Qed.

(** X20. From the selection the page selects by itself, the addresses
    of all limited URLs, [toggleSelectAll] clears the selection exactly
    when no two limited URLs share an address; when two do, it leaves
    that selection as it is, however often it is pressed. *)
Theorem toggleSelectAll_clears_iff (limitedUrls : list SitemapUrl) :
  let all := list_to_set (map loc limitedUrls) : gset (option string) in
  (toggleSelectAll all limitedUrls = ∅ <-> NoDup (map loc limitedUrls))
  /\ (~ NoDup (map loc limitedUrls) -> toggleSelectAll all limitedUrls = all).
Proof.
  cbv zeta. unfold toggleSelectAll.
  destruct (size_list_to_set_le (map loc limitedUrls)) as [Hle Hnd].
  rewrite <- (length_map loc limitedUrls).
  destruct (Nat.eqb_spec
              (size (list_to_set (map loc limitedUrls) : gset (option string)))
              (length (map loc limitedUrls))) as [E|E].
  - split; [split; auto|]. intros Hn. destruct (Hn (Hnd E)).
  - split; [|reflexivity]. split.
    + intros Hempty. rewrite Hempty, size_empty in E.
      destruct (map loc limitedUrls) as [|x l]; [constructor|].
      exfalso. assert (Hx : x ∈ (∅ : gset (option string))).
      { rewrite <- Hempty. apply elem_of_list_to_set. now left. }
      set_solver.
    + intros Hno. exfalso. apply E. now apply size_list_to_set.
Qed.

(** *** Expanding a row *)

Lemma Reach_snoc root chain node :
  Reach root chain node ->
  forall key child,
    In (key, child) (children node) -> Reach root (chain ++ [child]) child.
Proof.
  induction 1 as [node|node key0 c chain m Hin Hr IH]; intros key child Hc; simpl.
  - econstructor; [exact Hc|constructor].
  - econstructor; [exact Hin|]. eapply IH, Hc.
Qed.

Lemma Reach_last root chain node :
  Reach root chain node -> chain <> [] -> chain = removelast chain ++ [node].
Proof.
  induction 1 as [node|node key0 c chain m Hin Hr IH]; [congruence|].
  intros _. destruct chain as [|c' chain].
  - inversion Hr; subst. reflexivity.
  - cbn [removelast app]. f_equal. apply IH. discriminate.
Qed.

Lemma expandedAll_app expandedPaths l1 l2 :
  expandedAll expandedPaths (l1 ++ l2)
  = expandedAll expandedPaths l1 && expandedAll expandedPaths l2.
Proof. unfold expandedAll. apply forallb_app. Qed.

Lemma expandedAll_mono (E1 E2 : gset string) l :
  E1 ⊆ E2 -> expandedAll E1 l = true -> expandedAll E2 l = true.
Proof.
  intros Hsub. unfold expandedAll. rewrite !forallb_forall. intros H c Hc.
  specialize (H c Hc). apply bool_decide_eq_true in H.
  apply bool_decide_eq_true. auto.
Qed.

Section View.

Variable localeCompare : string -> string -> Z.

(** X21. Expanding a shown, collapsed row shows its children: when the
    ancestors of a node are all expanded and the node is not, then
    after [handleToggleExpand] on the node's path the view has a row
    for each of the node's children, one level deeper than the node. *)
Theorem handleToggleExpand_shows_children
    (root : PathTreeNode) (expandedPaths : gset string)
    (selectedUrls : gset (option string))
    (chain : list PathTreeNode) (node : PathTreeNode)
    (key : string) (child : PathTreeNode) :
  Reach root chain node ->
  chain <> [] ->
  expandedAll expandedPaths (removelast chain) = true ->
  fullPath node ∉ expandedPaths ->
  In (key, child) (children node) ->
  In (rowOf (handleToggleExpand expandedPaths (fullPath node)) selectedUrls
            (length chain) child)
     (flattenTree localeCompare root
                  (handleToggleExpand expandedPaths (fullPath node))
                  selectedUrls 0 "").
Proof.
  intros Hr Hne Hexp Hout Hc.
  apply PathTreeViewFacts.flattenTree_rows.
  exists (chain ++ [child]), child.
  split; [eapply Reach_snoc; eassumption|].
  split; [destruct chain; discriminate|].
  split.
  - rewrite removelast_last, (Reach_last _ _ _ Hr Hne), expandedAll_app.
    unfold handleToggleExpand. cbv zeta.
    rewrite bool_decide_eq_false_2 by exact Hout.
    apply andb_true_intro. split.
    + eapply expandedAll_mono; [|exact Hexp]. set_solver.
    + simpl. rewrite bool_decide_eq_true_2 by set_solver. reflexivity.
  - f_equal. rewrite length_app. simpl. lia.
Qed.

End View.

(** X22. [handleToggleExpand] on the same path twice gives the set of
    expanded paths back. *)
Theorem handleToggleExpand_twice (expandedPaths : gset string) (path : string) :
  handleToggleExpand (handleToggleExpand expandedPaths path) path = expandedPaths.
Proof.
  unfold handleToggleExpand. cbv zeta.
  destruct (decide (path ∈ expandedPaths)) as [H1|H1].
  - rewrite (bool_decide_eq_true_2 (path ∈ expandedPaths)) by exact H1.
    rewrite bool_decide_eq_false_2 by set_solver.
    apply set_eq. intros x. rewrite elem_of_union, elem_of_difference,
      elem_of_singleton.
    split; [intros [->|[H _]]; auto|].
    intros H. destruct (decide (x = path)); [now left|right; set_solver].
  - rewrite (bool_decide_eq_false_2 (path ∈ expandedPaths)) by exact H1.
    rewrite bool_decide_eq_true_2 by set_solver. set_solver.
Qed.

Lemma handleToggleExpand_shows_children_witness :
  In (rowOf (handleToggleExpand ∅ "/docs") ∅ 1 PathTreeSample.docsA)
     (flattenTree PathTreeSample.codeUnitCompare
                  (tree (buildPathTree Toy.URL_pathname Toy.docs 3))
                  (handleToggleExpand ∅ "/docs") ∅ 0 "").
Proof.
  apply (handleToggleExpand_shows_children PathTreeSample.codeUnitCompare
           (tree (buildPathTree Toy.URL_pathname Toy.docs 3)) ∅ ∅
           [PathTreeSample.docsDir] PathTreeSample.docsDir "a" PathTreeSample.docsA).
  - vm_compute. eapply Reach_child; [left; reflexivity|]. apply Reach_here.
  - discriminate.
  - reflexivity.
  - set_solver.
  - left. reflexivity.
Defined.

End PageFacts.

(** ** The two routes as a whole *)

Module RouteFacts.
Import Eff.

Section ParseSitemapRoute.
Import ParseSitemap.

Variable pf : Platform.
Variable parser_parse : string -> Outcome ParsedXml.
Variable URL_valid : string -> bool.

Lemma resolve_shape u log :
  exists o nested,
    resolve pf parser_parse u log = (o, log ++ u :: nested)
    /\ length nested <= 10
    /\ match o with
       | Returned (Json200 us n) => n = length us
       | Returned _ => False
       | Threw _ => True
       end.
Proof.
  unfold resolve, bind.
  pose proof (ParseSitemapFacts.fetchSitemap_log pf u log) as Hlog.
  destruct (fetchSitemap pf u log) as [[xml|e] log1]; simpl in Hlog; subst log1;
    [|exists (Threw e), []; simpl; split; [reflexivity|split; [lia|exact I]]].
  unfold parseSitemapXml, bind, lift, ret.
  destruct (parser_parse xml) as [parsed|e];
    [|exists (Threw e), []; simpl; split; [reflexivity|split; [lia|exact I]]].
  destruct (isIndex (parseParsed parsed)) as [[|]|e];
    [| exists (Returned (Json200 (parseParsed parsed) (length (parseParsed parsed)))), [];
       simpl; split; [reflexivity|split; [lia|reflexivity]]
     | exists (Threw e), []; simpl; split; [reflexivity|split; [lia|exact I]]].
  destruct (ParseSitemapFacts.fetchNestedSitemaps_spec
              pf parser_parse (parseParsed parsed) (log ++ [u]))
    as (outcomes & _ & _ & E).
  rewrite E. eexists _, _. split; [|split].
  - rewrite <- app_assoc. reflexivity.
  - rewrite length_map, JsFacts.slice_prefix by lia.
    rewrite length_firstn. apply (Nat.le_min_l 10).
  - reflexivity.
Qed.

(** X23. The sitemap route answers every request: it never rejects, it
    sends at most eleven requests, the sitemap itself and up to ten
    nested ones; a 400 answer is given before any request is sent; a
    200 answer carries the length of its URL list as [totalUrls]; a 500
    answer carries an empty URL list and [totalUrls] 0. *)
Theorem POST_always_answers (request : Request) (log : Log) :
  exists response requests,
    POST pf parser_parse URL_valid request log
    = (Returned response, log ++ requests)
    /\ length requests <= 11
    /\ match response with
       | Json200 us n => n = length us
       | Json400 _ => requests = []
       | Json500 _ us n => us = [] /\ n = 0
       end.
Proof.
  destruct request as [e|url]; simpl.
  - eexists _, []. rewrite app_nil_r. split; [reflexivity|].
    split; [simpl; lia|split; reflexivity].
  - destruct (negb (Js.is_truthy url)).
    { eexists _, []. rewrite app_nil_r. split; [reflexivity|].
      split; [simpl; lia|reflexivity]. }
    destruct (negb (URL_valid (Js.to_string url))).
    { eexists _, []. rewrite app_nil_r. split; [reflexivity|].
      split; [simpl; lia|reflexivity]. }
    unfold try_catch.
    destruct (resolve_shape (Js.to_string url) log) as (o & nested & E & Hlen & Ho).
    rewrite E. destruct o as [[us n|err|err us n]|e]; try contradiction.
    + eexists _, _. split; [reflexivity|]. split; [simpl; lia|exact Ho].
    + eexists _, _. split; [reflexivity|]. split; [simpl; lia|split; reflexivity].
Qed.

(** X24. When the sitemap itself is answered with a status outside
    200-299, the route answers 500 after that one request, with the
    message [Failed to fetch sitemap: <status> <statusText>] and no
    URLs; the body of the answer is never read. *)
Theorem POST_sitemap_not_ok (u : string) (log : Log) (t : nat) (r : HttpResponse) :
  Js.truthy u = true ->
  URL_valid u = true ->
  net pf (length log) u = Responds t r ->
  resp_ok r = false ->
  POST pf parser_parse URL_valid (Body (Some u)) log
  = (Returned (Json500 ("Failed to fetch sitemap: "
                        +:+ Js.of_nat (resp_status r) +:+ " "
                        +:+ resp_statusText r) [] 0),
     log ++ [u]).
Proof.
  intros Ht Hv Hnet Hok. simpl. rewrite Ht, Hv. simpl.
  unfold try_catch, resolve, bind, fetchSitemap, bind, fetch.
  rewrite Hnet, Hok. reflexivity.
Qed.

End ParseSitemapRoute.

Lemma POST_sitemap_not_ok_witness :
  ParseSitemap.Sample.POST
    (ParseSitemap.Body (Some "https://example.com/nowhere.xml")) []
  = (Returned (ParseSitemap.Json500 "Failed to fetch sitemap: 404 Not Found" [] 0),
     ["https://example.com/nowhere.xml"]).
Proof.
  apply (POST_sitemap_not_ok ParseSitemap.Sample.pf ParseSitemap.Sample.parser_parse
           ParseSitemap.Sample.URL_valid "https://example.com/nowhere.xml" [] 20
           {| resp_status := 404; resp_statusText := "Not Found";
              resp_text := Returned "" |});
    reflexivity.
Defined.

Section FetchMetaRoute.
Import FetchMeta.

Variable pf : Platform.
Variable cheerio_load : string -> Document.
Variable URL_href : string -> string -> Outcome string.

(** X25. [processUrl] never rejects and sends exactly one request; the
    record it returns names the requested URL; its status is [error]
    exactly when fetching the page or extracting the tags threw, and
    then it carries a message, while a [success] record carries none. *)
Theorem processUrl_status (u : string) (log : Log) :
  exists r,
    processUrl pf cheerio_load URL_href u log = (Returned r, log ++ [u])
    /\ url r = u
    /\ (status r = error
        <-> exists e, fst (attempt pf cheerio_load URL_href u log) = Threw e)
    /\ (status r = error <-> error_message r <> None).
Proof.
  unfold processUrl, try_catch.
  pose proof (FetchMetaFacts.attempt_log pf cheerio_load URL_href u log) as Hlog.
  destruct (attempt pf cheerio_load URL_href u log) as [[r|e] log1] eqn:E;
    simpl in Hlog; subst log1.
  - destruct (FetchMetaFacts.attempt_url _ _ _ _ _ _ _ E) as [Hu Hs].
    exists r. split; [reflexivity|]. split; [exact Hu|]. rewrite Hs. simpl.
    assert (Hm : error_message r = None).
    { revert E. unfold attempt, bind, lift.
      destruct (fetchPageContent pf u log) as [[html|e] log2]; [|discriminate].
      unfold extractMetaTags.
      destruct (findFavicon URL_href (cheerio_load html) u _); [|discriminate].
      intros [= <- _]. reflexivity. }
    rewrite Hm. split; split; try discriminate; try congruence.
    intros [e He]. discriminate.
  - exists (errorRecord u (messageOr "Unknown error" e)).
    split; [reflexivity|]. split; [reflexivity|]. simpl.
    split; split; intros _; try reflexivity; try discriminate. eauto.
Qed.

(** X26. Whatever the pages do, the meta route answers 500 only when
    the body cannot be read as JSON or is the JSON value [null], and
    then before any request.  To every other body it answers 400
    without a request, when [urls] is missing, not an array or empty,
    or 200 after one request for each of the first 50 URLs, in their
    order. *)
Theorem POST_500_only_unreadable_body (request : Request) (log : Log) :
  exists response requests,
    POST pf cheerio_load URL_href request log
    = (Returned response, log ++ requests)
    /\ match response with
       | Json200 _ =>
           exists l, request = Body (Some l) /\ l <> []
                     /\ requests = firstn 50 l
       | Json400 _ =>
           (request = Body None \/ request = Body (Some [])) /\ requests = []
       | Json500 _ _ =>
           ((exists e, request = BadJson e)
            \/ (exists message, request = NullBody message))
           /\ requests = []
       end.
Proof.
  destruct request as [e|message|[[|u l]|]]; simpl.
  - eexists _, []. rewrite app_nil_r. split; [reflexivity|].
    split; [left; eauto|reflexivity].
  - eexists _, []. rewrite app_nil_r. split; [reflexivity|].
    split; [right; eauto|reflexivity].
  - eexists _, []. rewrite app_nil_r. split; [reflexivity|].
    split; [now right|reflexivity].
  - unfold try_catch, respond, bind.
    rewrite JsFacts.slice_prefix by lia.
    change (Z.to_nat 50) with 50.
    destruct (FetchMetaFacts.runBatches_spec pf cheerio_load URL_href
                (firstn 50 (u :: l))
                (Js.for_indices 0 (length (firstn 50 (u :: l))) batchSize) [] log)
      as (rs & E & _).
    cbv zeta in E. rewrite FetchMetaFacts.batches_cover in E. rewrite E.
    eexists _, _. split; [reflexivity|]. exists (u :: l).
    split; [reflexivity|]. split; [discriminate|reflexivity].
  - eexists _, []. rewrite app_nil_r. split; [reflexivity|].
    split; [now left|reflexivity].
Qed.

(** The body [null] is answered with 500 and the message of the
    [TypeError], without a request. *)
Example POST_null_body message log :
  POST pf cheerio_load URL_href (NullBody message) log
  = (Returned (Json500 message
                       {| results := []; processedCount := 0; errorCount := 0 |}),
     log).
Proof. reflexivity. Qed.

(** X27. In a record [extractMetaTags] returns, every entry of
    [allMetaTags] has a non-empty name and a non-empty content and
    stems from a [meta] element of the document: its content is that
    element's [content], its [property] that element's [property], and
    its name the element's [name], [property] or [http-equiv].  Every
    [meta] element with a non-empty [name] and a non-empty [content]
    has its entry, under that name.  The list is no longer than the
    list of [meta] elements. *)
Theorem extractMetaTags_allMetaTags (html u : string) (r : PageMetaData) :
  extractMetaTags cheerio_load URL_href html u = Returned r ->
  Forall (fun tag =>
            tag_name tag <> "" /\ tag_content tag <> ""
            /\ exists el,
                In el (metas (cheerio_load html))
                /\ attr_content el = Some (tag_content tag)
                /\ tag_property tag = attr_property el
                /\ (attr_name el = Some (tag_name tag)
                    \/ attr_property el = Some (tag_name tag)
                    \/ attr_http_equiv el = Some (tag_name tag)))
         (allMetaTags r)
  /\ (forall el n c,
        In el (metas (cheerio_load html)) ->
        attr_name el = Some n -> n <> "" ->
        attr_content el = Some c -> c <> "" ->
        In {| tag_name := n; tag_content := c;
              tag_property := attr_property el |} (allMetaTags r))
  /\ length (allMetaTags r) <= length (metas (cheerio_load html)).
Proof.
  unfold extractMetaTags.
  destruct (findFavicon URL_href (cheerio_load html) u _); [|discriminate].
  intros [= <-]. cbn [allMetaTags]. unfold collectMetaTags.
  set (f := fun el : MetaElement => _).
  assert (Hf : forall el tag,
             f el = Some tag ->
             tag_name tag <> "" /\ tag_content tag <> ""
             /\ attr_content el = Some (tag_content tag)
             /\ tag_property tag = attr_property el
             /\ (attr_name el = Some (tag_name tag)
                 \/ attr_property el = Some (tag_name tag)
                 \/ attr_http_equiv el = Some (tag_name tag))).
  { intros el tag. unfold f.
    destruct (Js.or_else (attr_name el) _) as [n|] eqn:En; [|discriminate].
    destruct (Js.truthy n) eqn:Tn; simpl; [|discriminate].
    destruct (Js.truthy (Js.to_string _)) eqn:Tc; simpl; [|discriminate].
    intros [= <-]. cbn [tag_name tag_content tag_property].
    split; [intros E; rewrite E in Tn; discriminate|].
    split; [intros E; rewrite E in Tc; discriminate|].
    split.
    { revert Tc. unfold Js.or_else.
      destruct (attr_content el) as [c|]; [|discriminate].
      destruct (Js.truthy c); [reflexivity|discriminate]. }
    split; [reflexivity|].
    revert En. unfold Js.or_else.
    destruct (attr_name el) as [x|].
    - destruct (Js.truthy x); [intros [= ->]; now left|].
      destruct (attr_property el) as [y|].
      + destruct (Js.truthy y); [intros [= ->]; right; now left|].
        intros ->. right. now right.
      + intros ->. right. now right.
    - destruct (attr_property el) as [y|].
      + destruct (Js.truthy y); [intros [= ->]; right; now left|].
        intros ->. right. now right.
      + intros ->. right. now right. }
  assert (Hg : forall el n c,
             attr_name el = Some n -> n <> "" ->
             attr_content el = Some c -> c <> "" ->
             f el = Some {| tag_name := n; tag_content := c;
                            tag_property := attr_property el |}).
  { intros el n c Hn Hne Hc Hce. unfold f, Js.or_else. rewrite Hn, Hc.
    assert (Tn : Js.truthy n = true).
    { unfold Js.truthy. destruct (String.eqb_spec n ""); [contradiction|reflexivity]. }
    assert (Tc : Js.truthy c = true).
    { unfold Js.truthy. destruct (String.eqb_spec c ""); [contradiction|reflexivity]. }
    rewrite Tn, Tc. cbn [Js.to_string]. now rewrite Tn, Tc. }
  clearbody f.
  induction (metas (cheerio_load html)) as [|el els (IH1 & IH2 & IH3)].
  - split; [constructor|]. split; [intros ? ? ? []|reflexivity].
  - cbn [omap list_omap length]. fold (omap f els).
    split; [|split].
    + destruct (f el) as [tag|] eqn:Ef.
      * constructor.
        -- destruct (Hf el tag Ef) as (H1 & H2 & H3 & H4 & H5).
           split; [exact H1|]. split; [exact H2|].
           exists el. split; [now left|]. auto.
        -- eapply Forall_impl; [exact IH1|]. cbv beta.
           intros tag' (H1 & H2 & el' & Hin & H3). split; [exact H1|].
           split; [exact H2|]. exists el'. split; [now right|exact H3].
      * eapply Forall_impl; [exact IH1|]. cbv beta.
        intros tag' (H1 & H2 & el' & Hin & H3). split; [exact H1|].
        split; [exact H2|]. exists el'. split; [now right|exact H3].
    + intros el' n c [<-|Hin] Hn Hne Hc Hce.
      * rewrite (Hg el n c Hn Hne Hc Hce). now left.
      * destruct (f el); [right|]; eapply IH2; eassumption.
    + destruct (f el); cbn [length]; lia.
Qed.

End FetchMetaRoute.

(** A document with five [meta] elements, two of them without a
    usable name or content: three entries, in document order. *)
Lemma extractMetaTags_allMetaTags_witness :
  exists r,
    FetchMeta.extractMetaTags FetchMeta.Sample.describedPage
      FetchMeta.Sample.URL_href "<html>" "https://example.com/" = Returned r
    /\ allMetaTags r
       = [ {| tag_name := "description"; tag_content := "A page";
              tag_property := None |};
           {| tag_name := "og:title"; tag_content := "Title";
              tag_property := Some "og:title" |};
           {| tag_name := "refresh"; tag_content := "30";
              tag_property := None |} ]
    /\ Forall (fun tag =>
                 tag_name tag <> "" /\ tag_content tag <> ""
                 /\ exists el,
                     In el (FetchMeta.metas (FetchMeta.Sample.describedPage "<html>"))
                     /\ FetchMeta.attr_content el = Some (tag_content tag)
                     /\ tag_property tag = FetchMeta.attr_property el
                     /\ (FetchMeta.attr_name el = Some (tag_name tag)
                         \/ FetchMeta.attr_property el = Some (tag_name tag)
                         \/ FetchMeta.attr_http_equiv el = Some (tag_name tag)))
              (allMetaTags r)
    /\ (forall el n c,
          In el (FetchMeta.metas (FetchMeta.Sample.describedPage "<html>")) ->
          FetchMeta.attr_name el = Some n -> n <> "" ->
          FetchMeta.attr_content el = Some c -> c <> "" ->
          In {| tag_name := n; tag_content := c;
                tag_property := FetchMeta.attr_property el |} (allMetaTags r))
    /\ length (allMetaTags r)
       <= length (FetchMeta.metas (FetchMeta.Sample.describedPage "<html>")).
Proof.
  eexists. split; [reflexivity|]. split; [reflexivity|].
  apply (extractMetaTags_allMetaTags FetchMeta.Sample.describedPage
           FetchMeta.Sample.URL_href "<html>" "https://example.com/").
  reflexivity.
Defined.

End RouteFacts.

(** ** The CSV export *)

Module ExportFacts.
Import ExportCsv.

Lemma append_cons (c : ascii) (a b : string) :
  String c a +:+ b = String c (a +:+ b).
Proof. reflexivity. Qed.

Lemma append_nil_l (b : string) : "" +:+ b = b.
Proof. reflexivity. Qed.

Lemma append_assoc (a b c : string) : (a +:+ b) +:+ c = a +:+ (b +:+ c).
Proof.
  induction a as [|x a IH]; [reflexivity|].
  rewrite !append_cons. now rewrite IH.
Qed.

Lemma append_nil_r (a : string) : a +:+ "" = a.
Proof.
  induction a as [|x a IH]; [reflexivity|]. rewrite append_cons. now rewrite IH.
Qed.

Lemma includes_char c s :
  Js.includes (String c EmptyString) s = false -> ~ occurs c s.
Proof.
  induction s as [|d s IH]; simpl; [tauto|].
  destruct (ascii_dec c d) as [->|Hne].
  - destruct s; discriminate.
  - simpl. intros H [E|Ho]; [contradiction|]. exact (IH H Ho).
Qed.

Lemma readFrom_plain v :
  ~ occurs comma v -> ~ occurs quote v -> ~ occurs lineFeed v ->
  forall rest field record records,
    readFrom Unquoted (v +:+ rest) field record records
    = readFrom Unquoted rest (field +:+ v) record records.
Proof.
  induction v as [|c v IH]; intros Hc Hq Hl rest field record records.
  - now rewrite append_nil_l, append_nil_r.
  - rewrite append_cons. cbn [readFrom]. simpl in Hc, Hq, Hl.
    destruct (Ascii.eqb_spec c comma) as [->|_]; [tauto|].
    destruct (Ascii.eqb_spec c lineFeed) as [->|_]; [tauto|].
    destruct (Ascii.eqb_spec c quote) as [->|_]; [tauto|].
    rewrite IH by tauto. unfold snoc. now rewrite append_assoc.
Qed.

Lemma readFrom_start text field record records :
  match text with String c _ => c <> quote | EmptyString => True end ->
  readFrom FieldStart text field record records
  = readFrom Unquoted text field record records.
Proof.
  destruct text as [|c rest]; simpl; [reflexivity|]. intros Hc.
  destruct (Ascii.eqb_spec c quote) as [->|_]; [contradiction|reflexivity].
Qed.

Lemma readFrom_closed text field record records :
  atDelimiter text ->
  readFrom QuoteSeen text field record records
  = readFrom Unquoted text field record records.
Proof.
  destruct text as [|c rest]; simpl; [reflexivity|].
  intros [->| ->]; reflexivity.
Qed.

Lemma readFrom_quoted v :
  forall rest field record records,
    readFrom Quoted (doubleQuotes v +:+ String quote rest) field record records
    = readFrom QuoteSeen rest (field +:+ v) record records.
Proof.
  induction v as [|c v IH]; intros rest field record records.
  - cbn [doubleQuotes]. rewrite append_nil_l, append_nil_r. cbn [readFrom].
    now rewrite Ascii.eqb_refl.
  - cbn [doubleQuotes]. destruct (Ascii.eqb_spec c quote) as [->|Hne].
    + rewrite !append_cons. cbn [readFrom]. rewrite Ascii.eqb_refl.
      change (Ascii.eqb quote comma) with false.
      change (Ascii.eqb quote lineFeed) with false.
      cbn iota. rewrite ?Ascii.eqb_refl. rewrite IH. unfold snoc.
      now rewrite append_assoc.
    + rewrite append_cons. cbn [readFrom].
      rewrite (proj2 (Ascii.eqb_neq c quote) Hne).
      rewrite IH. unfold snoc. now rewrite append_assoc.
Qed.

(** One escaped value, followed by the end of the field, is read back
    as the value. *)
Lemma readFrom_escapeCSV v rest record records :
  atDelimiter rest ->
  readFrom FieldStart (escapeCSV (Some v) +:+ rest) "" record records
  = readFrom Unquoted rest v record records.
Proof.
  intros Hrest. unfold escapeCSV.
  destruct (Js.includes (String comma EmptyString) v) eqn:Ec;
    [|destruct (Js.includes (String quote EmptyString) v) eqn:Eq;
      [|destruct (Js.includes (String lineFeed EmptyString) v) eqn:El]];
    cbn [orb].
  4:{ apply includes_char in Ec, Eq, El.
      rewrite readFrom_start.
      - now rewrite readFrom_plain.
      - destruct v as [|c v].
        + rewrite append_nil_l. destruct rest as [|c rest]; [exact I|].
          destruct Hrest as [->| ->]; discriminate.
        + rewrite append_cons. intros ->. apply Eq. now left. }
  all: rewrite append_assoc, !append_cons, append_nil_l; cbn [readFrom];
    change (Ascii.eqb quote comma) with false;
    change (Ascii.eqb quote lineFeed) with false;
    cbn iota; rewrite Ascii.eqb_refl;
    rewrite readFrom_quoted; now apply readFrom_closed.
Qed.

(** A line of escaped values, followed by the end of the text or by a
    line feed, is read back as one record. *)
Lemma readFrom_csvLine row :
  row <> [] ->
  forall record records,
    readFrom FieldStart (csvLine row) "" record records
    = records ++ [record ++ row]
    /\ forall rest,
        readFrom FieldStart (csvLine row +:+ String lineFeed rest) "" record records
        = readFrom FieldStart rest "" [] (records ++ [record ++ row]).
Proof.
  unfold csvLine, Js.join.
  induction row as [|v row IH]; [congruence|]. intros _ record records.
  destruct row as [|w row].
  - cbn [map String.concat]. split.
    + rewrite <- (append_nil_r (escapeCSV (Some v))).
      rewrite readFrom_escapeCSV by exact I. reflexivity.
    + intros rest. rewrite readFrom_escapeCSV by (now right).
      reflexivity.
  - destruct (IH ltac:(discriminate) (record ++ [v]) records) as [IH1 IH2].
    change (String.concat (String comma "")
              (map (fun value => escapeCSV (Some value)) (v :: w :: row)))
      with (escapeCSV (Some v)
            +:+ (String comma ""
                 +:+ String.concat (String comma "")
                       (map (fun value => escapeCSV (Some value)) (w :: row)))).
    split.
    + rewrite readFrom_escapeCSV by (now left).
      rewrite append_cons, append_nil_l. cbn [readFrom].
      change (Ascii.eqb comma comma) with true. cbn iota.
      rewrite IH1. now rewrite <- app_assoc.
    + intros rest. rewrite append_assoc.
      rewrite readFrom_escapeCSV by (rewrite append_assoc; now left).
      rewrite append_assoc, append_cons, append_nil_l. cbn [readFrom].
      change (Ascii.eqb comma comma) with true. cbn iota.
      rewrite IH2. now rewrite <- app_assoc.
Qed.

Lemma readFrom_lines rows :
  rows <> [] ->
  Forall (fun row => row <> []) rows ->
  forall records,
    readFrom FieldStart
             (Js.join (String lineFeed EmptyString) (map csvLine rows))
             "" [] records
    = records ++ rows.
Proof.
  unfold Js.join. induction rows as [|row rows IH]; [congruence|].
  intros _ Hall records. inversion Hall as [|? ? Hrow Hrows]; subst.
  destruct (readFrom_csvLine row Hrow [] records) as [H1 H2].
  destruct rows as [|row' rows].
  - cbn [map String.concat]. exact H1.
  - change (String.concat (String lineFeed "") (map csvLine (row :: row' :: rows)))
      with (csvLine row
            +:+ (String lineFeed ""
                 +:+ String.concat (String lineFeed "") (map csvLine (row' :: rows)))).
    rewrite append_cons, append_nil_l.
    rewrite H2, IH by (discriminate || exact Hrows).
    now rewrite <- app_assoc.
Qed.

(** X28. The CSV text can be read back: a reader that takes commas as
    field separators, line feeds as record separators and doubled
    quotes inside quoted fields as one quote gets from [csvContent]
    the header record followed by one record of seventeen fields for
    each item, every field character for character, whatever commas,
    quotes and line feeds the values hold. *)
Theorem csvContent_reads_back (data : list PageMetaData) :
  readCSV (csvContent data) = headers :: map rowOf data.
Proof.
  unfold readCSV, csvContent. cbv zeta.
  change (csvLine headers :: map csvLine (map rowOf data))
    with (map csvLine (headers :: map rowOf data)).
  rewrite readFrom_lines; [reflexivity|discriminate|].
  constructor; [discriminate|].
  apply List.Forall_forall. intros row Hrow.
  apply in_map_iff in Hrow as (item & <- & _). discriminate.
Qed.

Example csvContent_sample :
  csvLine ["a,b"; "plain"; String quote "x"]
  = String quote "a,b" +:+ String quote ",plain,"
    +:+ String quote (String quote (String quote "x")) +:+ String quote "".
Proof. reflexivity. Qed.

End ExportFacts.

(** ** The page against the meta route *)

Module ClientFacts.
Import Eff FetchMeta.

Lemma chunks_cover_step {A} (step m : nat) :
  forall l : list A,
    0 < step ->
    length l <= m * step ->
    List.flat_map (fun j => firstn step (skipn (j * step) l)) (seq 0 m) = l.
Proof.
  induction m as [|m IH]; intros l Hstep Hl.
  - destruct l; [reflexivity|simpl in Hl; lia].
  - cbn [seq List.flat_map]. rewrite <- seq_shift, FetchMetaFacts.flat_map_after_map.
    rewrite Nat.mul_0_l. change (skipn 0 l) with l.
    transitivity (firstn step l ++ skipn step l); [|apply firstn_skipn].
    f_equal.
    etransitivity; [|apply (IH (skipn step l) Hstep)].
    + apply flat_map_ext. intros j. f_equal.
      rewrite skipn_skipn. f_equal. lia.
    + rewrite length_skipn. lia.
Qed.

Lemma client_batches_cover {A} (l : list A) :
  List.flat_map
    (fun i => Js.slice (Z.of_nat i) (Z.of_nat (i + Client.batchSize)) l)
    (Js.for_indices 0 (length l) Client.batchSize)
  = l.
Proof.
  unfold Js.for_indices. rewrite FetchMetaFacts.flat_map_after_map.
  etransitivity;
    [|apply (chunks_cover_step Client.batchSize
               ((length l - 0 + (Client.batchSize - 1)) / Client.batchSize) l)].
  - apply flat_map_ext. intros j. rewrite JsFacts.slice_nat. f_equal. lia.
  - unfold Client.batchSize. lia.
  - unfold Client.batchSize.
    pose proof (Nat.div_mod_eq (length l - 0 + (10 - 1)) 10) as D.
    pose proof (Nat.mod_upper_bound (length l - 0 + (10 - 1)) 10) as U.
    lia.
Qed.

Section Route.

Variable pf : Platform.
Variable cheerio_load : string -> Document.
Variable URL_href : string -> string -> Outcome string.
Variable percent : nat -> nat -> Z.

Abbreviation route := (Client.route pf cheerio_load URL_href).

Lemma route_batch batch log :
  batch <> [] ->
  length batch <= 50 ->
  exists data,
    route batch log = (Returned (Json200 data), log ++ batch)
    /\ map url (results data) = batch.
Proof.
  intros Hne Hlen. unfold Client.route.
  destruct batch as [|u0 batch0]; [congruence|].
  set (batch := u0 :: batch0) in *.
  change (POST pf cheerio_load URL_href (Body (Some batch)))
    with (try_catch (respond pf cheerio_load URL_href batch)
                    (fun e => ret (failure e))).
  unfold try_catch, respond. cbv zeta.
  destruct (FetchMetaFacts.runBatches_spec pf cheerio_load URL_href
              (Js.slice 0 50 batch)
              (Js.for_indices 0 (length (Js.slice 0 50 batch)) batchSize)
              [] log) as (rs & E & Hrs).
  cbv zeta in E, Hrs. rewrite FetchMetaFacts.batches_cover in E, Hrs.
  rewrite JsFacts.slice_prefix in E, Hrs by lia.
  change (Z.to_nat 50) with 50 in E, Hrs.
  rewrite firstn_all2 in E, Hrs by exact Hlen.
  unfold bind at 1. rewrite JsFacts.slice_prefix by lia.
  change (Z.to_nat 50) with 50. rewrite (firstn_all2 _ Hlen), E. simpl app.
  unfold ret. eexists. split; [reflexivity|]. exact Hrs.
Qed.

Lemma fetchLoop_route urlsToFetch starts :
  forall allResults st log,
    (forall i, In i starts -> i < length urlsToFetch) ->
    Client.metaResults st = allResults ->
    let batches :=
      List.flat_map
        (fun i => Js.slice (Z.of_nat i) (Z.of_nat (i + Client.batchSize)) urlsToFetch)
        starts in
    exists st' rs,
      Client.fetchLoop route percent urlsToFetch starts allResults st log
      = (Returned st', log ++ batches)
      /\ Client.metaResults st' = allResults ++ rs
      /\ map url rs = batches
      /\ Client.errorText st' = Client.errorText st.
Proof.
  induction starts as [|i starts IH]; intros allResults st log Hstarts Hst; cbv zeta.
  - exists st, []. simpl. unfold ret. rewrite !app_nil_r. auto.
  - cbn [Client.fetchLoop List.flat_map]. cbv zeta.
    set (batch := Js.slice (Z.of_nat i) (Z.of_nat (i + Client.batchSize)) urlsToFetch).
    assert (Hi : i < length urlsToFetch) by (apply Hstarts; now left).
    assert (Hbatch : batch = firstn Client.batchSize (skipn i urlsToFetch)).
    { unfold batch. rewrite JsFacts.slice_nat. f_equal. lia. }
    destruct (route_batch batch log) as (data & E & Hdata).
    { rewrite Hbatch. intros Hnil. apply (f_equal (@length _)) in Hnil.
      rewrite length_firstn, length_skipn in Hnil.
      unfold Client.batchSize in Hnil. change (@length string []) with 0 in Hnil.
      lia. }
    { rewrite Hbatch, length_firstn. unfold Client.batchSize. lia. }
    unfold try_catch, bind at 1. rewrite E.
    edestruct (IH (allResults ++ results data)
                 {| Client.isFetchingMeta := Client.isFetchingMeta st;
                    Client.errorText := Client.errorText st;
                    Client.metaResults := allResults ++ results data;
                    Client.progress :=
                      percent (length (allResults ++ results data))
                              (length urlsToFetch) |}
                 (log ++ batch))
      as (st' & rs & E' & Hm & Hu & He).
    { intros j Hj. apply Hstarts. now right. }
    { reflexivity. }
    cbv zeta in E'. rewrite E'.
    exists st', (results data ++ rs). split; [now rewrite app_assoc|].
    split; [now rewrite Hm, app_assoc|]. split; [|exact He].
    rewrite map_app. congruence.
Qed.

(** X29. The page and the route together: for a non-empty selection,
    [handleFetchMetaTags] against the meta route ends with one result
    for each selected URL, in the order of the selection, after one
    page request per URL in that order; no error is set, the progress
    is 100 and the fetching flag is off.  The page's batches of 10 stay
    under the route's cap of 50, so no URL is dropped. *)
Theorem handleFetchMetaTags_covers_selection
    (urlsToFetch : list string) (st : Client.PageState) (log : Log) :
  urlsToFetch <> [] ->
  exists st',
    Client.handleFetchMetaTags route percent urlsToFetch st log
    = (Returned st', log ++ urlsToFetch)
    /\ map url (Client.metaResults st') = urlsToFetch
    /\ Client.errorText st' = None
    /\ Client.progress st' = 100%Z
    /\ Client.isFetchingMeta st' = false.
Proof.
  intros Hne. unfold Client.handleFetchMetaTags.
  destruct urlsToFetch as [|u0 us0]; [congruence|].
  set (urlsToFetch := u0 :: us0) in *.
  change (length urlsToFetch =? 0)%nat with false. cbv iota zeta.
  edestruct (fetchLoop_route urlsToFetch
               (Js.for_indices 0 (length urlsToFetch) Client.batchSize) []
               {| Client.isFetchingMeta := true; Client.errorText := None;
                  Client.metaResults := []; Client.progress := 0 |} log)
    as (st' & rs & E & Hm & Hu & He).
  { intros i Hi. apply JsFacts.for_indices_spec in Hi as (j & _ & Hlt);
      [exact Hlt|unfold Client.batchSize; lia]. }
  { reflexivity. }
  cbv zeta in E. rewrite client_batches_cover in E, Hu.
  unfold bind. rewrite E. unfold ret. eexists. split; [reflexivity|].
  cbn [Client.metaResults Client.errorText Client.progress Client.isFetchingMeta].
  rewrite Hm. simpl app. repeat split; [exact Hu|exact He].
Qed.

End Route.

Lemma handleFetchMetaTags_covers_selection_witness :
  exists st',
    Client.handleFetchMetaTags
      (Client.route FetchMeta.Sample.pf FetchMeta.Sample.cheerio_load
                    FetchMeta.Sample.URL_href)
      (fun _ _ => 0%Z)
      ["https://example.com/missing"; "https://example.com/"]
      {| Client.isFetchingMeta := false; Client.errorText := None;
         Client.metaResults := []; Client.progress := 0 |} []
    = (Returned st', [] ++ ["https://example.com/missing"; "https://example.com/"])
    /\ map url (Client.metaResults st')
       = ["https://example.com/missing"; "https://example.com/"]
    /\ Client.errorText st' = None
    /\ Client.progress st' = 100%Z
    /\ Client.isFetchingMeta st' = false.
Proof.
  apply (handleFetchMetaTags_covers_selection FetchMeta.Sample.pf
           FetchMeta.Sample.cheerio_load FetchMeta.Sample.URL_href
           (fun _ _ => 0%Z)).
  discriminate.
Defined.

End ClientFacts.

(** ** Where the first pass puts a URL *)

Module PathTreePlacement.
Import PathTree PathTreeShape Sidebar PathTreeFacts.

(** The node at [parts] exists and holds [u]. *)
Abbreviation holds parts u node :=
  (exists n, nodeAt parts node = Some n /\ In u (urls n)).

Lemma get_cons key k c (cs : list (string * PathTreeNode)) :
  get key ((k, c) :: cs) = if String.eqb k key then Some c else get key cs.
Proof. unfold get. simpl. destruct (String.eqb k key); reflexivity. Qed.

Lemma get_alter_same f key (cs : list (string * PathTreeNode)) :
  get key (alter_child f key cs) = f <$> get key cs.
Proof.
  induction cs as [|[k c] cs IH]; [reflexivity|]. simpl.
  destruct (String.eqb k key) eqn:E; rewrite !get_cons, E; [reflexivity|exact IH].
Qed.

Lemma get_alter_other f key key' (cs : list (string * PathTreeNode)) :
  key' <> key -> get key' (alter_child f key cs) = get key' cs.
Proof.
  intros Hne. induction cs as [|[k c] cs IH]; [reflexivity|]. simpl.
  destruct (String.eqb k key) eqn:E; rewrite !get_cons.
  - apply String.eqb_eq in E. subst k.
    now rewrite (proj2 (String.eqb_neq key key')) by congruence.
  - now rewrite IH.
Qed.

Lemma get_app_l key (cs cs' : list (string * PathTreeNode)) c :
  get key cs = Some c -> get key (cs ++ cs') = Some c.
Proof.
  induction cs as [|[k c0] cs IH]; [discriminate|]. simpl.
  rewrite !get_cons. destruct (String.eqb k key); [auto|exact IH].
Qed.

Lemma get_app_fresh key (cs : list (string * PathTreeNode)) c :
  has key cs = false -> get key (cs ++ [(key, c)]) = Some c.
Proof.
  induction cs as [|[k c0] cs IH]; simpl.
  - intros _. now rewrite get_cons, String.eqb_refl.
  - intros H. apply orb_false_iff in H as [Hk Hcs].
    rewrite get_cons, Hk. exact (IH Hcs).
Qed.

Lemma get_has key (cs : list (string * PathTreeNode)) c :
  get key cs = Some c -> has key cs = true.
Proof.
  induction cs as [|[k c0] cs IH]; [discriminate|]. simpl.
  rewrite get_cons. destruct (String.eqb k key); [reflexivity|exact IH].
Qed.

(** The traversal of [u] ends at the node of its parts and leaves [u]
    there. *)
Lemma descend_places u rest :
  forall seen node, holds rest u (descend u seen rest node).
Proof.
  induction rest as [|segment rest IH]; intros seen node.
  - exists (descend u seen [] node). split; [reflexivity|].
    simpl. apply in_or_app. right. now left.
  - cbn [descend nodeAt]. cbv zeta. cbn [children set_children].
    rewrite get_alter_same.
    destruct (has segment (children node)) eqn:Eh.
    + destruct (get segment (children node)) as [c|] eqn:Eg.
      * simpl. apply IH.
      * exfalso. clear -Eh Eg. induction (children node) as [|[k c] cs IHc];
          [discriminate|]. simpl in Eh. rewrite get_cons in Eg.
        destruct (String.eqb k segment); [discriminate|auto].
    + rewrite get_app_fresh by exact Eh. simpl. apply IH.
Qed.

(** The traversal of another URL moves nothing that is already in
    place. *)
Lemma descend_keeps u v rest :
  forall seen parts node,
    holds parts u node -> holds parts u (descend v seen rest node).
Proof.
  induction rest as [|segment rest IH]; intros seen parts node (n & Hat & Hin).
  - destruct parts as [|key parts].
    + injection Hat as <-. eexists. split; [reflexivity|].
      simpl. apply in_or_app. now left.
    + exists n. split; [exact Hat|exact Hin].
  - destruct parts as [|key parts].
    + injection Hat as <-. eexists. split; [reflexivity|]. exact Hin.
    + cbn [nodeAt] in Hat. cbn [descend nodeAt]. cbv zeta.
      cbn [children set_children].
      destruct (get key (children node)) as [c|] eqn:Eg; [|discriminate].
      destruct (String.eqb_spec key segment) as [->|Hne].
      * rewrite (get_has _ _ _ Eg), get_alter_same, Eg. simpl.
        apply IH. eauto.
      * rewrite get_alter_other by exact Hne.
        destruct (has segment (children node)).
        -- rewrite Eg. eauto.
        -- rewrite (get_app_l _ _ _ _ Eg). eauto.
Qed.

Lemma fold_addUrl_keeps P us :
  forall parts u root,
    holds parts u root -> holds parts u (fold_left (addUrl P) us root).
Proof.
  induction us as [|v us IH]; intros parts u root H; [exact H|].
  simpl. apply IH. unfold addUrl.
  destruct (P (Js.to_string (loc v))); [|exact H].
  now apply descend_keeps.
Qed.

Lemma firstPass_places P us u pathname :
  In u us ->
  P (Js.to_string (loc u)) = Some pathname ->
  holds (pathPartsOf pathname) u (firstPass P us).
Proof.
  intros Hin Hp. unfold firstPass. generalize emptyRoot.
  induction us as [|v us IH]; [destruct Hin|]. intros root.
  simpl. destruct Hin as [->|Hin]; [|apply IH, Hin].
  apply fold_addUrl_keeps. unfold addUrl. rewrite Hp. apply descend_places.
Qed.

Lemma markFrom_nodeAt k parts :
  forall node self st pi n,
    nodeAt parts node = Some n ->
    exists n', nodeAt parts (fst (markFrom k self node st pi)) = Some n'
               /\ urls n' = urls n.
Proof.
  induction parts as [|key parts IH]; intros node self st pi n Hat.
  - injection Hat as <-. eexists. split; [reflexivity|].
    pose proof (markFrom_fields k self node st pi) as F. cbv zeta in F.
    destruct F as (_ & _ & Hu & _). exact Hu.
  - cbn [nodeAt] in *. rewrite markFrom_children_eq.
    destruct (get key (children node)) as [c|] eqn:Eg; [|discriminate].
    match goal with
    | |- context [forEachChild ?body (children node) st] =>
        pose proof (forEachChild_get body (children node) st key) as Hget
    end.
    rewrite Eg in Hget. destruct Hget as [st' Hget]. rewrite Hget.
    cbv zeta. apply IH, Hat.
Qed.

(** X30. Every entry whose address parses is in the built tree at the
    node its pathname names: [getNodeByPath(tree, pathname)] finds a
    node, and the entry is among that node's own [urls] (for a pathname
    without segments that node is the root). *)
Theorem buildPathTree_places_urls
    (URL_pathname : string -> option string) (us : list SitemapUrl)
    (maxChildrenPerParent : Z) (u : SitemapUrl) (pathname : string) :
  In u us ->
  URL_pathname (Js.to_string (loc u)) = Some pathname ->
  exists node,
    getNodeByPath (tree (buildPathTree URL_pathname us maxChildrenPerParent))
                  pathname = Some node
    /\ In u (urls node).
Proof.
  intros Hin Hp.
  destruct (firstPass_places URL_pathname us u pathname Hin Hp) as (n & Hat & Hu).
  unfold getNodeByPath. rewrite tree_buildPathTree.
  destruct (markFrom_nodeAt maxChildrenPerParent _ _
              (isIncluded (firstPass URL_pathname us))
              {| totalOriginalUrls := 0; totalLimitedUrls := 0 |} true n Hat)
    as (n' & Hat' & Eu).
  exists n'. split; [exact Hat'|]. rewrite Eu. exact Hu.
Qed.

Lemma buildPathTree_places_urls_witness :
  exists node,
    getNodeByPath (tree (buildPathTree Toy.URL_pathname Toy.docs 3)) "/docs/a"
    = Some node
    /\ In (Toy.entry "https://example.com/docs/a") (urls node).
Proof.
  apply (buildPathTree_places_urls Toy.URL_pathname Toy.docs 3
           (Toy.entry "https://example.com/docs/a") "/docs/a").
  - vm_compute. tauto.
  - vm_compute. reflexivity.
Defined.

End PathTreePlacement.
